(** * patternmatcher.matching.common: a shallow embedding

    The module [patternmatcher/matching/common.py] enumerates the substitutions
    under which a pattern matches a list of subject expressions, for operators
    that may be associative and/or commutative.  Generators are embedded as
    store-passing computations that return the yielded values in order together
    with the exception (if any) that ended the enumeration; substitutions are
    objects of a store, so that copies, aliases and in-place updates are
    visible. *)

From stdpp Require Import base option list strings gmap fin_maps.

Set Default Proof Using "Type".
Set Warnings "-register-all,-clear-no-such-hyp".
Open Scope string_scope.
Open Scope list_scope.
Open Scope nat_scope.

(** ** Expressions *)

(** A Python class, given by its name and the names of its proper ancestors
    (the tail of its method resolution order). *)
Record Class := MkClass { cname : string; cbases : list string }.

Global Instance Class_eq_dec : EqDecision Class.
Proof. solve_decision. Defined.

(** [issubclass c d]: [d] is [c] itself or one of its ancestors. *)
Definition issubclass (c d : Class) : bool :=
  bool_decide (c = d) || bool_decide (cname d ∈ cbases c).

(** An operator class with its two class attributes. *)
Record OpClass := MkOp { op_class : Class; associative : bool; commutative : bool }.

Global Instance OpClass_eq_dec : EqDecision OpClass.
Proof. solve_decision. Defined.

(** Modelled from the spec: the constraints of the module [constraints],
    missing from the sources; callable predicates over a substitution that
    compose by conjunction.  A custom constraint is named by an identifier,
    which the matchers interpret through a parameter, and [MultiConstraint]
    holds the constraints it is the conjunction of. *)
Inductive Constraint :=
| CustomConstraint (id : nat)
| MultiConstraint (constraints : list Constraint).

Fixpoint Constraint_eq_dec (c d : Constraint) {struct c} : {c = d} + {c <> d}.
Proof.
  decide equality.
  - apply Nat.eq_dec.
  - apply (List.list_eq_dec Constraint_eq_dec).
Defined.

Global Instance Constraint_eq : EqDecision Constraint := Constraint_eq_dec.

(** Modelled from the spec: the expression classes of the module
    [expressions], missing from the sources; a symbol with its class and
    name, a wildcard ([symbol_type] is set for a [SymbolWildcard]), a named
    variable around an expression, and an operation with its operator class
    and operands; each may carry a constraint. *)
Inductive Expression :=
| Symbol (cls : Class) (name : string) (constraint : option Constraint)
| Wildcard (min_count : nat) (fixed_size : bool) (symbol_type : option Class)
    (constraint : option Constraint)
| Variable_ (name : string) (expression : Expression) (constraint : option Constraint)
| Operation (op : OpClass) (operands : list Expression) (constraint : option Constraint).

Fixpoint Expression_eq_dec (e1 e2 : Expression) {struct e1} : {e1 = e2} + {e1 <> e2}.
Proof.
  decide equality;
    first [ apply (List.list_eq_dec Expression_eq_dec) | exact (decide (_ = _)) ].
Defined.

Global Instance Expression_eq : EqDecision Expression := Expression_eq_dec.

(** A bound value: a single expression, or a sequence of expressions held in a
    tuple ([tuple(expressions)]) or in a list ([sorted(...)], [list(...)]);
    Python compares a tuple and a list as different. *)
Inductive Value :=
| VExpr (e : Expression)
| VTuple (es : list Expression)
| VList (es : list Expression).

Global Instance Value_eq : EqDecision Value.
Proof. solve_decision. Defined.

(** Modelled from the spec: [Substitution] of the module [expressions],
    missing from the sources; a dict from variable names to values. *)
Abbreviation Substitution := (gmap string Value).

(** ** Multisets (the [multiset] package)

    A multiset is kept as the list of its distinct elements with their positive
    multiplicities, in insertion order, which is the order [items()] and
    iteration follow. *)
Section Multiset.
Context {K : Type} `{EqDecision K}.

Definition Multiset := list (K * nat).

(** [m[k]] *)
Fixpoint ms_get (m : Multiset) (k : K) : nat :=
  match m with
  | [] => 0
  | (k', n) :: m' => if decide (k' = k) then n else ms_get m' k
  end.

(** [m[k] += n] *)
Fixpoint ms_add_count (k : K) (n : nat) (m : Multiset) : Multiset :=
  match n, m with
  | 0, _ => m
  | _, [] => [(k, n)]
  | _, (k', n') :: m' =>
      if decide (k' = k) then (k', n' + n) :: m' else (k', n') :: ms_add_count k n m'
  end.

(** [len(m)]: the number of elements, with multiplicity. *)
Definition ms_len (m : Multiset) : nat := sum_list (snd <$> m).

(** [a <= b]: every element of [a] occurs at least as often in [b]. *)
Definition ms_le (a b : Multiset) : bool :=
  forallb (fun kn => Nat.leb (snd kn) (ms_get b (fst kn))) a.

(** [a - b]: multiplicities are subtracted and elements that reach zero are
    removed. *)
Definition ms_sub (a b : Multiset) : Multiset :=
  omap (fun kn => let n := snd kn - ms_get b (fst kn) in
                  if decide (n = 0) then None else Some (fst kn, n)) a.

(** [a + b] *)
Definition ms_union (a b : Multiset) : Multiset :=
  foldl (fun acc kn => ms_add_count (fst kn) (snd kn) acc) a b.

(** [a * c] *)
Definition ms_scale (a : Multiset) (c : nat) : Multiset :=
  if decide (c = 0) then [] else (fun kn => (fst kn, snd kn * c)) <$> a.

(** [Multiset(iterable)] *)
Definition ms_of_list (l : list K) : Multiset :=
  foldl (fun acc k => ms_add_count k 1 acc) [] l.

(** [Multiset(mapping)]: entries with a zero count are left out. *)
Definition ms_of_items (l : list (K * nat)) : Multiset :=
  foldl (fun acc kn => ms_add_count (fst kn) (snd kn) acc) [] l.

(** [list(m)]: every element repeated by its multiplicity. *)
Definition ms_elements (m : Multiset) : list K :=
  flat_map (fun kn => replicate (snd kn) (fst kn)) m.

(** [del m[k]] *)
Definition ms_del (k : K) (m : Multiset) : Multiset :=
  filter (fun kn => fst kn ≠ k) m.

(** [m.keys()] *)
Definition ms_keys (m : Multiset) : list K := fst <$> m.
End Multiset.

Arguments Multiset : clear implicits.

(** ** Exceptions, stores and generators *)

Inductive Exn :=
| ValueError | IndexError | KeyError | AssertionError | AttributeError
| TypeError | ZeroDivisionError | RecursionError.

Global Instance Exn_eq : EqDecision Exn.
Proof. solve_decision. Defined.

Inductive result (A : Type) :=
| Ok (a : A)
| Raise (e : Exn).
Arguments Ok {A} a.
Arguments Raise {A} e.

(** Substitution objects live in a store and are named by their index; a new
    object is appended. *)
Abbreviation ref := nat (only parsing).
Abbreviation Store := (list Substitution).

Definition deref (h : Store) (r : ref) : Substitution := default ∅ (h !! r).

(** A computation that returns a value or raises. *)
Definition Comp (A : Type) := Store -> result A * Store.

(** A generator run to exhaustion: the values it yields, in order, and the
    exception that ended it, if any. *)
Definition Gen (A : Type) := Store -> (list A * option Exn) * Store.

Definition comp_ret {A} (a : A) : Comp A := fun h => (Ok a, h).

Definition comp_raise {A} (e : Exn) : Comp A := fun h => (Raise e, h).

Definition comp_bind {A B} (c : Comp A) (k : A -> Comp B) : Comp B := fun h =>
  match c h with
  | (Ok a, h1) => k a h1
  | (Raise e, h1) => (Raise e, h1)
  end.

(** [return] inside a generator, or falling off its end. *)
Definition gen_stop {A} : Gen A := fun h => (([], None), h).

(** [yield x] *)
Definition gen_yield {A} (x : A) : Gen A := fun h => (([x], None), h).

Definition gen_raise {A} (e : Exn) : Gen A := fun h => (([], Some e), h).

(** Two generator statements in sequence. *)
Definition gen_seq {A} (g1 g2 : Gen A) : Gen A := fun h =>
  match g1 h with
  | ((xs, Some e), h1) => ((xs, Some e), h1)
  | ((xs, None), h1) =>
      match g2 h1 with
      | ((ys, e), h2) => ((xs ++ ys, e), h2)
      end
  end.

(** [for x in xs: body], over a list. *)
Fixpoint gen_each {A B} (xs : list A) (body : A -> Gen B) : Gen B :=
  match xs with
  | [] => gen_stop
  | x :: xs' => gen_seq (body x) (gen_each xs' body)
  end.

(** [for x in g: body], over a generator; an exception raised by [g] surfaces
    after the bodies of the values it yielded before. *)
Definition gen_for {A B} (g : Gen A) (body : A -> Gen B) : Gen B := fun h =>
  match g h with
  | ((xs, e), h1) =>
      match gen_each xs body h1 with
      | ((ys, Some e'), h2) => ((ys, Some e'), h2)
      | ((ys, None), h2) => ((ys, e), h2)
      end
  end.

(** Run a computation, then continue as a generator. *)
Definition gen_do {A B} (c : Comp A) (k : A -> Gen B) : Gen B := fun h =>
  match c h with
  | (Ok a, h1) => k a h1
  | (Raise e, h1) => (([], Some e), h1)
  end.

(** [try: g except ValueError: pass] *)
Definition gen_except_ValueError {A} (g : Gen A) : Gen A := fun h =>
  match g h with
  | ((xs, Some ValueError), h1) => ((xs, None), h1)
  | r => r
  end.

Declare Scope gen_scope.
Delimit Scope gen_scope with gen.
Notation "x <- c ;; k" := (gen_do c (fun x => k))
  (at level 100, c at next level, right associativity) : gen_scope.
Notation "'for_' x 'in_' g ;; k" := (gen_for g (fun x => k))
  (at level 100, x pattern, g at next level, right associativity) : gen_scope.

(** [Substitution(r)]: a fresh copy. *)
Definition Substitution_copy (r : ref) : Comp ref := fun h =>
  (Ok (length h), h ++ [deref h r]).

(** [Substitution(items)]: a fresh object. *)
Definition Substitution_new (s : Substitution) : Comp ref := fun h =>
  (Ok (length h), h ++ [s]).

(** [r[name] = v], in place. *)
Definition setitem (r : ref) (name : string) (v : Value) : Comp unit := fun h =>
  (Ok tt, <[r := <[name := v]> (deref h r)]> h).

(** Reading the object [r]. *)
Definition load (r : ref) : Comp Substitution := fun h => (Ok (deref h r), h).

(** [name in s] and [s[name]] at once; the name [None] of an unnamed slot is
    never a key. *)
Definition lookup_name (s : Substitution) (name : option string) : option Value :=
  name ≫= fun n => s !! n.

(** Modelled from the spec: [Substitution.union], missing from the sources; a
    new substitution holding the bindings of both, failing with [ValueError]
    when a name is bound to different values. *)
Definition union (r other : ref) : Comp ref := fun h =>
  if bool_decide (map_agree (deref h r) (deref h other))
  then (Ok (length h), h ++ [deref h r ∪ deref h other])
  else (Raise ValueError, h).

(** ** Attributes of expressions (module [expressions], absent) *)

(** Modelled from the spec: the [is_constant] attribute, missing from the
    sources; an expression is constant when it has no variables or wildcards
    anywhere. *)
Fixpoint is_constant (e : Expression) : bool :=
  match e with
  | Symbol _ _ _ => true
  | Wildcard _ _ _ _ => false
  | Variable_ _ _ _ => false
  | Operation _ operands _ => forallb is_constant operands
  end.

(** Modelled from the spec: the [is_syntactic] attribute, missing from the
    sources; an expression is syntactic when it has no nested associative or
    commutative operation and no sequence wildcards or variables. *)
Fixpoint is_syntactic (e : Expression) : bool :=
  match e with
  | Symbol _ _ _ => true
  | Wildcard _ fixed_size _ _ => fixed_size
  | Variable_ _ inner _ => is_syntactic inner
  | Operation op operands _ =>
      negb (associative op) && negb (commutative op) && forallb is_syntactic operands
  end.

(** Modelled from the spec: the [head] attribute, missing from the sources; a
    bare wildcard, or a variable wrapping one, has no head ([None]); a symbol
    is its own head and an operation has its operator class as head. *)
Fixpoint head (e : Expression) : option (Expression + OpClass) :=
  match e with
  | Symbol _ _ _ => Some (inl e)
  | Wildcard _ _ _ _ => None
  | Variable_ _ inner _ => head inner
  | Operation op _ _ => Some (inr op)
  end.

(** The [constraint] attribute. *)
Definition constraint_of (e : Expression) : option Constraint :=
  match e with
  | Symbol _ _ c | Wildcard _ _ _ c | Variable_ _ _ c | Operation _ _ c => c
  end.

(** Modelled from the spec: [Operation.from_args], missing from the sources;
    it constructs an instance of the same operator type from the operands. *)
Definition from_args (op : OpClass) (operands : list Expression) : Expression :=
  Operation op operands None.

(** Modelled from the spec: [MultiConstraint.create], missing from the
    sources; null if all inputs are null, the single constraint if only one is
    non-null, else a composite that returns the conjunction. *)
Definition MultiConstraint_create (cs : list (option Constraint)) : option Constraint :=
  match omap id cs with
  | [] => None
  | [c] => Some c
  | cs' => Some (MultiConstraint cs')
  end.

(** ** Utility iterators (module [utils], absent) *)

(** Modelled from the spec: [integer_partition_vector_iter], missing from the
    sources; every vector of [parts] non-negative integers summing to [total],
    in lexicographic order. *)
Fixpoint integer_partition_vector_iter (total parts : nat) : list (list nat) :=
  match parts with
  | 0 => if decide (total = 0) then [[]] else []
  | S parts' =>
      flat_map (fun i => cons i <$> integer_partition_vector_iter (total - i) parts')
        (seq 0 (S total))
  end.

(** Modelled from the spec: [fixed_integer_vector_iter], missing from the
    sources; every vector of non-negative integers as long as [max_vector],
    with component [i] at most [max_vector[i]] and with sum [total]. *)
Fixpoint fixed_integer_vector_iter (max_vector : list nat) (total : nat) : list (list nat) :=
  match max_vector with
  | [] => if decide (total = 0) then [[]] else []
  | m :: max_vector' =>
      flat_map (fun i => cons i <$> fixed_integer_vector_iter max_vector' (total - i))
        (seq 0 (S (m `min` total)))
  end.

(** [VariableWithCount(name, count, minimum)] of the module [utils]: a slot of
    the partition enumerator, with the number of times it occurs and its
    minimum length; the name is [None] for the unnamed wildcards. *)
Record VariableWithCount := MkVariableWithCount
  { vwc_name : option string; vwc_count : nat; vwc_minimum : nat }.

(** The ways to hand [n] copies of one value to the slots, a slot that occurs
    [count] times taking a multiple of [count]: the number of copies per
    occurrence, for each slot. *)
Fixpoint distribute_value (n : nat) (variables : list VariableWithCount) : list (list nat) :=
  match variables with
  | [] => if decide (n = 0) then [[]] else []
  | v :: variables' =>
      flat_map (fun k => cons k <$> distribute_value (n - k * vwc_count v) variables')
        (seq 0 (S (n `div` vwc_count v)))
  end.

(** Modelled from the spec: [commutative_sequence_variable_partition_iter],
    missing from the sources; every assignment of a multiset to each slot such
    that each slot receives at least its minimum number of operands and the
    multisets, each taken as often as its slot occurs, sum to [values]. *)
Definition commutative_sequence_variable_partition_iter
    (values : Multiset Expression) (variables : list VariableWithCount)
  : list (list (option string * Multiset Expression)) :=
  let initial := (fun v => (vwc_name v, [])) <$> variables in
  let assignments :=
    foldl (fun acc en =>
             acc ≫= fun partial =>
               (fun ks => zip_with (fun slot k => (fst slot, ms_add_count (fst en) k (snd slot)))
                            partial ks)
                 <$> distribute_value (snd en) variables)
      [initial] values in
  filter (fun a => forallb (fun sv => Nat.leb (vwc_minimum (snd sv)) (ms_len (snd (fst sv))))
                     (zip a variables) = true) assignments.

(** Modelled from the spec: [iterator_chain], missing from the sources; the
    state-chaining enumerator: each factory is called on every state produced
    by the previous one, depth first, and the states that survive the full
    chain are yielded. *)
Fixpoint iterator_chain {S : Type} (initial : S) (factories : list (S -> Gen S)) : Gen S :=
  match factories with
  | [] => gen_yield initial
  | factory :: factories' =>
      gen_for (factory initial) (fun state => iterator_chain state factories')
  end.

(** ** [CommutativePatternsParts] *)

Record VarInfo := MkVarInfo { min_count : nat; constraint : option Constraint }.

Global Instance VarInfo_eq : EqDecision VarInfo.
Proof. solve_decision. Defined.

Module CommutativePatternsParts.

Record t := Build {
  operation : OpClass;
  length : nat;
  constant : Multiset Expression;
  syntactic : Multiset Expression;
  sequence_variables : Multiset string;
  sequence_variable_infos : gmap (option string) VarInfo;
  fixed_variables : Multiset string;
  fixed_variable_infos : gmap (option string) VarInfo;
  rest : Multiset Expression;
  sequence_variable_min_length : nat;
  fixed_variable_length : nat;
  wildcard_min_length : nat;
  wildcard_fixed : option bool
}.

(** [_update_var_info(infos, name, count, constraint)]; the updated dict is
    returned. *)
Definition _update_var_info (infos : gmap (option string) VarInfo)
    (name : option string) (count : nat) (constraint : option Constraint)
  : result (gmap (option string) VarInfo) :=
  match infos !! name with
  | None => Ok (<[name := MkVarInfo count constraint]> infos)
  | Some (MkVarInfo existing_min_count existing_constraint) =>
      if negb (bool_decide (existing_min_count = count)) then Raise AssertionError
      else
        match constraint with
        | None => Ok infos
        | Some c =>
            if negb (bool_decide (is_Some name)) then Raise AssertionError
            else
              let constraint' :=
                match existing_constraint with
                | Some c0 => MultiConstraint_create [Some c0; Some c]
                | None => Some c
                end in
              Ok (<[name := MkVarInfo count constraint']> infos)
        end
  end.

(** The state before the loop of [__init__]. *)
Definition empty (operation : OpClass) (n : nat) : t :=
  Build operation n [] [] [] ∅ [] ∅ [] 0 0 0 None.

(** One turn of the loop of [__init__]. *)
Definition classify (self : t) (expression : Expression) : result t :=
  let '(Build op len cst syn sv svi fv fvi rst svl fvl wml wf) := self in
  if is_constant expression then
    Ok (Build op len (ms_add_count expression 1 cst) syn sv svi fv fvi rst svl fvl wml wf)
  else if bool_decide (head expression = None) then
    match expression with
    | Variable_ name (Wildcard min_count fixed_size _ _) constraint =>
        if fixed_size then
          match _update_var_info fvi (Some name) min_count constraint with
          | Ok fvi' =>
              Ok (Build op len cst syn sv svi (ms_add_count name 1 fv) fvi' rst svl
                    (fvl + min_count) wml wf)
          | Raise e => Raise e
          end
        else
          match _update_var_info svi (Some name) min_count constraint with
          | Ok svi' =>
              Ok (Build op len cst syn (ms_add_count name 1 sv) svi' fv fvi rst
                    (svl + min_count) fvl wml wf)
          | Raise e => Raise e
          end
    | Wildcard min_count fixed_size _ _ =>
        Ok (Build op len cst syn sv svi fv fvi rst svl fvl (wml + min_count)
              (match wf with
               | None => Some fixed_size
               | Some b => Some (b && fixed_size)
               end))
    | _ => Raise AttributeError
    end
  else if is_syntactic expression then
    Ok (Build op len cst (ms_add_count expression 1 syn) sv svi fv fvi rst svl fvl wml wf)
  else
    Ok (Build op len cst syn sv svi fv fvi (ms_add_count expression 1 rst) svl fvl wml wf).

Fixpoint classify_all (self : t) (expressions : list Expression) : result t :=
  match expressions with
  | [] => Ok self
  | expression :: expressions' =>
      match classify self expression with
      | Ok self' => classify_all self' expressions'
      | Raise e => Raise e
      end
  end.

(** [CommutativePatternsParts(operation, *expressions)] *)
Definition __init__ (operation : OpClass) (expressions : list Expression) : result t :=
  classify_all (empty operation (List.length expressions)) expressions.

End CommutativePatternsParts.

(** ** The matchers *)

Import CommutativePatternsParts.

(** [isinstance(e, cls)] for a class of symbols. *)
Definition isinstance_Symbol (e : Expression) (cls : Class) : bool :=
  match e with
  | Symbol c _ _ => issubclass c cls
  | _ => false
  end.

(** [isinstance(e, op)] for a class of operations. *)
Definition isinstance_Operation (e : Expression) (op : OpClass) : bool :=
  match e with
  | Operation o _ _ => issubclass (op_class o) (op_class op)
  | _ => false
  end.

(** [operand.expression if isinstance(operand, Variable) else operand] *)
Definition unwrap_variable (operand : Expression) : Expression :=
  match operand with
  | Variable_ _ inner _ => inner
  | _ => operand
  end.

Definition _count_seq_vars_step (assoc : bool) (operand : Expression)
    (state : nat * nat) : result (nat * nat) :=
  let '(remaining, sequence_var_count) := state in
  match unwrap_variable operand with
  | Wildcard min_count fixed_size _ _ =>
      let sequence_var_count' :=
        if negb fixed_size || assoc then S sequence_var_count else sequence_var_count in
      (* [remaining -= min_count; if remaining < 0: raise ValueError] *)
      if remaining <? min_count then Raise ValueError
      else Ok (remaining - min_count, sequence_var_count')
  | _ =>
      if remaining <? 1 then Raise ValueError
      else Ok (remaining - 1, sequence_var_count)
  end.

Fixpoint _count_seq_vars_loop (assoc : bool) (operands : list Expression)
    (state : nat * nat) : result (nat * nat) :=
  match operands with
  | [] => Ok state
  | operand :: operands' =>
      match _count_seq_vars_step assoc operand state with
      | Ok state' => _count_seq_vars_loop assoc operands' state'
      | Raise e => Raise e
      end
  end.

Definition _count_seq_vars (expressions : list Expression) (operation : Expression)
  : result (nat * nat) :=
  match operation with
  | Operation op operands _ =>
      _count_seq_vars_loop (associative op) operands (List.length expressions, 0)
  | _ => Raise AttributeError
  end.

(** What one turn of the loop of [_build_full_partition] reads off the
    operand: [count], the next [var_index] and [wrap_associative] (0 when it
    is false). *)
Definition slot_count (sequence_var_partition : list nat) (assoc : bool)
    (operand : Expression) (var_index : nat) : result (nat * nat * nat) :=
  match unwrap_variable operand with
  | Wildcard min_count fixed_size _ _ =>
      if negb fixed_size || assoc then
        match sequence_var_partition !! var_index with
        | Some extra =>
            Ok (min_count + extra, S var_index, if fixed_size then min_count else 0)
        | None => Raise IndexError
        end
      else Ok (min_count, var_index, 0)
  | _ => Ok (1, var_index, 0)
  end.

(** The re-wrapping of the operands of a slot. *)
Definition wrap_operands (op : OpClass) (wrap_associative : nat)
    (operand_expressions : list Expression) : list Expression :=
  if (0 <? wrap_associative) && (wrap_associative <? List.length operand_expressions) then
    let fixed := wrap_associative - 1 in
    take fixed operand_expressions ++ [from_args op (drop fixed operand_expressions)]
  else operand_expressions.

Fixpoint _build_full_partition_loop (sequence_var_partition : list nat)
    (expressions : list Expression) (op : OpClass) (operands : list Expression)
    (i var_index : nat) : result (list (list Expression)) :=
  match operands with
  | [] => Ok []
  | operand :: operands' =>
      match slot_count sequence_var_partition (associative op) operand var_index with
      | Raise e => Raise e
      | Ok (count, var_index', wrap_associative) =>
          let operand_expressions := take count (drop i expressions) in
          match _build_full_partition_loop sequence_var_partition expressions op operands'
                  (i + count) var_index' with
          | Raise e => Raise e
          | Ok result =>
              Ok (wrap_operands op wrap_associative operand_expressions :: result)
          end
      end
  end.

Definition _build_full_partition (sequence_var_partition : list nat)
    (expressions : list Expression) (operation : Expression)
  : result (list (list Expression)) :=
  match operation with
  | Operation op operands _ =>
      _build_full_partition_loop sequence_var_partition expressions op operands 0 0
  | _ => Raise AttributeError
  end.

(** The values of [i] and [var_index] in [_build_full_partition] after the
    operands [done] have been handled. *)
Fixpoint partition_state (sequence_var_partition : list nat) (assoc : bool)
    (done : list Expression) (i var_index : nat) : result (nat * nat) :=
  match done with
  | [] => Ok (i, var_index)
  | operand :: done' =>
      match slot_count sequence_var_partition assoc operand var_index with
      | Raise e => Raise e
      | Ok (count, var_index', _) =>
          partition_state sequence_var_partition assoc done' (i + count) var_index'
      end
  end.

(** [_variables_with_counts(variables, infos)] *)
Fixpoint _variables_with_counts (variables : Multiset string)
    (infos : gmap (option string) VarInfo) : result (list VariableWithCount) :=
  match variables with
  | [] => Ok []
  | (name, count) :: variables' =>
      match infos !! Some name, _variables_with_counts variables' infos with
      | None, _ => Raise KeyError
      | Some info, Ok vs => Ok (MkVariableWithCount (Some name) count (min_count info) :: vs)
      | Some _, Raise e => Raise e
      end
  end.

(** [[infos[name].constraint for name in names]] *)
Fixpoint constraints_of (names : list string) (infos : gmap (option string) VarInfo)
  : result (list (option Constraint)) :=
  match names with
  | [] => Ok []
  | name :: names' =>
      match infos !! Some name, constraints_of names' infos with
      | None, _ => Raise KeyError
      | Some info, Ok cs => Ok (constraint info :: cs)
      | Some _, Raise e => Raise e
      end
  end.

(** [_split_expressions(expressions)] *)
Definition _split_expressions (expressions : Multiset Expression)
  : Multiset Expression * Multiset Expression :=
  foldl (fun '(constants, syntactics) '(expression, count) =>
           if is_syntactic expression
              || negb (match expression with
                       | Operation op _ _ => associative op || commutative op
                       | _ => false
                       end)
           then (constants, ms_add_count expression count syntactics)
           else (ms_add_count expression count constants, syntactics))
    ([], []) expressions.

Definition operands_of (e : Expression) : list Expression :=
  match e with
  | Operation _ operands _ => operands
  | _ => []
  end.

(** The multiset of operands that a fixed variable bound to [v] stands for, in
    a pattern of operator [op]. *)
Definition needed_count_of (op : OpClass) (v : Value) : Multiset Expression :=
  match v with
  | VExpr e =>
      if associative op && isinstance_Operation e op then ms_of_list (operands_of e)
      else ms_of_items [(e, 1)]
  | VTuple es | VList es => ms_of_list es
  end.

(** The first loop of [_matches_from_matching], over the fixed variables that
    are bound in [s] already; [None] stands for its [return]. *)
Fixpoint consume_bound (op : OpClass) (s : Substitution) (items : list (string * nat))
    (remaining : Multiset Expression) (fixed_vars : Multiset string)
  : option (Multiset Expression * Multiset string) :=
  match items with
  | [] => Some (remaining, fixed_vars)
  | (name, count) :: items' =>
      match s !! name with
      | Some v =>
          let needed_count := needed_count_of op v in
          let needed_count :=
            if 1 <? count then ms_scale needed_count count else needed_count in
          if negb (ms_le needed_count remaining) then None
          else consume_bound op s items' (ms_sub remaining needed_count) (ms_del name fixed_vars)
      | None => consume_bound op s items' remaining fixed_vars
      end
  end.

Definition result_bind {A B} (r : result A) (k : A -> result B) : result B :=
  match r with
  | Ok a => k a
  | Raise e => Raise e
  end.

(** The slots handed to the partition enumerator and the combined constraint,
    computed at the head of the loop over the chain. *)
Definition sequence_slots (pattern : CommutativePatternsParts.t) (fixed_vars : Multiset string)
  : result (list VariableWithCount * option Constraint) :=
  let unnamed := [MkVariableWithCount None 1 (wildcard_min_length pattern)] in
  result_bind (_variables_with_counts (sequence_variables pattern) (sequence_variable_infos pattern))
    (fun sequence_vars =>
  result_bind (constraints_of (ms_elements (sequence_variables pattern))
                 (sequence_variable_infos pattern))
    (fun constraints =>
  result_bind
    (if associative (operation pattern) then
       result_bind (_variables_with_counts fixed_vars (fixed_variable_infos pattern))
         (fun fixed =>
       result_bind (constraints_of (ms_elements fixed_vars) (fixed_variable_infos pattern))
         (fun fixed_constraints =>
       Ok (sequence_vars ++ fixed
             ++ (if bool_decide (wildcard_fixed pattern = Some true) then unnamed else []),
           constraints ++ fixed_constraints)))
     else Ok (sequence_vars, constraints))
    (fun '(sequence_vars, constraints) =>
  Ok (sequence_vars
        ++ (if bool_decide (wildcard_fixed pattern = Some false) then unnamed else []),
      MultiConstraint_create constraints)))).

Section Matching.

(** Calling the constraint named [id] on a substitution; constraints are
    taken to be pure. *)
Variable call : nat -> Substitution -> bool.

(** [e1 < e2] on expressions, used by [sorted]. *)
Variable expr_lt : Expression -> Expression -> bool.

Fixpoint holds (c : Constraint) (s : Substitution) : bool :=
  match c with
  | CustomConstraint id => call id s
  | MultiConstraint cs => forallb (fun c' => holds c' s) cs
  end.

(** [constraint is None or constraint(subst)] *)
Definition accepts (constraint : option Constraint) (subst : ref) : Comp bool := fun h =>
  (Ok (from_option (fun c => holds c (deref h subst)) true constraint), h).

(** [sorted(exprs)], a stable sort. *)
Fixpoint sorted_insert (x : Expression) (l : list Expression) : list Expression :=
  match l with
  | [] => [x]
  | y :: l' => if expr_lt y x then y :: sorted_insert x l' else x :: l
  end.

Definition sorted (l : list Expression) : list Expression :=
  foldr sorted_insert [] l.

Definition Matcher := list Expression -> Expression -> ref -> Gen ref.

Definition yield_if_accepted {A} (constraint : option Constraint) (subst : ref) (x : A)
  : Gen A :=
  (ok <- accepts constraint subst ;;
   if ok : bool then gen_yield x else gen_stop)%gen.

Definition match_wildcard (expressions : list Expression) (wildcard : Expression)
    (subst : ref) : Gen ref :=
  match wildcard with
  | Wildcard min_count fixed_size symbol_type constraint =>
      if fixed_size then
        if bool_decide (List.length expressions = min_count) then
          match symbol_type with
          | Some ty =>
              match expressions with
              | [] => gen_raise IndexError
              | e :: _ =>
                  if negb (isinstance_Symbol e ty) then gen_stop
                  else yield_if_accepted constraint subst subst
              end
          | None => yield_if_accepted constraint subst subst
          end
        else gen_stop
      else if min_count <=? List.length expressions then
        yield_if_accepted constraint subst subst
      else gen_stop
  | _ => gen_raise AttributeError
  end.

Definition match_variable (expressions : list Expression) (variable : Expression)
    (subst : ref) (matcher : Matcher) : Gen ref :=
  match variable with
  | Variable_ name inner constraint =>
      let expr :=
        match expressions, inner with
        | [e], Wildcard _ fixed_size _ _ => if fixed_size then VExpr e else VTuple expressions
        | [e], _ => VExpr e
        | _, _ => VTuple expressions
        end in
      (s <- load subst ;;
       match s !! name with
       | Some v =>
           if bool_decide (expr = v) then yield_if_accepted constraint subst subst
           else gen_stop
       | None =>
           for_ new_subst in_ matcher expressions inner subst ;;
           new_subst <- Substitution_copy new_subst ;;
           _ <- setitem new_subst name expr ;;
           yield_if_accepted constraint new_subst new_subst
       end)%gen
  | _ => gen_raise AttributeError
  end.

Definition _match_factory (expressions : list Expression) (operand : Expression)
    (matcher : Matcher) : ref -> Gen ref :=
  fun subst => (for_ subst' in_ matcher expressions operand subst ;; gen_yield subst')%gen.

Definition _non_commutative_match (expressions : list Expression) (operation : Expression)
    (subst : ref) (matcher : Matcher) : Gen ref :=
  match _count_seq_vars expressions operation with
  | Raise ValueError => gen_stop
  | Raise e => gen_raise e
  | Ok (remaining, sequence_var_count) =>
      gen_each (integer_partition_vector_iter remaining sequence_var_count) (fun part =>
        match _build_full_partition part expressions operation with
        | Raise e => gen_raise e
        | Ok partition =>
            let factories :=
              zip_with (fun e o => _match_factory e o matcher) partition
                (operands_of operation) in
            (for_ new_subst in_ iterator_chain subst factories ;; gen_yield new_subst)%gen
        end)
  end.

Definition _fixed_expr_factory (expression : Expression) (matcher : Matcher)
  : Multiset Expression * ref -> Gen (Multiset Expression * ref) :=
  fun '(expressions, substitution) =>
    gen_each (ms_keys expressions) (fun expr =>
      if bool_decide (head expr = head expression) then
        (for_ subst in_ matcher [expr] expression substitution ;;
         yield_if_accepted (constraint_of expression) subst
           (ms_sub expressions (ms_of_items [(expr, 1)]), subst))%gen
      else gen_stop).

(** Binding [variable] to [value] on a copy of [substitution] and yielding
    the new state when the constraint accepts it; an unnamed slot yields the
    substitution it was given. *)
Definition bind_fixed (variable : option string) (constraint : option Constraint)
    (substitution : ref) (value : Value) (rest : Multiset Expression)
  : Gen (Multiset Expression * ref) :=
  match variable with
  | Some name =>
      (new_substitution <- Substitution_copy substitution ;;
       _ <- setitem new_substitution name value ;;
       yield_if_accepted constraint new_substitution (rest, new_substitution))%gen
  | None => gen_yield (rest, substitution)
  end.

Definition _fixed_var_iter_factory (variable : option string) (count length : nat)
    (constraint : option Constraint)
  : Multiset Expression * ref -> Gen (Multiset Expression * ref) :=
  fun '(expressions, substitution) =>
    (s <- load substitution ;;
     match lookup_name s variable with
     | Some v =>
         let value := match v with VExpr e => [e] | VTuple es | VList es => es end in
         let existing := ms_scale (ms_of_list value) count in
         if negb (ms_le existing expressions) then gen_stop
         else yield_if_accepted constraint substitution
                (ms_sub expressions existing, substitution)
     | None =>
         if bool_decide (length = 1) then
           gen_each expressions (fun '(expr, expr_count) =>
             if count <=? expr_count then
               bind_fixed variable constraint substitution (VExpr expr)
                 (ms_sub expressions (ms_of_items [(expr, count)]))
             else gen_stop)
         else
           let exprs_with_counts := expressions in
           if bool_decide (count = 0) && negb (bool_decide (exprs_with_counts = []))
           then gen_raise ZeroDivisionError
           else
             let counts := (fun ec => snd ec `div` count) <$> exprs_with_counts in
             gen_each (fixed_integer_vector_iter counts length) (fun subset =>
               let sub_counter :=
                 ms_of_items (zip_with (fun ec c => (fst ec, c * count))
                                exprs_with_counts subset) in
               bind_fixed variable constraint substitution
                 (VList (ms_elements sub_counter)) (ms_sub expressions sub_counter))
     end)%gen.

(** The factories of the fixed variables that are still unbound. *)
Fixpoint fixed_var_factories (infos : gmap (option string) VarInfo)
    (items : Multiset string)
  : result (list (Multiset Expression * ref -> Gen (Multiset Expression * ref))) :=
  match items with
  | [] => Ok []
  | (name, count) :: items' =>
      match infos !! Some name with
      | None => Raise KeyError
      | Some info =>
          result_bind (fixed_var_factories infos items') (fun fs =>
            Ok (_fixed_var_iter_factory (Some name) count (min_count info) (constraint info)
                  :: fs))
      end
  end.

(** [Substitution((var, sorted(exprs)) for var, exprs in sequence_subst.items())];
    the unnamed slot has no variable and gives no binding. *)
Definition Substitution_of_partition
    (sequence_subst : list (option string * Multiset Expression)) : Substitution :=
  foldl (fun s '(var, exprs) =>
           match var with
           | Some name => <[name := VList (sorted (ms_elements exprs))]> s
           | None => s
           end) ∅ sequence_subst.

(** The loop that re-wraps, under an associative operator, the values of the
    fixed variables that were allocated as sequences. *)
Fixpoint rewrap_fixed (op : OpClass) (infos : gmap (option string) VarInfo) (s : ref)
    (names : list string) : Comp unit :=
  match names with
  | [] => comp_ret tt
  | v :: names' =>
      match infos !! Some v with
      | None => comp_raise KeyError
      | Some info =>
          let l := min_count info in
          comp_bind (load s) (fun sv =>
            match sv !! v with
            | None => comp_raise KeyError
            | Some (VExpr _) => comp_raise TypeError
            | Some (VTuple value) | Some (VList value) =>
                comp_bind
                  (if l <? List.length value then setitem s v (VExpr (from_args op value))
                   else if bool_decide (l = List.length value) && bool_decide (l = 1) then
                     match value with
                     | e :: _ => setitem s v (VExpr e)
                     | [] => comp_raise IndexError
                     end
                   else comp_ret tt)
                  (fun _ => rewrap_fixed op infos s names')
            end)
      end
  end.

Definition _matches_from_matching (subst : ref) (remaining : Multiset Expression)
    (pattern : CommutativePatternsParts.t) (matcher : Matcher) (include_syntactic : bool)
  : Gen ref :=
  let op := operation pattern in
  let rest_expr :=
    if include_syntactic then ms_union (rest pattern) (syntactic pattern) else rest pattern in
  let needed_length :=
    ms_len (sequence_variables pattern) + ms_len (fixed_variables pattern)
    + ms_len rest_expr + wildcard_min_length pattern in
  if ms_len remaining <? needed_length then gen_stop
  else
    (s0 <- load subst ;;
     match consume_bound op s0 (fixed_variables pattern) remaining (fixed_variables pattern) with
     | None => gen_stop
     | Some (remaining, fixed_vars) =>
         let factories := (fun e => _fixed_expr_factory e matcher) <$> ms_elements rest_expr in
         match
           (if negb (associative op) then
              result_bind (fixed_var_factories (fixed_variable_infos pattern) fixed_vars)
                (fun fs =>
                   Ok (factories ++ fs
                         ++ (if bool_decide (wildcard_fixed pattern = Some true)
                             then [_fixed_var_iter_factory None 1
                                     (wildcard_min_length pattern) None]
                             else [])))
            else Ok factories)
         with
         | Raise e => gen_raise e
         | Ok factories =>
             let expr_counter := remaining in
             for_ (rem_expr, subst) in_ iterator_chain (expr_counter, subst) factories ;;
             match sequence_slots pattern fixed_vars with
             | Raise e => gen_raise e
             | Ok (sequence_vars, combined_constraint) =>
                 gen_each (commutative_sequence_variable_partition_iter rem_expr sequence_vars)
                   (fun sequence_subst =>
                      s <- Substitution_new (Substitution_of_partition sequence_subst) ;;
                      _ <- (if associative op
                            then rewrap_fixed op (fixed_variable_infos pattern) s
                                   (ms_keys fixed_vars)
                            else comp_ret tt) ;;
                      gen_except_ValueError
                        (result <- union s subst ;;
                         yield_if_accepted combined_constraint result result))
             end
         end
     end)%gen.

Definition SyntacticMatcher :=
  Multiset Expression -> Multiset Expression -> Gen (ref * Multiset Expression).

Definition match_commutative_operation (operands : list Expression)
    (pattern : CommutativePatternsParts.t) (substitution : ref) (matcher : Matcher)
    (syntactic_matcher : option SyntacticMatcher) : Gen ref :=
  if existsb (fun e => negb (is_constant e)) operands then gen_raise ValueError
  else
    let expressions := ms_of_list operands in
    if negb (ms_le (constant pattern) expressions) then gen_stop
    else
      let expressions := ms_sub expressions (constant pattern) in
      match syntactic_matcher with
      | Some the_syntactic_matcher =>
          if negb (bool_decide (syntactic pattern = [])) then
            let '(rest, syntactics) := _split_expressions expressions in
            if ms_len syntactics <? ms_len (syntactic pattern) then gen_stop
            else
              (for_ (subst, remaining) in_ the_syntactic_matcher syntactics (syntactic pattern) ;;
               gen_except_ValueError
                 (subst' <- union subst substitution ;;
                  _matches_from_matching subst' (ms_union remaining rest) pattern matcher
                    false))%gen
          else _matches_from_matching substitution expressions pattern matcher true
      | None => _matches_from_matching substitution expressions pattern matcher true
      end.

Definition match_operation (expressions : list Expression) (operation : Expression)
    (subst : ref) (matcher : Matcher) : Gen ref :=
  match operation with
  | Operation op operands _ =>
      if bool_decide (List.length operands = 0) then
        if bool_decide (List.length expressions = 0) then gen_yield subst else gen_stop
      else if negb (commutative op) then
        _non_commutative_match expressions operation subst matcher
      else
        match CommutativePatternsParts.__init__ op operands with
        | Raise e => gen_raise e
        | Ok parts => match_commutative_operation expressions parts subst matcher None
        end
  | _ => gen_raise AttributeError
  end.

(** [match(expressions, pattern, subst)]; [fuel] bounds the depth of the
    recursion through [matcher], and a call that runs out of it raises
    [RecursionError]. *)
Fixpoint match_ (fuel : nat) (expressions : list Expression) (pattern : Expression)
    (subst : ref) : Gen ref :=
  match fuel with
  | 0 => gen_raise RecursionError
  | S fuel' =>
      match pattern with
      | Variable_ _ _ _ => match_variable expressions pattern subst (match_ fuel')
      | Wildcard _ _ _ _ => match_wildcard expressions pattern subst
      | Symbol cls name constraint =>
          match expressions with
          | [Symbol cls' name' _ as e] =>
              if isinstance_Symbol e cls && bool_decide (name' = name)
              then yield_if_accepted constraint subst subst
              else gen_stop
          | _ => gen_stop
          end
      | Operation op _ constraint =>
          match expressions with
          | [Operation _ operands _ as e] =>
              if negb (isinstance_Operation e op) then gen_stop
              else
                (for_ result in_ match_operation operands pattern subst (match_ fuel') ;;
                 yield_if_accepted constraint result result)%gen
          | _ => gen_stop
          end
      end
  end.

End Matching.

(** ** Frames and exceptions of generators *)

(** A generator, or a computation, that leaves every object of the store as
    it is and only adds new objects. *)
Definition gen_extends {A} (g : Gen A) : Prop := ∀ h, h `prefix_of` (g h).2.
Definition comp_extends {A} (c : Comp A) : Prop := ∀ h, h `prefix_of` (c h).2.

(** A generator, or a computation, that never raises. *)
Definition gen_total {A} (g : Gen A) : Prop := ∀ h, (g h).1.2 = None.
Definition comp_total {A} (c : Comp A) : Prop := ∀ h, ∃ a, (c h).1 = Ok a.

(** A generator that raises no exception outside of [E]. *)
Definition gen_raises_only {A} (E : Exn → Prop) (g : Gen A) : Prop :=
  ∀ h e, (g h).1.2 = Some e → E e.

(** A matcher that leaves every object of the store as it is. *)
Definition matcher_extends (matcher : list Expression → Expression → ref → Gen ref) : Prop :=
  ∀ expressions pattern subst, gen_extends (matcher expressions pattern subst).

(** The invariant of the [multiset] package: distinct elements with positive
    multiplicities. *)
Definition ms_wf {K} (m : Multiset K) : Prop :=
  NoDup (ms_keys m) ∧ ∀ kn, kn ∈ m → 1 ≤ kn.2.

(** What [__init__] establishes about the variables of the parts: the two
    multisets of names are well formed and every name has its [VarInfo]. *)
Definition parts_wf (p : CommutativePatternsParts.t) : Prop :=
  ms_wf (fixed_variables p) ∧ ms_wf (sequence_variables p)
  ∧ (∀ name, name ∈ ms_keys (fixed_variables p) →
       is_Some (fixed_variable_infos p !! Some name))
  ∧ (∀ name, name ∈ ms_keys (sequence_variables p) →
       is_Some (sequence_variable_infos p !! Some name)).

(** The depth of the recursion of [match] on a pattern, and the generators
    that do not run out of fuel. *)
Fixpoint depth (e : Expression) : nat :=
  match e with
  | Symbol _ _ _ | Wildcard _ _ _ _ => 0
  | Variable_ _ inner _ => S (depth inner)
  | Operation _ operands _ => S (foldr (fun o d => depth o `max` d) 0 operands)
  end.

Definition gen_no_overflow {A} (g : Gen A) : Prop :=
  ∀ h, (g h).1.2 ≠ Some RecursionError.

(** The patterns on which no line of the non-commutative matchers can raise:
    no commutative operation that has operands, and no fixed-size symbol
    wildcard of [min_count] 0 (on which [match_wildcard] reads
    [expressions[0]] of an empty list). *)
Fixpoint non_commutative (e : Expression) : bool :=
  match e with
  | Symbol _ _ _ => true
  | Wildcard min_count fixed_size symbol_type _ =>
      negb (fixed_size && bool_decide (min_count = 0) && bool_decide (is_Some symbol_type))
  | Variable_ _ inner _ => non_commutative inner
  | Operation op operands _ =>
      (negb (commutative op) || bool_decide (operands = []))
      && forallb non_commutative operands
  end.

(** A generator that, from a store that satisfies [P], only adds objects to
    the store and yields values that satisfy [Q] in the store it leaves. *)
Definition gen_post {A} (P : Store → Prop) (Q : A → Store → Prop) (g : Gen A) : Prop :=
  ∀ h, P h → h `prefix_of` (g h).2 ∧ ∀ x, x ∈ (g h).1.1 → Q x (g h).2.

(** Properties of the store that adding objects keeps. *)
Definition stable (P : Store → Prop) : Prop :=
  ∀ h h', h `prefix_of` h' → P h → P h'.

(** The object [r] exists and its contents satisfy [φ]. *)
Definition holds_at (φ : Substitution → Prop) (r : nat) (h : Store) : Prop :=
  r < List.length h ∧ φ (deref h r).

(** A matcher whose yielded substitutions are objects of the store that
    extend [σ0], when the substitution it is given does. *)
Definition matcher_keeps (σ0 : Substitution) (matcher : Matcher) : Prop :=
  ∀ expressions pattern subst,
    gen_post (holds_at (λ σ, σ0 ⊆ σ) subst) (holds_at (λ σ, σ0 ⊆ σ))
      (matcher expressions pattern subst).

(** The value that [match_variable] binds the variable to. *)
Definition bound_value (expressions : list Expression) (inner : Expression) : Value :=
  match expressions, inner with
  | [e], Wildcard _ fixed_size _ _ => if fixed_size then VExpr e else VTuple expressions
  | [e], _ => VExpr e
  | _, _ => VTuple expressions
  end.

(** The least number of subjects that an operand of a pattern takes in
    [_count_seq_vars]: the [min_count] of a wildcard, bare or wrapped in a
    variable, and one for any other operand. *)
Definition slot_min (operand : Expression) : nat :=
  match unwrap_variable operand with
  | Wildcard min_count _ _ _ => min_count
  | _ => 1
  end.

(** The operands that [_count_seq_vars] counts as sequence variables. *)
Definition is_sequence_slot (assoc : bool) (operand : Expression) : bool :=
  match unwrap_variable operand with
  | Wildcard _ fixed_size _ _ => negb fixed_size || assoc
  | _ => false
  end.

(** The value of [wrap_associative] for an operand in [_build_full_partition],
    0 when it is false. *)
Definition wrap_of (assoc : bool) (operand : Expression) : nat :=
  match unwrap_variable operand with
  | Wildcard min_count fixed_size _ _ => if assoc && fixed_size then min_count else 0
  | _ => 0
  end.

(** ** The buckets of a commutative pattern, in the words of the specification *)

Inductive Bucket :=
| BConstant | BSyntactic | BSequenceVariable | BFixedVariable | BUnnamedWildcard | BRest.

Global Instance Bucket_eq : EqDecision Bucket.
Proof. solve_decision. Defined.

(** The bucket the specification gives to an operand: constants first; then
    the operands without a head, by the wildcard they are or wrap; then the
    syntactic operands; then the rest.  A variable that wraps something other
    than a wildcard and has no head is in no bucket. *)
Definition bucket_of (e : Expression) : option Bucket :=
  if is_constant e then Some BConstant
  else if bool_decide (head e = None) then
    match e with
    | Variable_ _ (Wildcard _ fixed_size _ _) _ =>
        Some (if fixed_size then BFixedVariable else BSequenceVariable)
    | Wildcard _ _ _ _ => Some BUnnamedWildcard
    | _ => None
    end
  else if is_syntactic e then Some BSyntactic
  else Some BRest.

Definition in_bucket (b : Bucket) (e : Expression) : bool :=
  bool_decide (bucket_of e = Some b).

Definition variable_name (e : Expression) : option string :=
  match e with
  | Variable_ name _ _ => Some name
  | _ => None
  end.

(** The operands [es] classified into the buckets of [p]. *)
Definition classified (p : CommutativePatternsParts.t) (es : list Expression) : Prop :=
  ms_elements (constant p) ≡ₚ filter (in_bucket BConstant) es
  ∧ ms_elements (syntactic p) ≡ₚ filter (in_bucket BSyntactic) es
  ∧ ms_elements (rest p) ≡ₚ filter (in_bucket BRest) es
  ∧ ms_elements (sequence_variables p)
    ≡ₚ omap variable_name (filter (in_bucket BSequenceVariable) es)
  ∧ ms_elements (fixed_variables p)
    ≡ₚ omap variable_name (filter (in_bucket BFixedVariable) es).

(** The [fixed_size] attribute of a wildcard, bare or wrapped in a variable. *)
Definition fixed_size_of (operand : Expression) : bool :=
  match unwrap_variable operand with
  | Wildcard _ fixed_size _ _ => fixed_size
  | _ => false
  end.

(** The lengths and the flag that [__init__] accumulates, read off the
    operands [es]: the sums of the [min_count]s in three of the buckets, and
    for the unnamed wildcards [None] when there is none and otherwise whether
    all of them have a fixed size. *)
Definition summed (p : CommutativePatternsParts.t) (es : list Expression) : Prop :=
  sequence_variable_min_length p
  = sum_list (slot_min <$> filter (in_bucket BSequenceVariable) es)
  ∧ fixed_variable_length p = sum_list (slot_min <$> filter (in_bucket BFixedVariable) es)
  ∧ wildcard_min_length p = sum_list (slot_min <$> filter (in_bucket BUnnamedWildcard) es)
  ∧ wildcard_fixed p
    = (if bool_decide (filter (in_bucket BUnnamedWildcard) es = []) then None
       else Some (forallb fixed_size_of (filter (in_bucket BUnnamedWildcard) es))).

(** The operands among [occurrences] that are variables of the name [name]. *)
Definition named (name : string) (occurrences : list Expression) : list Expression :=
  filter (λ e, variable_name e = Some name) occurrences.

(** A dictionary of [VarInfo]s that agrees with the variables [occurrences]
    it was built from: a name has an entry exactly when it occurs; the
    [min_count] of the entry is that of every occurrence, and its constraint
    holds exactly when the constraints of all the occurrences hold.  The
    key [None] of the unnamed wildcards is never used. *)
Definition infos_agree (infos : gmap (option string) VarInfo)
    (occurrences : list Expression) : Prop :=
  infos !! None = None
  ∧ ∀ name,
      match infos !! Some name with
      | None => named name occurrences = []
      | Some info =>
          named name occurrences ≠ []
          ∧ (∀ e, e ∈ named name occurrences → slot_min e = min_count info)
          ∧ ∀ call s,
              from_option (λ c, holds call c s) true (constraint info)
              = forallb (λ e, from_option (λ c, holds call c s) true (constraint_of e))
                  (named name occurrences)
      end.

(** An operation whose operator is associative or commutative. *)
Definition is_ac_operation (e : Expression) : bool :=
  match e with
  | Operation op _ _ => associative op || commutative op
  | _ => false
  end.

(** The expressions without variables, wildcards or constraints in which no
    commutative operator has operands. *)
Fixpoint ground (e : Expression) : bool :=
  match e with
  | Symbol _ _ c => bool_decide (c = None)
  | Operation op operands c =>
      bool_decide (c = None)
      && (negb (commutative op) || bool_decide (operands = []))
      && forallb ground operands
  | _ => false
  end.

(** ** Sample expressions *)

Definition SymbolClass : Class := MkClass "Symbol" [].
Definition sym (name : string) : Expression := Symbol SymbolClass name None.
Definition a_ := sym "a".
Definition b_ := sym "b".
Definition c_ := sym "c".
Definition d_ := sym "d".

(** A commutative operator, an associative-commutative one and an
    associative one. *)
Definition f_op : OpClass := MkOp (MkClass "f" []) false true.
Definition fa_op : OpClass := MkOp (MkClass "fa" []) true true.
Definition g_op : OpClass := MkOp (MkClass "g" []) true false.
Definition op_ (op : OpClass) (operands : list Expression) := Operation op operands None.

(** [x_]: the variable [x] around a fixed-size wildcard of [min_count] 1. *)
Definition x_ : Expression := Variable_ "x" (Wildcard 1 true None None) None.
(** The variable [x] around a fixed-size wildcard of [min_count] 2. *)
Definition x2_ : Expression := Variable_ "x" (Wildcard 2 true None None) None.
Definition x__ : Expression := Variable_ "x" (Wildcard 1 false None None) None.

(** The variable [x] around a fixed-size wildcard of [min_count] 1, and the
    parts that [__init__] makes of two such operands. *)
Definition fixed_var (x : string) : Expression := Variable_ x (Wildcard 1 true None None) None.
Definition parts_xx (op : OpClass) (x : string) : CommutativePatternsParts.t :=
  CommutativePatternsParts.Build op 2 [] [] [] ∅ [(x, 2)]
    {[Some x := MkVarInfo 1 None]} [] 0 2 0 None.

(** The instance of a pattern under a substitution, in the words of the
    soundness property: every variable is replaced by its value, a sequence
    being spliced into the operands around it. *)
Fixpoint substitute (s : Substitution) (e : Expression) : list Expression :=
  match e with
  | Variable_ name _ _ =>
      match s !! name with
      | Some (VExpr v) => [v]
      | Some (VTuple vs) | Some (VList vs) => vs
      | None => [e]
      end
  | Operation op operands c => [Operation op (flat_map (substitute s) operands) c]
  | _ => [e]
  end.

(** [x_] with a constraint, the custom constraint 0. *)
Definition x_constrained : Expression :=
  Variable_ "x" (Wildcard 1 true None None) (Some (CustomConstraint 0)).

(** The substitutions a generator yields from a store, read off the store it
    leaves. *)
Definition yielded (g : Gen nat) (h : Store) : list Substitution :=
  (fun r => deref (g h).2 r) <$> (g h).1.1.

(** A class of symbols that derives from [Symbol]. *)
Definition SpecialSymbolClass : Class := MkClass "SpecialSymbol" ["Symbol"].

(** Sample interpretations of the parameters: every custom constraint accepts,
    no custom constraint accepts, and an order in which no expression is below
    another. *)
Definition call_true : nat -> Substitution -> bool := fun _ _ => true.
Definition call_false : nat -> Substitution -> bool := fun _ _ => false.
Definition lt_none : Expression -> Expression -> bool := fun _ _ => false.

(** ** Properties *)

(** *** Symbols *)

(** C2 (as amended): with fuel for one call, [match] on a symbol pattern
    yields the incoming substitution, once and with the store untouched,
    exactly when the subjects are one symbol whose class is the pattern's
    class or derives from it, with the pattern's name, and the pattern's
    constraint (if any) accepts the substitution; otherwise it yields nothing
    and does not raise. *)
Theorem match_symbol_instance call expr_lt fuel expressions cls name constraint subst h :
  let accepted := from_option (fun c => holds call c (deref h subst)) true constraint = true in
  let cond := (∃ cls' c', expressions = [Symbol cls' name c'] ∧ issubclass cls' cls = true)
              ∧ accepted in
  (cond ∧ match_ call expr_lt (S fuel) expressions (Symbol cls name constraint) subst h
          = (([subst], None), h))
  ∨ (¬ cond ∧ match_ call expr_lt (S fuel) expressions (Symbol cls name constraint) subst h
              = (([], None), h)).
Proof.
  simpl.
  destruct expressions as [|e es];
    [right; split; [|done]; intros [(?&?&?&?) _]; done|].
  destruct e as [cls' name' c'| | |], es as [|e' es]; simpl;
    try (right; split; [|done]; intros [(?&?&?&?) _]; done).
  destruct (issubclass cls' cls) eqn:Hsub; simpl.
  - case_bool_decide as Hn; simpl.
    + subst name'. unfold yield_if_accepted, gen_do, accepts.
      destruct (from_option _ true constraint) eqn:Hacc.
      * left. split; [|done]. split; [|done]. eauto.
      * right. split; [|done]. intros [_ ?]; done.
    + right. split; [|done]. intros [(?&?&?&?) _]. simplify_eq.
  - right. split; [|done]. intros [(?&?&?&?) _]. simplify_eq. congruence.
Qed.

(** C2 (counterexample): a subject of the class [SpecialSymbol], which derives
    from [Symbol], is matched by a pattern of class [Symbol] with the same
    name, although the two are not of the same class. *)
Lemma match_symbol_not_exact_class :
  match_ call_true lt_none 1 [Symbol SpecialSymbolClass "a" None]
    (Symbol SymbolClass "a" None) 0 [∅] = (([0], None), [∅])
  ∧ SpecialSymbolClass ≠ SymbolClass.
Proof. split; [reflexivity | discriminate]. Qed.

(** *** Wildcards *)

(** C3: [match_wildcard] yields the incoming substitution, once and with the
    store untouched, exactly when (a) the wildcard has a fixed size, there are
    exactly [min_count] subjects, for a symbol wildcard the first subject is of
    the required class of symbols, and the constraint (if any) accepts the
    substitution, or (b) the wildcard has no fixed size, there are at least
    [min_count] subjects and the constraint (if any) accepts the substitution;
    otherwise it yields nothing and leaves the store as it is.  A sequence
    wildcard of [min_count] 0 accepts the empty list of subjects. *)
Theorem match_wildcard_arity call expressions min_count fixed_size symbol_type constraint
    subst h :
  let w := Wildcard min_count fixed_size symbol_type constraint in
  let accepted := from_option (fun c => holds call c (deref h subst)) true constraint = true in
  let cond :=
    (fixed_size = true ∧ List.length expressions = min_count
     ∧ (∀ ty, symbol_type = Some ty →
          ∃ e es, expressions = e :: es ∧ isinstance_Symbol e ty = true)
     ∧ accepted)
    ∨ (fixed_size = false ∧ min_count ≤ List.length expressions ∧ accepted) in
  ((cond ∧ match_wildcard call expressions w subst h = (([subst], None), h))
   ∨ (¬ cond ∧ (match_wildcard call expressions w subst h).1.1 = []
              ∧ (match_wildcard call expressions w subst h).2 = h))
  ∧ match_wildcard call [] (Wildcard 0 false symbol_type None) subst h = (([subst], None), h).
Proof.
  split; [|done]. simpl. unfold yield_if_accepted, gen_do, accepts.
  destruct fixed_size.
  - case_bool_decide as Hlen.
    + destruct symbol_type as [ty|].
      * destruct expressions as [|e es].
        { right. split; [|done]. intros [(_&_&Hty&_)|(?&_)]; [|done].
          destruct (Hty ty eq_refl) as (?&?&?&?); done. }
        destruct (isinstance_Symbol e ty) eqn:Hinst; simpl.
        -- destruct (from_option _ true constraint) eqn:Hacc.
           ++ left. split; [|done]. left. repeat split; try done.
              intros ty' [= <-]. eauto.
           ++ right. split; [|done]. intros [(_&_&_&?)|(?&_)]; done.
        -- right. split; [|done]. intros [(_&_&Hty&_)|(?&_)]; [|done].
           destruct (Hty ty eq_refl) as (?&?&?&?); simplify_eq. congruence.
      * destruct (from_option _ true constraint) eqn:Hacc.
        -- left. split; [|done]. left. repeat split; done.
        -- right. split; [|done]. intros [(_&_&_&?)|(?&_)]; done.
    + right. split; [|done]. intros [(_&?&_)|(?&_)]; done.
  - destruct (Nat.leb_spec min_count (List.length expressions)).
    + destruct (from_option _ true constraint) eqn:Hacc.
      * left. split; [|done]. right. done.
      * right. split; [|done]. intros [(?&_)|(_&_&?)]; done.
    + right. split; [|done]. intros [(?&_)|(_&?&_)]; [done|lia].
Qed.

(** C9: for a fixed-size symbol wildcard of [min_count] at least 2 and
    exactly [min_count] subjects, [match_wildcard] checks the class of the
    first subject and of no other: it yields the substitution, once, exactly
    when the first subject is of the required class of symbols and the
    constraint accepts, and nothing otherwise; the store stays as it is and
    nothing is raised.  The later subjects do not matter: replacing them by
    any others, of that class or not, gives the same result. *)
Theorem match_wildcard_checks_first_only call e es min_count ty constraint subst h :
  2 ≤ min_count →
  List.length (e :: es) = min_count →
  match_wildcard call (e :: es) (Wildcard min_count true (Some ty) constraint) subst h
  = ((if isinstance_Symbol e ty
         && from_option (fun c => holds call c (deref h subst)) true constraint
      then [subst] else [], None), h)
  ∧ (match_wildcard call (e :: es) (Wildcard min_count true (Some ty) constraint) subst h
     = (([subst], None), h)
     ↔ isinstance_Symbol e ty = true
       ∧ from_option (fun c => holds call c (deref h subst)) true constraint = true)
  ∧ ∀ es', List.length es' = List.length es →
      match_wildcard call (e :: es') (Wildcard min_count true (Some ty) constraint) subst h
      = match_wildcard call (e :: es) (Wildcard min_count true (Some ty) constraint) subst h.
Proof.
  intros _ Hlen.
  assert (∀ es', List.length es' = List.length es →
            match_wildcard call (e :: es') (Wildcard min_count true (Some ty) constraint)
              subst h
            = ((if isinstance_Symbol e ty
                   && from_option (fun c => holds call c (deref h subst)) true constraint
                then [subst] else [], None), h)) as Hfirst.
  { intros es' Hes'. unfold match_wildcard.
    rewrite bool_decide_true by (simpl in *; lia).
    unfold yield_if_accepted, gen_do, accepts.
    destruct (isinstance_Symbol e ty); [|done]. simpl.
    by destruct (from_option _ true constraint). }
  split_and!.
  - by apply Hfirst.
  - rewrite Hfirst by done.
    destruct (isinstance_Symbol e ty), (from_option _ true constraint); simpl;
      split; try done; intros [? ?]; done.
  - intros es' Hes'. rewrite (Hfirst es' Hes'). symmetry. by apply Hfirst.
Qed.

(** A witness for C9: the second subject is an operation, not a symbol, and
    the first, a symbol, decides. *)
Lemma match_wildcard_checks_first_only_witness :
  match_wildcard call_true [a_; op_ f_op [a_]] (Wildcard 2 true (Some SymbolClass) None) 0 [∅]
  = (([0], None), [∅]).
Proof.
  refine (proj1 (match_wildcard_checks_first_only call_true a_ [op_ f_op [a_]] 2 SymbolClass
                   None 0 [∅] _ _)).
  - lia.
  - reflexivity.
Defined.

(** *** Multisets *)

Section MultisetFacts.
Context {K : Type} `{EqDecision K}.
Implicit Types m : Multiset K.

Lemma ms_len_elements m : ms_len m = List.length (ms_elements m).
Proof.
  unfold ms_len, ms_elements. induction m as [|[k n] m IH]; [done|].
  cbn [fmap list_fmap sum_list flat_map snd fst].
  rewrite length_app, length_replicate. f_equal. exact IH.
Qed.

Lemma ms_elements_add_count k n m :
  ms_elements (ms_add_count k n m) ≡ₚ replicate n k ++ ms_elements m.
Proof.
  destruct n as [|n]; [by destruct m|].
  remember (S n) as n1 eqn:Hn1.
  induction m as [|[k' n'] m IH].
  - subst n1. unfold ms_elements. simpl. by rewrite app_nil_r.
  - assert (ms_add_count k n1 ((k', n') :: m)
            = if decide (k' = k) then (k', n' + n1) :: m
              else (k', n') :: ms_add_count k n1 m) as -> by (by subst n1).
    case_decide as Hk.
    + subst k'. unfold ms_elements. cbn [flat_map fst snd].
      rewrite replicate_add, !(assoc (++)). f_equiv. apply Permutation_app_comm.
    + unfold ms_elements in *. cbn [flat_map fst snd]. rewrite IH.
      rewrite !(assoc (++)). f_equiv. apply Permutation_app_comm.
Qed.

Lemma ms_len_add_count k n m : ms_len (ms_add_count k n m) = n + ms_len m.
Proof.
  rewrite !ms_len_elements, ms_elements_add_count, length_app, length_replicate. done.
Qed.
End MultisetFacts.

(** *** Classification of the operands of a commutative pattern *)

Lemma filter_in_bucket_snoc b es e :
  filter (in_bucket b) (es ++ [e])
  = filter (in_bucket b) es ++ (if in_bucket b e then [e] else []).
Proof.
  rewrite filter_app, filter_cons, filter_nil.
  destruct (in_bucket b e); by case_decide.
Qed.

Lemma in_bucket_of b e b' :
  bucket_of e = Some b' → in_bucket b e = bool_decide (b' = b).
Proof.
  intros Hb. unfold in_bucket. rewrite Hb. apply bool_decide_ext. naive_solver.
Qed.

(** What [classify] does with an operand, by the bucket of the operand. *)
Lemma classify_bucket self e p :
  classify self e = Ok p →
  CommutativePatternsParts.length p = CommutativePatternsParts.length self
  ∧ ∃ b, bucket_of e = Some b
    ∧ constant p = (if bool_decide (b = BConstant)
                    then ms_add_count e 1 (constant self) else constant self)
    ∧ syntactic p = (if bool_decide (b = BSyntactic)
                     then ms_add_count e 1 (syntactic self) else syntactic self)
    ∧ rest p = (if bool_decide (b = BRest)
                then ms_add_count e 1 (rest self) else rest self)
    ∧ (∀ name, variable_name e = Some name ∨ b ≠ BSequenceVariable ∧ b ≠ BFixedVariable →
         sequence_variables p
         = (if bool_decide (b = BSequenceVariable)
            then ms_add_count name 1 (sequence_variables self) else sequence_variables self)
         ∧ fixed_variables p
           = (if bool_decide (b = BFixedVariable)
              then ms_add_count name 1 (fixed_variables self) else fixed_variables self))
    ∧ (b = BSequenceVariable ∨ b = BFixedVariable → is_Some (variable_name e)).
Proof.
  unfold classify, bucket_of. destruct self. simpl.
  destruct (is_constant e) eqn:Hconst.
  { intros [= <-]. split; [done|]. exists BConstant. simpl. naive_solver. }
  case_bool_decide as Hhead.
  - destruct e as [| mc fs st wc | name inner c |]; try done.
    + intros [= <-]. split; [done|]. exists BUnnamedWildcard. simpl. naive_solver.
    + destruct inner as [| mc fs st wc | |]; try done.
      destruct fs; destruct (_update_var_info _ _ _ _); intros [= <-];
        (split; [done|]); eexists; (split; [done|]); simpl; naive_solver.
  - destruct (is_syntactic e); intros [= <-]; (split; [done|]);
      eexists; (split; [done|]); simpl; naive_solver.
Qed.

Lemma classify_classified self e p es :
  classify self e = Ok p → classified self es →
  classified p (es ++ [e])
  ∧ CommutativePatternsParts.length p = CommutativePatternsParts.length self.
Proof.
  intros (Hlen & b & Hb & Hc & Hs & Hr & Hv & Hname)%classify_bucket
    (Hcst & Hsyn & Hrst & Hsv & Hfv).
  split; [|done]. unfold classified.
  rewrite !filter_in_bucket_snoc, !omap_app, !(in_bucket_of _ _ _ Hb), Hc, Hs, Hr.
  assert (∀ (A : Type) (x : A) (l l' : list A), l ≡ₚ l' → x :: l ≡ₚ l' ++ [x]) as Hsnoc.
  { intros A x l l' ->. apply Permutation_cons_append. }
  destruct b; simpl; rewrite ?app_nil_r, ?ms_elements_add_count; simpl.
  1,2,5,6: destruct (Hv EmptyString) as [-> ->]; [by right|]; simpl;
    rewrite ?app_nil_r; auto 10.
  - destruct Hname as [name Hname]; [by left|]. destruct (Hv name) as [-> ->]; [by left|].
    simpl. rewrite Hname, ms_elements_add_count. simpl. auto 10.
  - destruct Hname as [name Hname]; [by right|]. destruct (Hv name) as [-> ->]; [by left|].
    simpl. rewrite Hname, ms_elements_add_count. simpl. auto 10.
Qed.

Lemma classify_all_classified es : ∀ self p es0,
  classify_all self es = Ok p → classified self es0 →
  classified p (es0 ++ es)
  ∧ CommutativePatternsParts.length p = CommutativePatternsParts.length self.
Proof.
  induction es as [|e es IH]; simpl; intros self p es0 Hc Hcl.
  - simplify_eq. by rewrite app_nil_r.
  - destruct (classify self e) as [self'|] eqn:Hstep; [|done].
    destruct (classify_classified _ _ _ _ Hstep Hcl) as [Hcl' Hlen'].
    destruct (IH _ _ _ Hc Hcl') as [? ?]. rewrite <- (assoc (++)) in *.
    split; [done|congruence].
Qed.

Lemma classify_all_buckets es : ∀ self p,
  classify_all self es = Ok p → ∀ e, e ∈ es → is_Some (bucket_of e).
Proof.
  induction es as [|e es IH]; simpl; intros self p Hc e' He'; [by apply elem_of_nil in He'|].
  destruct (classify self e) as [self'|] eqn:Hstep; [|done].
  apply elem_of_cons in He' as [->|He']; [|by eapply IH].
  apply classify_bucket in Hstep as (_ & b & Hb & _). by exists b.
Qed.

(** Every operand has exactly one bucket or none. *)
Lemma length_buckets es :
  (∀ e, e ∈ es → is_Some (bucket_of e)) →
  List.length (filter (in_bucket BConstant) es) + List.length (filter (in_bucket BSyntactic) es)
  + List.length (filter (in_bucket BRest) es)
  + List.length (filter (in_bucket BSequenceVariable) es)
  + List.length (filter (in_bucket BFixedVariable) es)
  + List.length (filter (in_bucket BUnnamedWildcard) es) = List.length es.
Proof.
  induction es as [|e es IH]; [done|]. intros Hall.
  specialize (IH (λ e' He', Hall e' (list_elem_of_further _ _ _ He'))).
  destruct (Hall e) as [b Hb]; [by left|].
  rewrite !filter_cons, !(in_bucket_of _ _ _ Hb).
  destruct b; simpl; lia.
Qed.

Lemma classify_scalars self e p :
  classify self e = Ok p →
  ∃ b, bucket_of e = Some b
    ∧ sequence_variable_min_length p
      = sequence_variable_min_length self
        + (if bool_decide (b = BSequenceVariable) then slot_min e else 0)
    ∧ fixed_variable_length p
      = fixed_variable_length self + (if bool_decide (b = BFixedVariable) then slot_min e else 0)
    ∧ wildcard_min_length p
      = wildcard_min_length self + (if bool_decide (b = BUnnamedWildcard) then slot_min e else 0)
    ∧ wildcard_fixed p
      = (if bool_decide (b = BUnnamedWildcard)
         then Some (default true (wildcard_fixed self) && fixed_size_of e)
         else wildcard_fixed self).
Proof.
  unfold classify, bucket_of. destruct self. simpl.
  destruct (is_constant e) eqn:Hconst.
  { intros [= <-]. exists BConstant. simpl. split_and!; try done; lia. }
  case_bool_decide as Hhead.
  - destruct e as [| mc fs st wc | name inner c |]; try done.
    + intros [= <-]. exists BUnnamedWildcard. simpl. split_and!; try done; try lia.
      by destruct wildcard_fixed0.
    + destruct inner as [| mc fs st wc | |]; try done.
      destruct fs; destruct (_update_var_info _ _ _ _); intros [= <-];
        eexists; (split; [done|]); simpl; split_and!; try done; lia.
  - destruct (is_syntactic e); intros [= <-];
      eexists; (split; [done|]); simpl; split_and!; try done; lia.
Qed.

Lemma sum_list_snoc l (n : nat) : sum_list (l ++ [n]) = sum_list l + n.
Proof. rewrite sum_list_with_app. simpl. lia. Qed.

Lemma classify_summed self e p es :
  classify self e = Ok p → summed self es → summed p (es ++ [e]).
Proof.
  intros (b & Hb & Hsv & Hfv & Hw & Hwf)%classify_scalars (Hs1 & Hs2 & Hs3 & Hs4).
  unfold summed.
  rewrite !filter_in_bucket_snoc, !(in_bucket_of _ _ _ Hb), Hsv, Hfv, Hw, Hwf, Hs1, Hs2,
    Hs3, Hs4.
  assert (∀ l, sum_list (slot_min <$> l ++ [e]) = sum_list (slot_min <$> l) + slot_min e)
    as Hsnoc by (intros l; rewrite fmap_app, sum_list_with_app; simpl; unfold id; lia).
  split_and!.
  - destruct (decide (b = BSequenceVariable)) as [->|];
      [rewrite !bool_decide_eq_true_2 by done; by rewrite Hsnoc|].
    rewrite !bool_decide_eq_false_2 by done. rewrite app_nil_r. lia.
  - destruct (decide (b = BFixedVariable)) as [->|];
      [rewrite !bool_decide_eq_true_2 by done; by rewrite Hsnoc|].
    rewrite !bool_decide_eq_false_2 by done. rewrite app_nil_r. lia.
  - destruct (decide (b = BUnnamedWildcard)) as [->|];
      [rewrite !bool_decide_eq_true_2 by done; by rewrite Hsnoc|].
    rewrite !bool_decide_eq_false_2 by done. rewrite app_nil_r. lia.
  - destruct (decide (b = BUnnamedWildcard)) as [->|].
    + rewrite (bool_decide_eq_true_2 (BUnnamedWildcard = BUnnamedWildcard)) by done.
      rewrite (bool_decide_eq_false_2 (_ ++ [e] = [])) by (by intros [? ?]%app_eq_nil).
      f_equal. rewrite forallb_app. simpl. rewrite andb_true_r.
      by case_bool_decide as Hnil; [rewrite Hnil|].
    + rewrite !(bool_decide_eq_false_2 (b = BUnnamedWildcard)) by done.
      by rewrite app_nil_r.
Qed.

Lemma classify_all_summed es : ∀ self p es0,
  classify_all self es = Ok p → summed self es0 → summed p (es0 ++ es).
Proof.
  induction es as [|e es IH]; intros self p es0; simpl.
  - intros [= <-]. by rewrite app_nil_r.
  - destruct (classify self e) as [self'|] eqn:Hc; [|done].
    intros Hall Hs. rewrite (assoc_L (++) es0 [e] es : es0 ++ e :: es = (es0 ++ [e]) ++ es).
    eapply IH; [done|]. by eapply classify_summed.
Qed.

(** C6: when the construction of [CommutativePatternsParts] succeeds, every
    operand has exactly one bucket and sits in it: the multisets [constant],
    [syntactic] and [rest] hold the operands of their buckets,
    [sequence_variables] and [fixed_variables] the names of the operands of
    theirs, and the cardinalities of the five multisets plus the number of
    unnamed wildcards add up to the stored [length], the number of operands.
    The unnamed wildcards, which have no multiset, are tallied in
    [wildcard_min_length], the sum of their [min_count]s, and in
    [wildcard_fixed], which is [None] exactly when there is none and
    otherwise tells whether all of them have a fixed size; the two other
    lengths are the sums of the [min_count]s of the variables of their
    buckets. *)
Theorem parts_classification_invariant op expressions p :
  CommutativePatternsParts.__init__ op expressions = Ok p →
  (∀ e, e ∈ expressions → ∃ b, bucket_of e = Some b)
  ∧ classified p expressions
  ∧ CommutativePatternsParts.length p = List.length expressions
  ∧ ms_len (constant p) + ms_len (syntactic p) + ms_len (rest p)
    + ms_len (sequence_variables p) + ms_len (fixed_variables p)
    + List.length (filter (in_bucket BUnnamedWildcard) expressions)
    = CommutativePatternsParts.length p
  ∧ sequence_variable_min_length p
    = sum_list (slot_min <$> filter (in_bucket BSequenceVariable) expressions)
  ∧ fixed_variable_length p
    = sum_list (slot_min <$> filter (in_bucket BFixedVariable) expressions)
  ∧ wildcard_min_length p
    = sum_list (slot_min <$> filter (in_bucket BUnnamedWildcard) expressions)
  ∧ wildcard_fixed p
    = (if bool_decide (filter (in_bucket BUnnamedWildcard) expressions = []) then None
       else Some (forallb fixed_size_of (filter (in_bucket BUnnamedWildcard) expressions))).
Proof.
  unfold CommutativePatternsParts.__init__. intros Hinit.
  pose proof (classify_all_buckets _ _ _ Hinit) as Hall.
  destruct (classify_all_classified _ _ _ [] Hinit) as [Hcl Hlen].
  { by repeat split. }
  pose proof (classify_all_summed expressions _ p [] Hinit) as Hsum.
  simpl in Hcl, Hlen, Hsum.
  destruct Hsum as (Hs1 & Hs2 & Hs3 & Hs4); [by split_and!|].
  split_and!; [done..| |done|done|done|done].
  destruct Hcl as (Hc & Hs & Hr & Hsv & Hfv).
  rewrite Hlen, <- (length_buckets expressions Hall), !ms_len_elements.
  rewrite Hc, Hs, Hr, Hsv, Hfv.
  assert (∀ b, b = BSequenceVariable ∨ b = BFixedVariable →
            List.length (omap variable_name (filter (in_bucket b) expressions))
            = List.length (filter (in_bucket b) expressions)) as Hnames.
  { intros b Hb. clear -Hb. induction expressions as [|e es IH]; [done|].
    rewrite filter_cons. case_decide as He; [|done]. simpl.
    unfold in_bucket in He. apply bool_decide_unpack in He.
    unfold bucket_of in He. destruct e as [| | name inner c|]; repeat case_match; naive_solver. }
  rewrite !Hnames by auto. done.
Qed.

(** A witness for C6: the operands [a], [x_], [x__] and two unnamed
    wildcards, of which one is a sequence wildcard. *)
Lemma parts_classification_invariant_witness :
  ∃ p, CommutativePatternsParts.__init__ f_op
         [a_; x_; x__; Wildcard 2 false None None; Wildcard 1 true None None] = Ok p
       ∧ ms_len (constant p) + ms_len (syntactic p) + ms_len (rest p)
         + ms_len (sequence_variables p) + ms_len (fixed_variables p)
         + 2 = CommutativePatternsParts.length p
       ∧ sequence_variable_min_length p = 1
       ∧ fixed_variable_length p = 1
       ∧ wildcard_min_length p = 3
       ∧ wildcard_fixed p = Some false.
Proof.
  eexists. split; [reflexivity|].
  exact (proj2 (proj2 (proj2
    (parts_classification_invariant f_op
       [a_; x_; x__; Wildcard 2 false None None; Wildcard 1 true None None] _ eq_refl)))).
Defined.

(** The constraint made by [MultiConstraint.create] from an old and a new
    constraint holds exactly when both hold. *)
Lemma MultiConstraint_create_conjunction call (old : option Constraint) (c : Constraint) s :
  from_option (fun c' => holds call c' s) true (MultiConstraint_create [old; Some c])
  = from_option (fun c' => holds call c' s) true old && holds call c s.
Proof. destruct old; simpl; [|done]. by rewrite andb_true_r. Qed.



(** *** The non-commutative matcher *)

Lemma build_full_partition_loop_slot part expressions op operand m st wc post :
  associative op = true →
  unwrap_variable operand = Wildcard m true st wc →
  ∀ pre i0 vi0 result,
    _build_full_partition_loop part expressions op (pre ++ operand :: post) i0 vi0 = Ok result →
    ∃ i vi extra,
      partition_state part true pre i0 vi0 = Ok (i, vi)
      ∧ part !! vi = Some extra
      ∧ result !! List.length pre
        = Some (let absorbed := take (m + extra) (drop i expressions) in
                if decide (1 ≤ m ∧ m < List.length absorbed)
                then take (m - 1) absorbed ++ [from_args op (drop (m - 1) absorbed)]
                else absorbed).
Proof.
  intros Hassoc Hw. induction pre as [|o pre IH]; intros i0 vi0 result; simpl.
  - unfold slot_count. rewrite Hw, Hassoc. simpl.
    destruct (part !! vi0) as [extra|] eqn:Hextra; [|done].
    destruct (_build_full_partition_loop _ _ _ _ _ _); [|done].
    intros [= <-]. exists i0, vi0, extra. split_and!; [done..|]. simpl. f_equal.
    unfold wrap_operands. case_decide as Hd.
    + destruct Hd as [H1 H2].
      rewrite (proj2 (Nat.ltb_lt 0 m)) by lia.
      by rewrite (proj2 (Nat.ltb_lt _ _) H2).
    + destruct (Nat.ltb_spec 0 m); simpl; [|done].
      destruct (Nat.ltb_spec m (List.length (take (m + extra) (drop i0 expressions))));
        [|done]. lia.
  - rewrite Hassoc.
    destruct (slot_count part true o vi0) as [[[count vi'] wrap]|]; [|done].
    destruct (_build_full_partition_loop _ _ _ _ _ _) as [result'|] eqn:Hloop; [|done].
    intros [= <-].
    destruct (IH _ _ _ Hloop) as (i & vi & extra & ? & ? & ?). eauto 10.
Qed.

Lemma integer_partition_vector_iter_length parts : ∀ total part,
  part ∈ integer_partition_vector_iter total parts → List.length part = parts.
Proof.
  induction parts as [|parts IH]; intros total part; cbn [integer_partition_vector_iter].
  - case_decide; [|by intros ?%elem_of_nil]. by intros ->%list_elem_of_singleton.
  - rewrite list_elem_of_In, in_flat_map.
    intros (i & _ & Hin). apply list_elem_of_In, list_elem_of_fmap in Hin as (p & -> & Hp).
    simpl. f_equal. by eapply IH.
Qed.

Lemma count_seq_vars_loop_mono assoc operands : ∀ state state',
  _count_seq_vars_loop assoc operands state = Ok state' → state.2 ≤ state'.2.
Proof.
  induction operands as [|o operands IH]; intros [rem cnt] state'; simpl.
  - by intros [= <-].
  - destruct (unwrap_variable o) as [| mc fs st wc | |].
    1,3,4: destruct (rem <? 1); [done|]; intros Hloop; exact (IH _ _ Hloop).
    destruct (rem <? mc); [done|]. intros Hloop%IH. simpl in *.
    destruct (negb fs || assoc); lia.
Qed.

(** [_build_full_partition] finds an entry of the distribution for every slot
    that [_count_seq_vars] counted. *)
Lemma build_full_partition_loop_total part expressions op operands :
  ∀ state state' i vi,
    _count_seq_vars_loop (associative op) operands state = Ok state' →
    vi + (state'.2 - state.2) ≤ List.length part →
    ∃ result, _build_full_partition_loop part expressions op operands i vi = Ok result.
Proof.
  induction operands as [|o operands IH]; intros [rem cnt] state' i vi; simpl.
  - intros [= <-] _. eauto.
  - unfold _count_seq_vars_step, slot_count.
    destruct (unwrap_variable o) as [| mc fs st wc | |].
    1,3,4: destruct (rem <? 1); [done|]; intros Hloop Hlen;
      destruct (IH _ _ (i + 1) vi Hloop) as [result ->]; [exact Hlen|]; eauto.
    destruct (rem <? mc); [done|]. intros Hloop Hlen.
    pose proof (count_seq_vars_loop_mono _ _ _ _ Hloop) as Hmono.
    destruct (negb fs || associative op); simpl in *.
    + destruct (lookup_lt_is_Some_2 part vi) as [extra ->]; [lia|].
      destruct (IH _ _ (i + (mc + extra)) (S vi) Hloop) as [result ->]; [simpl; lia|].
      eauto.
    + destruct (IH _ _ (i + mc) vi Hloop) as [result ->]; [exact Hlen|]. eauto.
Qed.

(** C5: in a pattern with an associative operator, take a slot that is a
    fixed-size wildcard of [min_count] [m] (bare or wrapped in a variable), and
    a distribution of the surplus operands as [_non_commutative_match] makes
    them.  The slot absorbs the next [m] operands and the extra ones the
    distribution gives it.  When [m >= 1] and it absorbed more than [m]
    operands, its subject list is the first [m - 1] absorbed operands followed
    by one operation, built by [from_args] of the pattern's operator, that
    holds the remaining ones; in all other cases, and so whenever [m = 0], the
    subject list is the absorbed operands as they are. *)
Theorem build_full_partition_rewrap part expressions op pre operand post c m st wc
    remaining sequence_var_count :
  let operation := Operation op (pre ++ operand :: post) c in
  associative op = true →
  unwrap_variable operand = Wildcard m true st wc →
  _count_seq_vars expressions operation = Ok (remaining, sequence_var_count) →
  part ∈ integer_partition_vector_iter remaining sequence_var_count →
  ∃ result i vi extra,
    _build_full_partition part expressions operation = Ok result
    ∧ partition_state part true pre 0 0 = Ok (i, vi)
    ∧ part !! vi = Some extra
    ∧ result !! List.length pre
      = Some (let absorbed := take (m + extra) (drop i expressions) in
              if decide (1 ≤ m ∧ m < List.length absorbed)
              then take (m - 1) absorbed ++ [from_args op (drop (m - 1) absorbed)]
              else absorbed).
Proof.
  intros operation Hassoc Hw Hcount Hpart. simpl in Hcount.
  apply integer_partition_vector_iter_length in Hpart.
  destruct (build_full_partition_loop_total part expressions op _ _ _ 0 0 Hcount)
    as [result Hres]; [simpl; lia|].
  exists result.
  destruct (build_full_partition_loop_slot part expressions op operand m st wc post
              Hassoc Hw pre 0 0 result Hres) as (i & vi & extra & ?).
  by exists i, vi, extra.
Qed.

(** A witness for C5: the pattern [g(a, x_, b)] with [g] associative and the
    subjects [a, c, d, b]; the slot of [x_] takes one extra operand and gets
    the single subject [g(c, d)]. *)
Lemma build_full_partition_rewrap_witness :
  ∃ result,
    _build_full_partition [1] [a_; c_; d_; b_] (op_ g_op [a_; x_; b_]) = Ok result
    ∧ result !! 1 = Some [from_args g_op [c_; d_]].
Proof.
  destruct (build_full_partition_rewrap [1] [a_; c_; d_; b_] g_op [a_] x_ [b_] None
              1 None None 1 1 eq_refl eq_refl eq_refl)
    as (result & i & vi & extra & Hb & Hst & Hex & Hres).
  { vm_compute. set_solver. }
  exists result. split; [exact Hb|].
  simpl in Hst. injection Hst as <- <-. simpl in Hex. injection Hex as <-.
  exact Hres.
Defined.

(** *** Generators that only add objects to the store *)

Lemma gen_stop_extends {A} : gen_extends (@gen_stop A).
Proof. by intros h. Qed.

Lemma gen_yield_extends {A} (x : A) : gen_extends (gen_yield x).
Proof. by intros h. Qed.

Lemma gen_raise_extends {A} e : gen_extends (@gen_raise A e).
Proof. by intros h. Qed.

Lemma gen_seq_extends {A} (g1 g2 : Gen A) :
  gen_extends g1 → gen_extends g2 → gen_extends (gen_seq g1 g2).
Proof.
  intros H1 H2 h. unfold gen_seq. specialize (H1 h).
  destruct (g1 h) as [[xs [e|]] h1]; [done|]. specialize (H2 h1).
  destruct (g2 h1) as [[ys e] h2]. simpl in *. by etrans.
Qed.

Lemma gen_each_extends {A B} (xs : list A) (body : A → Gen B) :
  (∀ x, x ∈ xs → gen_extends (body x)) → gen_extends (gen_each xs body).
Proof.
  induction xs as [|x xs IH]; intros Hbody; simpl; [apply gen_stop_extends|].
  apply gen_seq_extends; [apply Hbody; by left|].
  apply IH. intros y Hy. apply Hbody. by right.
Qed.

Lemma gen_for_extends {A B} (g : Gen A) (body : A → Gen B) :
  gen_extends g → (∀ x, gen_extends (body x)) → gen_extends (gen_for g body).
Proof.
  intros Hg Hbody h. unfold gen_for. specialize (Hg h).
  destruct (g h) as [[xs e] h1].
  pose proof (gen_each_extends xs body (λ x _, Hbody x) h1) as He.
  destruct (gen_each xs body h1) as [[ys [e'|]] h2]; simpl in *; by etrans.
Qed.

Lemma gen_do_extends {A B} (c : Comp A) (k : A → Gen B) :
  comp_extends c → (∀ a, gen_extends (k a)) → gen_extends (gen_do c k).
Proof.
  intros Hc Hk h. unfold gen_do. specialize (Hc h).
  destruct (c h) as [[a|e] h1]; simpl in *; [|done].
  etrans; [done|]. apply Hk.
Qed.

Lemma gen_except_ValueError_extends {A} (g : Gen A) :
  gen_extends g → gen_extends (gen_except_ValueError g).
Proof.
  intros Hg h. unfold gen_except_ValueError. specialize (Hg h).
  destruct (g h) as [[xs [[]|]] h1]; done.
Qed.

Lemma iterator_chain_extends {A} (factories : list (A → Gen A)) : ∀ initial,
  (∀ f s, f ∈ factories → gen_extends (f s)) →
  gen_extends (iterator_chain initial factories).
Proof.
  induction factories as [|f fs IH]; intros initial Hf; simpl.
  - apply gen_yield_extends.
  - apply gen_for_extends; [apply Hf; by left|].
    intros s. apply IH. intros f' s' Hf'. apply Hf. by right.
Qed.

Lemma load_extends r : comp_extends (load r).
Proof. by intros h. Qed.

Lemma accepts_extends call c r : comp_extends (accepts call c r).
Proof. by intros h. Qed.

Lemma Substitution_copy_extends r : comp_extends (Substitution_copy r).
Proof. intros h. by apply prefix_app_r. Qed.

Lemma Substitution_new_extends s : comp_extends (Substitution_new s).
Proof. intros h. by apply prefix_app_r. Qed.

Lemma union_extends r other : comp_extends (union r other).
Proof. intros h. unfold union. case_bool_decide; [by apply prefix_app_r|done]. Qed.

Lemma yield_if_accepted_extends {A} call c r (x : A) :
  gen_extends (yield_if_accepted call c r x).
Proof.
  apply gen_do_extends; [apply accepts_extends|].
  intros []; [apply gen_yield_extends|apply gen_stop_extends].
Qed.

(** Writing to the object that was allocated last changes that object only. *)
Lemma setitem_last h s name v :
  setitem (List.length h) name v (h ++ [s]) = (Ok (), h ++ [<[name := v]> s]).
Proof.
  unfold setitem, deref. rewrite lookup_app_r, Nat.sub_diag by done. simpl.
  f_equal. rewrite insert_app_r_alt, Nat.sub_diag by done. done.
Qed.

(** A binding made on a fresh copy adds one object to the store. *)
Lemma copy_setitem_extends {A} r name v (k : ref → Gen A) :
  (∀ r', gen_extends (k r')) →
  gen_extends (gen_do (Substitution_copy r)
                 (fun r' => gen_do (setitem r' name v) (fun _ => k r'))).
Proof.
  intros Hk h. unfold gen_do at 1. unfold Substitution_copy.
  unfold gen_do. rewrite setitem_last.
  etrans; [|apply Hk]. by apply prefix_app_r.
Qed.

(** *** The matchers only add objects to the store *)

Lemma match_wildcard_store call expressions wildcard subst h :
  (match_wildcard call expressions wildcard subst h).2 = h
  ∧ ∀ r, r ∈ (match_wildcard call expressions wildcard subst h).1.1 → r = subst.
Proof.
  unfold match_wildcard, yield_if_accepted, gen_do, accepts.
  repeat case_match; simpl; split; try done;
    intros r Hr; set_solver.
Qed.

Lemma match_wildcard_extends call expressions wildcard subst :
  gen_extends (match_wildcard call expressions wildcard subst).
Proof. intros h. by rewrite (proj1 (match_wildcard_store _ _ _ _ _)). Qed.

Lemma match_variable_extends call expressions variable subst matcher :
  matcher_extends matcher →
  gen_extends (match_variable call expressions variable subst matcher).
Proof.
  intros Hm. unfold match_variable.
  destruct variable as [| | name inner c|]; try apply gen_raise_extends.
  apply gen_do_extends; [apply load_extends|]. intros s.
  destruct (s !! name).
  - case_bool_decide; [apply yield_if_accepted_extends|apply gen_stop_extends].
  - apply gen_for_extends; [apply Hm|]. intros r.
    apply (copy_setitem_extends r name _ (λ r', yield_if_accepted call c r' r')).
    intros r'. apply yield_if_accepted_extends.
Qed.

Lemma _non_commutative_match_extends expressions operation subst matcher :
  matcher_extends matcher →
  gen_extends (_non_commutative_match expressions operation subst matcher).
Proof.
  intros Hm. unfold _non_commutative_match.
  destruct (_count_seq_vars expressions operation) as [[remaining n]|[]];
    try apply gen_raise_extends; try apply gen_stop_extends.
  apply gen_each_extends. intros part _.
  destruct (_build_full_partition part expressions operation); [|apply gen_raise_extends].
  apply gen_for_extends; [|intros; apply gen_yield_extends].
  apply iterator_chain_extends. intros f s Hf.
  apply list_elem_of_lookup in Hf as [i Hf].
  apply lookup_zip_with_Some in Hf as (es & o & -> & _ & _).
  apply gen_for_extends; [apply Hm|intros; apply gen_yield_extends].
Qed.

Lemma _fixed_expr_factory_extends call expression matcher state :
  matcher_extends matcher →
  gen_extends (_fixed_expr_factory call expression matcher state).
Proof.
  intros Hm. destruct state as [expressions substitution]. simpl.
  apply gen_each_extends. intros expr _.
  case_bool_decide; [|apply gen_stop_extends].
  apply gen_for_extends; [apply Hm|]. intros r. apply yield_if_accepted_extends.
Qed.

Lemma bind_fixed_extends call variable constraint substitution value rest :
  gen_extends (bind_fixed call variable constraint substitution value rest).
Proof.
  destruct variable as [name|]; simpl; [|apply gen_yield_extends].
  apply (copy_setitem_extends substitution name value
           (λ r', yield_if_accepted call constraint r' (rest, r'))).
  intros r'. apply yield_if_accepted_extends.
Qed.

Lemma _fixed_var_iter_factory_extends call variable count length constraint state :
  gen_extends (_fixed_var_iter_factory call variable count length constraint state).
Proof.
  destruct state as [expressions substitution]. simpl.
  apply gen_do_extends; [apply load_extends|]. intros s.
  destruct (lookup_name s variable).
  - case_match; [apply gen_stop_extends|apply yield_if_accepted_extends].
  - case_bool_decide.
    + apply gen_each_extends. intros [expr expr_count] _.
      case_match; [apply bind_fixed_extends|apply gen_stop_extends].
    + case_match; [apply gen_raise_extends|].
      apply gen_each_extends. intros subset _. apply bind_fixed_extends.
Qed.

(** The re-wrapping loop writes to the object it is given only; here that is
    the object allocated last. *)
Lemma rewrap_fixed_last op infos names : ∀ h s,
  ∃ res s', rewrap_fixed op infos (List.length h) names (h ++ [s]) = (res, h ++ [s']).
Proof.
  induction names as [|v names IH]; intros h s; simpl; [by eexists _, _|].
  destruct (infos !! Some v) as [info|]; [|by eexists _, _].
  unfold comp_bind at 1. unfold load. unfold deref at 1.
  rewrite lookup_app_r, Nat.sub_diag by done. simpl.
  destruct (s !! v) as [[e|value|value]|]; try by eexists _, _.
  all: unfold comp_bind; repeat case_match; simplify_eq;
    try (by eexists _, _);
    try (rewrite setitem_last in *; simplify_eq; apply IH);
    try (unfold comp_ret in *; simplify_eq; apply IH);
    try (unfold comp_raise in *; simplify_eq; by eexists _, _).
Qed.

Lemma fixed_var_factories_extends call infos items : ∀ fs,
  fixed_var_factories call infos items = Ok fs →
  ∀ f s, f ∈ fs → gen_extends (f s).
Proof.
  induction items as [|[name count] items IH]; intros fs; simpl.
  - intros [= <-] f s Hf. by apply elem_of_nil in Hf.
  - destruct (infos !! Some name) as [info|]; [|done].
    destruct (fixed_var_factories call infos items) as [fs'|]; [|done]. simpl.
    intros [= <-] f s [->|Hf]%elem_of_cons; [|by eapply IH].
    apply _fixed_var_iter_factory_extends.
Qed.

(** An object that is allocated and then updated in place by a loop that
    writes to it only is one more object of the store. *)
Lemma new_update_extends {A} s0 (update : ref → Comp unit) (k : ref → Gen A) :
  (∀ h s, ∃ res s', update (List.length h) (h ++ [s]) = (res, h ++ [s'])) →
  (∀ r, gen_extends (k r)) →
  gen_extends (gen_do (Substitution_new s0) (fun r => gen_do (update r) (fun _ => k r))).
Proof.
  intros Hu Hk h. unfold gen_do at 1. unfold Substitution_new.
  unfold gen_do. destruct (Hu h s0) as (res & s' & ->).
  destruct res; simpl; [|by apply prefix_app_r].
  etrans; [|apply Hk]. by apply prefix_app_r.
Qed.

Lemma _matches_from_matching_extends call expr_lt subst remaining pattern matcher
    include_syntactic :
  matcher_extends matcher →
  gen_extends (_matches_from_matching call expr_lt subst remaining pattern matcher
                 include_syntactic).
Proof.
  intros Hm. unfold _matches_from_matching.
  case_match; [apply gen_stop_extends|].
  apply gen_do_extends; [apply load_extends|]. intros s0.
  destruct (consume_bound _ _ _ _ _) as [[remaining' fixed_vars]|]; [|apply gen_stop_extends].
  match goal with |- gen_extends (match ?r with _ => _ end) => destruct r as [factories|] eqn:Hf end;
    [|apply gen_raise_extends].
  apply gen_for_extends.
  - apply iterator_chain_extends. intros f s Hin.
    assert (∀ e, gen_extends (_fixed_expr_factory call e matcher s)) as Hfe
      by (intros; by apply _fixed_expr_factory_extends).
    destruct (negb (associative (operation pattern))).
    + destruct (fixed_var_factories _ _ _) as [fs|] eqn:Hfs; [|done]. simpl in Hf.
      injection Hf as <-.
      apply elem_of_app in Hin as [Hin|Hin].
      { apply list_elem_of_fmap in Hin as (e & -> & _). apply Hfe. }
      apply elem_of_app in Hin as [Hin|Hin].
      { by eapply fixed_var_factories_extends. }
      case_bool_decide; [|by apply elem_of_nil in Hin].
      apply list_elem_of_singleton in Hin as ->. apply _fixed_var_iter_factory_extends.
    + injection Hf as <-. apply list_elem_of_fmap in Hin as (e & -> & _). apply Hfe.
  - intros [rem_expr subst'].
    destruct (sequence_slots pattern fixed_vars) as [[sequence_vars combined]|];
      [|apply gen_raise_extends].
    apply gen_each_extends. intros sequence_subst _.
    apply (new_update_extends _
             (λ r, if associative (operation pattern)
                   then rewrap_fixed (operation pattern) (fixed_variable_infos pattern) r
                          (ms_keys fixed_vars)
                   else comp_ret ())
             (λ r, gen_except_ValueError
                     (gen_do (union r subst')
                        (λ result, yield_if_accepted call combined result result)))).
    + intros h s. destruct (associative (operation pattern)); [apply rewrap_fixed_last|].
      by eexists _, _.
    + intros r. apply gen_except_ValueError_extends.
      apply gen_do_extends; [apply union_extends|]. intros r'. apply yield_if_accepted_extends.
Qed.

Lemma match_commutative_operation_extends call expr_lt operands pattern substitution matcher :
  matcher_extends matcher →
  gen_extends (match_commutative_operation call expr_lt operands pattern substitution matcher
                 None).
Proof.
  intros Hm. unfold match_commutative_operation.
  case_match; [apply gen_raise_extends|].
  case_match; [apply gen_stop_extends|].
  by apply _matches_from_matching_extends.
Qed.

Lemma match_operation_extends call expr_lt expressions operation subst matcher :
  matcher_extends matcher →
  gen_extends (match_operation call expr_lt expressions operation subst matcher).
Proof.
  intros Hm. unfold match_operation.
  destruct operation as [| | |op operands c]; try apply gen_raise_extends.
  case_bool_decide.
  { case_bool_decide; [apply gen_yield_extends|apply gen_stop_extends]. }
  destruct (negb (commutative op)); [by apply _non_commutative_match_extends|].
  destruct (CommutativePatternsParts.__init__ op operands); [|apply gen_raise_extends].
  by apply match_commutative_operation_extends.
Qed.

Lemma match_extends call expr_lt fuel : matcher_extends (match_ call expr_lt fuel).
Proof.
  induction fuel as [|fuel IH]; intros expressions pattern subst; simpl.
  - apply gen_raise_extends.
  - destruct pattern as [cls name c|mc fs st c|name inner c|op operands c].
    + repeat case_match; try apply gen_stop_extends; apply yield_if_accepted_extends.
    + apply match_wildcard_extends.
    + by apply match_variable_extends.
    + repeat case_match; try apply gen_stop_extends.
      apply gen_for_extends; [by apply match_operation_extends|].
      intros r. apply yield_if_accepted_extends.
Qed.

(** C10: [match] never changes the substitution it is given, nor any other
    object that exists when it is called: the store after the enumeration
    starts with the store before it, so that the incoming substitution maps
    the same names to the same values.  [match_wildcard], and [match_variable]
    when the name is bound already, leave the store as it is and yield nothing
    but the incoming substitution; [match_variable] for an unbound name and
    the factories of the fixed variables bind on a fresh copy, so they too
    only add objects to the store. *)
Theorem match_never_mutates_incoming_substitution call expr_lt fuel expressions pattern
    subst h :
  subst < List.length h →
  (h `prefix_of` (match_ call expr_lt fuel expressions pattern subst h).2
   ∧ deref (match_ call expr_lt fuel expressions pattern subst h).2 subst = deref h subst)
  ∧ (∀ wildcard,
       (match_wildcard call expressions wildcard subst h).2 = h
       ∧ ∀ r, r ∈ (match_wildcard call expressions wildcard subst h).1.1 → r = subst)
  ∧ (∀ name inner c matcher,
       is_Some (deref h subst !! name) →
       (match_variable call expressions (Variable_ name inner c) subst matcher h).2 = h
       ∧ ∀ r, r ∈ (match_variable call expressions (Variable_ name inner c) subst matcher
                     h).1.1 → r = subst)
  ∧ (∀ variable matcher,
       matcher_extends matcher →
       gen_extends (match_variable call expressions variable subst matcher))
  ∧ (∀ variable count length constraint state,
       gen_extends (_fixed_var_iter_factory call variable count length constraint state)).
Proof.
  intros Hsubst. split_and!.
  - apply match_extends.
  - destruct (match_extends call expr_lt fuel expressions pattern subst h) as [k ->].
    unfold deref. by rewrite lookup_app_l.
  - intros wildcard. apply match_wildcard_store.
  - intros name inner c matcher [v Hv]. unfold match_variable, gen_do, load.
    rewrite Hv. unfold yield_if_accepted, gen_do, accepts.
    repeat case_match; simpl; split; try done; intros r Hr; set_solver.
  - intros. by apply match_variable_extends.
  - intros. apply _fixed_var_iter_factory_extends.
Qed.

(** A witness for C10: [x_] matched against [a] binds [x] in a new object and
    leaves the incoming, empty substitution empty. *)
Lemma match_never_mutates_incoming_substitution_witness :
  (match_ call_true lt_none 2 [a_] x_ 0 [∅]).1 = ([1], None)
  ∧ deref (match_ call_true lt_none 2 [a_] x_ 0 [∅]).2 1 = {["x" := VExpr a_]}
  ∧ deref (match_ call_true lt_none 2 [a_] x_ 0 [∅]).2 0 = ∅.
Proof.
  split; [reflexivity|]. split; [reflexivity|].
  refine (proj2 (proj1 (match_never_mutates_incoming_substitution call_true lt_none 2
                          [a_] x_ 0 [∅] _))).
  simpl. lia.
Defined.

(** *** Generators that never raise *)

Lemma gen_stop_total {A} : gen_total (@gen_stop A).
Proof. by intros h. Qed.

Lemma gen_yield_total {A} (x : A) : gen_total (gen_yield x).
Proof. by intros h. Qed.

Lemma gen_seq_total {A} (g1 g2 : Gen A) :
  gen_total g1 → gen_total g2 → gen_total (gen_seq g1 g2).
Proof.
  intros H1 H2 h. unfold gen_seq. specialize (H1 h).
  destruct (g1 h) as [[xs e] h1]. simpl in H1. subst e. specialize (H2 h1).
  by destruct (g2 h1) as [[ys e] h2].
Qed.

Lemma gen_each_total {A B} (xs : list A) (body : A → Gen B) :
  (∀ x, x ∈ xs → gen_total (body x)) → gen_total (gen_each xs body).
Proof.
  induction xs as [|x xs IH]; intros Hbody; simpl; [apply gen_stop_total|].
  apply gen_seq_total; [apply Hbody; by left|].
  apply IH. intros y Hy. apply Hbody. by right.
Qed.

Lemma gen_for_total {A B} (g : Gen A) (body : A → Gen B) :
  gen_total g → (∀ x, gen_total (body x)) → gen_total (gen_for g body).
Proof.
  intros Hg Hbody h. unfold gen_for. specialize (Hg h).
  destruct (g h) as [[xs e] h1]. simpl in Hg. subst e.
  pose proof (gen_each_total xs body (λ x _, Hbody x) h1) as He.
  destruct (gen_each xs body h1) as [[ys e'] h2]. simpl in He. by subst e'.
Qed.

Lemma gen_do_total {A B} (c : Comp A) (k : A → Gen B) :
  comp_total c → (∀ a, gen_total (k a)) → gen_total (gen_do c k).
Proof.
  intros Hc Hk h. unfold gen_do. destruct (Hc h) as [a Ha].
  destruct (c h) as [r h1]. simpl in Ha. subst r. apply Hk.
Qed.

Lemma iterator_chain_total {A} (factories : list (A → Gen A)) : ∀ initial,
  (∀ f s, f ∈ factories → gen_total (f s)) →
  gen_total (iterator_chain initial factories).
Proof.
  induction factories as [|f fs IH]; intros initial Hf; simpl.
  - apply gen_yield_total.
  - apply gen_for_total; [apply Hf; by left|].
    intros s. apply IH. intros f' s' Hf'. apply Hf. by right.
Qed.

Lemma load_total r : comp_total (load r).
Proof. intros h. by eexists. Qed.

Lemma accepts_total call c r : comp_total (accepts call c r).
Proof. intros h. by eexists. Qed.

Lemma Substitution_copy_total r : comp_total (Substitution_copy r).
Proof. intros h. by eexists. Qed.

Lemma setitem_total r name v : comp_total (setitem r name v).
Proof. intros h. by eexists. Qed.

Lemma yield_if_accepted_total {A} call c r (x : A) :
  gen_total (yield_if_accepted call c r x).
Proof.
  apply gen_do_total; [apply accepts_total|].
  intros []; [apply gen_yield_total|apply gen_stop_total].
Qed.

(** A failed [union] is caught. *)
Lemma union_yield_total call combined s subst :
  gen_total (gen_except_ValueError
               (gen_do (union s subst)
                  (λ result, yield_if_accepted call combined result result))).
Proof.
  intros h. unfold gen_except_ValueError, gen_do, union.
  case_bool_decide; [|done].
  pose proof (yield_if_accepted_total call combined (List.length h) (List.length h)
                (h ++ [deref h s ∪ deref h subst])) as Hy.
  destruct (yield_if_accepted _ _ _ _ _) as [[ys e] h']. simpl in Hy. by subst e.
Qed.

Lemma _fixed_expr_factory_total call expression matcher state :
  (∀ es p r, gen_total (matcher es p r)) →
  gen_total (_fixed_expr_factory call expression matcher state).
Proof.
  intros Hm. destruct state as [expressions substitution]. simpl.
  apply gen_each_total. intros expr _.
  case_bool_decide; [|apply gen_stop_total].
  apply gen_for_total; [apply Hm|]. intros r. apply yield_if_accepted_total.
Qed.

Lemma bind_fixed_total call variable constraint substitution value rest :
  gen_total (bind_fixed call variable constraint substitution value rest).
Proof.
  destruct variable as [name|]; simpl; [|apply gen_yield_total].
  apply gen_do_total; [apply Substitution_copy_total|]. intros r.
  apply gen_do_total; [apply setitem_total|]. intros _. apply yield_if_accepted_total.
Qed.

(** The factory of a slot that occurs at least once never raises. *)
Lemma _fixed_var_iter_factory_total call variable count length constraint state :
  1 ≤ count →
  gen_total (_fixed_var_iter_factory call variable count length constraint state).
Proof.
  intros Hcount. destruct state as [expressions substitution]. simpl.
  apply gen_do_total; [apply load_total|]. intros s.
  destruct (lookup_name s variable).
  - case_match; [apply gen_stop_total|apply yield_if_accepted_total].
  - case_bool_decide.
    + apply gen_each_total. intros [expr expr_count] _.
      case_match; [apply bind_fixed_total|apply gen_stop_total].
    + rewrite (bool_decide_false (count = 0)) by lia. simpl.
      apply gen_each_total. intros subset _. apply bind_fixed_total.
Qed.

(** *** Well-formed parts *)




Lemma ms_del_wf {K} `{EqDecision K} (k : K) (m : Multiset K) :
  ms_wf m → ms_wf (ms_del k m) ∧ ∀ x, x ∈ ms_keys (ms_del k m) → x ∈ ms_keys m.
Proof.
  intros [Hnd Hpos]. unfold ms_wf, ms_del, ms_keys in *. split; [split|].
  - eapply sublist_NoDup; [done|]. apply fmap_sublist, sublist_filter.
  - intros kn [_ Hin]%list_elem_of_filter. by apply Hpos.
  - intros x (kn & -> & Hin%list_elem_of_filter)%list_elem_of_fmap.
    apply list_elem_of_fmap. exists kn. naive_solver.
Qed.

Lemma consume_bound_wf op s items : ∀ remaining fixed_vars remaining' fixed_vars',
  consume_bound op s items remaining fixed_vars = Some (remaining', fixed_vars') →
  ms_wf fixed_vars →
  ms_wf fixed_vars' ∧ ∀ x, x ∈ ms_keys fixed_vars' → x ∈ ms_keys fixed_vars.
Proof.
  induction items as [|[name count] items IH]; intros remaining fv remaining' fv'; simpl.
  - by intros [= <- <-].
  - destruct (s !! name); [|apply IH].
    case_match; [done|]. intros Hc Hwf.
    destruct (ms_del_wf name fv Hwf) as [Hwf' Hsub].
    destruct (IH _ _ _ _ Hc Hwf') as [? Hsub']. split; [done|]. auto.
Qed.





(** *** The allocation of the sequence variables never raises *)

Lemma distribute_value_length variables : ∀ n ks,
  ks ∈ distribute_value n variables → List.length ks = List.length variables.
Proof.
  induction variables as [|v variables IH]; intros n ks; cbn [distribute_value].
  - case_decide; [|by intros ?%elem_of_nil]. by intros ->%list_elem_of_singleton.
  - rewrite list_elem_of_In, in_flat_map.
    intros (k & _ & Hin). apply list_elem_of_In, list_elem_of_fmap in Hin as (p & -> & Hp).
    simpl. f_equal. by eapply IH.
Qed.

(** Every assignment of the enumerator names the slots it was given, in
    order. *)
Lemma partition_iter_names values variables a :
  a ∈ commutative_sequence_variable_partition_iter values variables →
  a.*1 = vwc_name <$> variables.
Proof.
  unfold commutative_sequence_variable_partition_iter.
  intros [_ Hin]%list_elem_of_filter. revert a Hin.
  assert (∀ a, a ∈ [(λ v, (vwc_name v, @nil (Expression * nat))) <$> variables] →
               a.*1 = vwc_name <$> variables) as Hinit.
  { intros a ->%list_elem_of_singleton. rewrite <- list_fmap_compose. done. }
  revert Hinit. generalize [(λ v, (vwc_name v, @nil (Expression * nat))) <$> variables].
  induction values as [|[e n] values IH]; intros acc Hacc a; simpl; [apply Hacc|].
  apply IH. intros a' (partial & Hin & Hpartial)%list_elem_of_bind.
  apply list_elem_of_fmap in Hin as (ks & -> & Hks%distribute_value_length).
  rewrite <- (Hacc partial Hpartial).
  assert (List.length partial = List.length ks) as Hlen.
  { rewrite Hks, <- (length_fmap vwc_name), <- (Hacc partial Hpartial), length_fmap. done. }
  clear -Hlen. revert ks Hlen.
  induction partial as [|[name m] partial IH]; intros [|k ks] Hlen; simplify_eq/=; [done|].
  f_equal. by apply IH.
Qed.

(** The substitution made from an assignment binds every named slot to a
    list. *)
Lemma Substitution_of_partition_lookup expr_lt sequence_subst name :
  Some name ∈ sequence_subst.*1 →
  ∃ value, Substitution_of_partition expr_lt sequence_subst !! name = Some (VList value).
Proof.
  unfold Substitution_of_partition.
  assert (∀ (acc : Substitution),
            Some name ∈ sequence_subst.*1 ∨ (∃ value, acc !! name = Some (VList value)) →
            ∃ value,
              foldl (λ s '(var, exprs),
                       match var with
                       | Some name0 => <[name0 := VList (sorted expr_lt (ms_elements exprs))]> s
                       | None => s
                       end) acc sequence_subst !! name = Some (VList value)) as H.
  { induction sequence_subst as [|[var exprs] l IH]; intros acc [Hin|Hacc]; simpl.
    - by apply elem_of_nil in Hin.
    - done.
    - apply IH. simpl in Hin. apply elem_of_cons in Hin as [<-|Hin]; [right|by left].
      rewrite lookup_insert_eq. eauto.
    - apply IH. right. destruct var as [name0|]; [|done].
      destruct (decide (name0 = name)) as [->|];
        [rewrite lookup_insert_eq; eauto|by rewrite lookup_insert_ne]. }
  intros Hin. apply H. by left.
Qed.

(** The re-wrapping loop never raises when every name has its [VarInfo], is
    visited once, and is bound to a list. *)
Lemma rewrap_fixed_total (op : OpClass) (infos : gmap (option string) VarInfo)
    (names : list string) : ∀ (h : Store) (s : Substitution),
  NoDup names →
  (∀ v, v ∈ names → is_Some (infos !! Some v) ∧ ∃ value, s !! v = Some (VList value)) →
  ∃ s', rewrap_fixed op infos (List.length h) names (h ++ [s]) = (Ok (), h ++ [s']).
Proof.
  induction names as [|v names IH]; intros h s Hnd Hnames; simpl; [by eexists|].
  apply NoDup_cons in Hnd as [Hv Hnd].
  destruct (Hnames v) as [[info ->] [value Hvalue]]; [by left|].
  unfold comp_bind at 1. unfold load. unfold deref at 1.
  rewrite lookup_app_r, Nat.sub_diag by done. simpl. rewrite Hvalue.
  assert (∀ s', (∀ x, x ≠ v → s' !! x = s !! x) →
            ∃ s'', rewrap_fixed op infos (List.length h) names (h ++ [s']) = (Ok (), h ++ [s'']))
    as Hnext.
  { intros s' Hs'. apply IH; [done|]. intros x Hx.
    destruct (Hnames x) as [? ?]; [by right|]. split; [done|].
    rewrite Hs'; [done|]. intros ->. done. }
  unfold comp_bind.
  destruct (min_count info <? List.length value).
  - rewrite setitem_last. apply Hnext. intros x Hx. by rewrite lookup_insert_ne.
  - destruct (bool_decide (min_count info = List.length value)
              && bool_decide (min_count info = 1)) eqn:Hb.
    + apply andb_prop in Hb as [H1%bool_decide_eq_true H2%bool_decide_eq_true].
      destruct value as [|e value]; [simpl in H1; lia|].
      rewrite setitem_last. apply Hnext. intros x Hx. by rewrite lookup_insert_ne.
    + unfold comp_ret. by apply Hnext.
Qed.

Lemma ms_elements_keys {K} (m : Multiset K) x : x ∈ ms_elements m → x ∈ ms_keys m.
Proof.
  unfold ms_elements, ms_keys. rewrite list_elem_of_In, in_flat_map.
  intros ([k n] & Hin & Hx). apply list_elem_of_In, elem_of_replicate in Hx as [-> _].
  apply list_elem_of_fmap. exists (k, n). split; [done|]. by apply list_elem_of_In.
Qed.

Lemma _variables_with_counts_total (variables : Multiset string)
    (infos : gmap (option string) VarInfo) :
  (∀ x, x ∈ ms_keys variables → is_Some (infos !! Some x)) →
  ∃ vs, _variables_with_counts variables infos = Ok vs
        ∧ vwc_name <$> vs = Some <$> ms_keys variables.
Proof.
  induction variables as [|[name count] variables IH]; intros Hall; simpl; [by eexists|].
  destruct (Hall name) as [info ->]; [by left|].
  destruct IH as (vs & -> & Hvs); [intros x Hx; apply Hall; by right|].
  eexists. split; [done|]. rewrite !fmap_cons. by rewrite Hvs.
Qed.

Lemma constraints_of_total (names : list string) (infos : gmap (option string) VarInfo) :
  (∀ x, x ∈ names → is_Some (infos !! Some x)) →
  ∃ cs, constraints_of names infos = Ok cs.
Proof.
  induction names as [|name names IH]; intros Hall; simpl; [by eexists|].
  destruct (Hall name) as [info ->]; [by left|].
  destruct IH as (cs & ->); [intros x Hx; apply Hall; by right|]. by eexists.
Qed.

Lemma sequence_slots_total pattern (fixed_vars : Multiset string) :
  parts_wf pattern →
  (∀ x, x ∈ ms_keys fixed_vars → x ∈ ms_keys (fixed_variables pattern)) →
  ∃ sequence_vars combined,
    sequence_slots pattern fixed_vars = Ok (sequence_vars, combined)
    ∧ (associative (operation pattern) = true →
       ∀ v, v ∈ ms_keys fixed_vars → Some v ∈ vwc_name <$> sequence_vars).
Proof.
  intros (_ & _ & Hfi & Hsi) Hsub. unfold sequence_slots.
  destruct (_variables_with_counts_total _ _ Hsi) as (svs & -> & Hsvs). simpl.
  destruct (constraints_of_total (ms_elements (sequence_variables pattern))
              (sequence_variable_infos pattern)) as [cs ->];
    [intros x Hx%ms_elements_keys; by apply Hsi|]. simpl.
  destruct (associative (operation pattern)); [|by eexists _, _].
  destruct (_variables_with_counts_total fixed_vars (fixed_variable_infos pattern))
    as (fvs & -> & Hfvs); [by auto|]. simpl.
  destruct (constraints_of_total (ms_elements fixed_vars) (fixed_variable_infos pattern))
    as [fcs ->]; [intros x Hx%ms_elements_keys; by auto|]. simpl.
  eexists _, _. split; [done|]. intros _ v Hv.
  rewrite !fmap_app, Hfvs, !elem_of_app. left. right. left.
  by apply list_elem_of_fmap_2.
Qed.

Lemma fixed_var_factories_total (call : nat → Substitution → bool)
    (infos : gmap (option string) VarInfo)
    (items : Multiset string) :
  ms_wf items →
  (∀ x, x ∈ ms_keys items → is_Some (infos !! Some x)) →
  ∃ fs, fixed_var_factories call infos items = Ok fs
        ∧ ∀ f s, f ∈ fs → gen_total (f s).
Proof.
  intros [_ Hpos]. induction items as [|[name count] items IH]; intros Hall; simpl.
  - eexists. split; [done|]. intros f s Hf. by apply elem_of_nil in Hf.
  - destruct (Hall name) as [info ->]; [by left|].
    destruct IH as (fs & -> & Hfs).
    { intros kn Hkn. apply Hpos. by right. }
    { intros x Hx. apply Hall. by right. }
    eexists. split; [done|]. intros f s [->|Hf]%elem_of_cons; [|by apply Hfs].
    apply _fixed_var_iter_factory_total. apply (Hpos (name, count)). by left.
Qed.

(** With parts that [__init__] made and a matcher that never raises, the
    finisher never raises. *)
Lemma _matches_from_matching_total call expr_lt subst remaining pattern matcher
    include_syntactic :
  parts_wf pattern →
  (∀ es p r, gen_total (matcher es p r)) →
  gen_total (_matches_from_matching call expr_lt subst remaining pattern matcher
               include_syntactic).
Proof.
  intros Hwf Hm. unfold _matches_from_matching.
  case_match; [apply gen_stop_total|].
  apply gen_do_total; [apply load_total|]. intros s0.
  destruct (consume_bound _ _ _ _ _) as [[remaining' fixed_vars]|] eqn:Hcb;
    [|apply gen_stop_total].
  destruct (consume_bound_wf _ _ _ _ _ _ _ Hcb) as [Hfv Hsub]; [apply Hwf|].
  destruct (fixed_var_factories_total call (fixed_variable_infos pattern) fixed_vars)
    as (fs & Hfs & Hfs_total); [done|intros x Hx; apply Hwf; by auto|].
  rewrite Hfs. simpl.
  destruct (sequence_slots_total pattern fixed_vars Hwf Hsub)
    as (sequence_vars & combined & Hslots & Hnames).
  assert (∀ e s, gen_total (_fixed_expr_factory call e matcher s)) as Hfe
    by (intros; by apply _fixed_expr_factory_total).
  match goal with
  | |- gen_total (match ?r with _ => _ end) =>
      assert (∃ factories, r = Ok factories ∧ ∀ f s, f ∈ factories → gen_total (f s))
        as (factories & -> & Hfactories)
  end.
  { destruct (negb (associative (operation pattern))); eexists; (split; [done|]).
    - intros f s [Hin|[Hin|Hin]%elem_of_app]%elem_of_app.
      + apply list_elem_of_fmap in Hin as (e & -> & _). apply Hfe.
      + by apply Hfs_total.
      + case_bool_decide; [|by apply elem_of_nil in Hin].
        apply list_elem_of_singleton in Hin as ->. by apply _fixed_var_iter_factory_total.
    - intros f s Hin. apply list_elem_of_fmap in Hin as (e & -> & _). apply Hfe. }
  apply gen_for_total; [by apply iterator_chain_total|].
  intros [rem_expr subst']. rewrite Hslots.
  apply gen_each_total. intros sequence_subst Hin%partition_iter_names.
  intros h. unfold gen_do at 1. unfold Substitution_new. unfold gen_do at 1.
  destruct (associative (operation pattern)) eqn:Hassoc.
  - destruct (rewrap_fixed_total (operation pattern) (fixed_variable_infos pattern)
                (ms_keys fixed_vars) h
                (Substitution_of_partition expr_lt sequence_subst)) as [s' ->].
    + apply Hfv.
    + intros v Hv. split; [apply Hwf; by auto|].
      apply Substitution_of_partition_lookup. rewrite Hin. by apply Hnames.
    + apply union_yield_total.
  - apply union_yield_total.
Qed.

(** *** A fixed variable that occurs twice under a commutative operator *)

Lemma ms_of_list_twice (a : Expression) : ms_of_list [a; a] = [(a, 2)].
Proof. unfold ms_of_list. simpl. by rewrite decide_True. Qed.

Lemma ms_of_list_two (a b : Expression) : a ≠ b → ms_of_list [a; b] = [(a, 1); (b, 1)].
Proof. intros Hab. unfold ms_of_list. simpl. by rewrite decide_False. Qed.

Lemma init_repeated_fixed_variable op x :
  CommutativePatternsParts.__init__ op [fixed_var x; fixed_var x] = Ok (parts_xx op x).
Proof.
  unfold CommutativePatternsParts.__init__. simpl.
  unfold CommutativePatternsParts._update_var_info.
  rewrite lookup_empty. simpl.
  unfold CommutativePatternsParts._update_var_info. rewrite lookup_insert_eq. simpl.
  rewrite decide_True by done. by rewrite insert_empty.
Qed.

Lemma deref_last (h : Store) s : deref (h ++ [s]) (List.length h) = s.
Proof. unfold deref. by rewrite lookup_app_r, Nat.sub_diag. Qed.

Lemma deref_old (h k : Store) r : r < List.length h → deref (h ++ k) r = deref h r.
Proof. intros Hr. unfold deref. by rewrite lookup_app_l. Qed.

Local Arguments bind_fixed : simpl never.
Local Arguments _fixed_var_iter_factory : simpl never.
Local Arguments sequence_slots : simpl never.
Local Arguments commutative_sequence_variable_partition_iter : simpl never.
Local Arguments gen_except_ValueError : simpl never.
Local Arguments gen_each : simpl never.
Local Arguments iterator_chain : simpl never.

(** Binding on a fresh copy. *)
Lemma bind_fixed_named call x substitution value rest (h : Store) :
  bind_fixed call (Some x) None substitution value rest h
  = (([(rest, List.length h)], None), h ++ [<[x := value]> (deref h substitution)]).
Proof.
  unfold bind_fixed, gen_do, Substitution_copy. rewrite setitem_last.
  unfold yield_if_accepted, gen_do, accepts. done.
Qed.

Lemma factory_twice call x (a : Expression) r (h : Store) :
  deref h r !! x = None →
  _fixed_var_iter_factory call (Some x) 2 1 None ([(a, 2)], r) h
  = (([([], List.length h)], None), h ++ [<[x := VExpr a]> (deref h r)]).
Proof.
  intros Hx. unfold _fixed_var_iter_factory, gen_do, load. simpl. rewrite Hx. simpl.
  unfold gen_each, gen_seq. rewrite bind_fixed_named. simpl.
  by rewrite !(decide_True (P := a = a)) by done.
Qed.

Lemma factory_distinct call x (a b : Expression) r (h : Store) :
  deref h r !! x = None →
  _fixed_var_iter_factory call (Some x) 2 1 None ([(a, 1); (b, 1)], r) h = (([], None), h).
Proof.
  intros Hx. unfold _fixed_var_iter_factory, gen_do, load. simpl. by rewrite Hx.
Qed.

Lemma partition_iter_twice x (a : Expression) :
  commutative_sequence_variable_partition_iter [(a, 2)] [MkVariableWithCount (Some x) 2 1]
  = [[(Some x, [(a, 1)])]].
Proof. reflexivity. Qed.

Lemma partition_iter_distinct x (a b : Expression) :
  commutative_sequence_variable_partition_iter [(a, 1); (b, 1)]
    [MkVariableWithCount (Some x) 2 1] = [].
Proof. reflexivity. Qed.

(** The last step of the finisher: the union with the substitution of the
    chain, when the two agree. *)
Lemma union_yield call (s subst : nat) (h : Store) :
  map_agree (deref h s) (deref h subst) →
  gen_except_ValueError
    (gen_do (union s subst) (λ result, yield_if_accepted call None result result)) h
  = (([List.length h], None), h ++ [deref h s ∪ deref h subst]).
Proof.
  intros Hagree. unfold gen_except_ValueError, gen_do, union.
  rewrite bool_decide_true by done. done.
Qed.

Lemma gen_each_single {A B} (x : A) (body : A → Gen B) h :
  gen_each [x] body h = body x h.
Proof.
  unfold gen_each, gen_seq, gen_stop. destruct (body x h) as [[xs [e|]] h1]; [done|].
  by rewrite app_nil_r.
Qed.

Lemma gen_for_single {A B} (g : Gen A) (body : A → Gen B) x h h1 :
  g h = (([x], None), h1) → gen_for g body h = body x h1.
Proof.
  intros Hg. unfold gen_for. rewrite Hg, gen_each_single.
  by destruct (body x h1) as [[ys [e|]] h2].
Qed.

Lemma gen_for_none {A B} (g : Gen A) (body : A → Gen B) h h1 :
  g h = (([], None), h1) → gen_for g body h = (([], None), h1).
Proof. intros Hg. unfold gen_for. by rewrite Hg. Qed.

Lemma sequence_slots_xx op x :
  sequence_slots (parts_xx op x) [(x, 2)]
  = Ok (if associative op then [MkVariableWithCount (Some x) 2 1] else [], None).
Proof.
  unfold sequence_slots, parts_xx. simpl. destruct (associative op); [|done].
  simpl. rewrite lookup_singleton_eq. done.
Qed.

(** The body of the loop over the assignments, without re-wrapping. *)
Lemma finish_assignment call s (subst : nat) (h : Store) :
  subst < List.length h →
  map_agree s (deref h subst) →
  gen_do (Substitution_new s)
    (λ r, gen_do (comp_ret ())
            (λ _, gen_except_ValueError
                    (gen_do (union r subst)
                       (λ result, yield_if_accepted call None result result)))) h
  = (([S (List.length h)], None), h ++ [s; s ∪ deref h subst]).
Proof.
  intros Hsubst Hagree. unfold gen_do at 1. unfold Substitution_new.
  unfold gen_do at 1. unfold comp_ret.
  rewrite union_yield; rewrite deref_last, deref_old by done; [|done].
  rewrite length_app. simpl. rewrite Nat.add_1_r, <- (assoc (++)). done.
Qed.

(** The finisher on the subjects [a, a], for an operator that is not
    associative: the factory of [x] takes both. *)
Lemma mfm_twice_nonassoc call expr_lt op x (a : Expression) matcher r h :
  associative op = false →
  deref h r = ∅ →
  _matches_from_matching call expr_lt r [(a, 2)] (parts_xx op x) matcher true h
  = (([2 + List.length h], None),
     h ++ [{[x := VExpr a]}; ∅; {[x := VExpr a]}]).
Proof.
  intros Hassoc Hr. unfold _matches_from_matching. simpl.
  rewrite Hassoc. simpl.
  unfold gen_do at 1. unfold load at 1. rewrite Hr.
  simpl. rewrite lookup_empty. simpl. rewrite lookup_singleton_eq. simpl.
  rewrite sequence_slots_xx. rewrite Hassoc.
  erewrite gen_for_single; cycle 1.
  { unfold iterator_chain. erewrite gen_for_single; [done|].
    apply factory_twice. by rewrite Hr. }
  rewrite Hr. simpl.
  change (commutative_sequence_variable_partition_iter [] []) with
    [@nil (option string * Multiset Expression)].
  rewrite gen_each_single.
  rewrite finish_assignment.
  - rewrite length_app, deref_last. simpl. rewrite Nat.add_1_r, <- (assoc (++)). simpl.
    rewrite insert_empty. unfold Substitution_of_partition. simpl.
    by rewrite (left_id ∅ (∪)).
  - rewrite length_app. simpl. lia.
  - apply map_agree_empty_l.
Qed.

(** The finisher on the subjects [a, b], for an operator that is not
    associative: no subject occurs twice. *)
Lemma mfm_distinct_nonassoc call expr_lt op x (a b : Expression) matcher r h :
  associative op = false →
  deref h r = ∅ →
  _matches_from_matching call expr_lt r [(a, 1); (b, 1)] (parts_xx op x) matcher true h
  = (([], None), h).
Proof.
  intros Hassoc Hr. unfold _matches_from_matching. simpl.
  rewrite Hassoc. simpl.
  unfold gen_do at 1. unfold load at 1. rewrite Hr.
  simpl. rewrite lookup_empty. simpl. rewrite lookup_singleton_eq. simpl.
  erewrite gen_for_none; [done|].
  unfold iterator_chain. erewrite gen_for_none; [done|].
  apply factory_distinct. by rewrite Hr.
Qed.

(** The finisher on the subjects [a, a], for an associative operator: the
    slot of [x], which occurs twice, gets one [a] and is unwrapped. *)
Lemma mfm_twice_assoc call expr_lt op x (a : Expression) matcher r h :
  associative op = true →
  r < List.length h →
  deref h r = ∅ →
  _matches_from_matching call expr_lt r [(a, 2)] (parts_xx op x) matcher true h
  = (([S (List.length h)], None), h ++ [{[x := VExpr a]}; {[x := VExpr a]}]).
Proof.
  intros Hassoc Hlt Hr. unfold _matches_from_matching. simpl.
  rewrite Hassoc. simpl.
  unfold gen_do at 1. unfold load at 1. rewrite Hr.
  simpl. rewrite lookup_empty. simpl.
  rewrite sequence_slots_xx. rewrite Hassoc.
  erewrite gen_for_single; [|done]. simpl.
  rewrite partition_iter_twice, gen_each_single.
  unfold gen_do at 1. unfold Substitution_new. unfold gen_do at 1.
  unfold rewrap_fixed, ms_keys. simpl. rewrite lookup_singleton_eq.
  unfold comp_bind at 1. unfold load. rewrite deref_last.
  unfold Substitution_of_partition. simpl. rewrite lookup_insert_eq. simpl.
  rewrite deref_last, insert_app_r_alt, Nat.sub_diag by done. simpl.
  rewrite union_yield; rewrite deref_last, deref_old, Hr by done.
  - rewrite length_app. simpl. rewrite Nat.add_1_r, <- (assoc (++)). simpl.
    rewrite insert_insert_eq, insert_empty. by rewrite (right_id ∅ (∪)).
  - apply map_agree_empty_r.
Qed.

(** The finisher on the subjects [a, b], for an associative operator: the
    slot of [x] occurs twice and neither subject does. *)
Lemma mfm_distinct_assoc call expr_lt op x (a b : Expression) matcher r h :
  associative op = true →
  deref h r = ∅ →
  _matches_from_matching call expr_lt r [(a, 1); (b, 1)] (parts_xx op x) matcher true h
  = (([], None), h).
Proof.
  intros Hassoc Hr. unfold _matches_from_matching. simpl.
  rewrite Hassoc. simpl.
  unfold gen_do at 1. unfold load at 1. rewrite Hr.
  simpl. rewrite lookup_empty. simpl.
  rewrite sequence_slots_xx. rewrite Hassoc.
  erewrite gen_for_single; [|done]. simpl.
  by rewrite partition_iter_distinct.
Qed.

(** [match] on the pattern [f(x_, x_)] and a subject [f(a, b)] of constant
    operands comes down to the finisher. *)
Lemma match_xx_finisher call expr_lt fuel op x (a b : Expression) cs r h :
  commutative op = true →
  is_constant a = true → is_constant b = true →
  match_ call expr_lt (S fuel) [Operation op [a; b] cs]
    (Operation op [fixed_var x; fixed_var x] None) r h
  = gen_for (_matches_from_matching call expr_lt r (ms_sub (ms_of_list [a; b]) [])
               (parts_xx op x) (match_ call expr_lt fuel) true)
      (λ result, yield_if_accepted call None result result) h.
Proof.
  intros Hcomm Ha Hb. cbn [match_].
  unfold isinstance_Operation, issubclass. rewrite (bool_decide_true (op_class op = _)) by done.
  cbn [orb negb]. unfold match_operation.
  rewrite bool_decide_false by done. rewrite Hcomm. cbn [negb].
  rewrite init_repeated_fixed_variable.
  unfold match_commutative_operation. cbn [existsb]. rewrite Ha, Hb. done.
Qed.

(** C8: for a commutative operator [f] (associative or not), the pattern
    [f(x_, x_)], in which the fixed-size variable [x] of [min_count] 1 occurs
    twice, and an empty incoming substitution, [match] on the subject
    [f(a, a)] with [a] constant yields exactly one substitution, which binds
    [x] to [a] and nothing else, and [match] on the subject [f(a, b)] with [a]
    and [b] constant and distinct yields nothing; neither raises. *)
Theorem match_repeated_fixed_variable call expr_lt fuel op x (a b : Expression) cs r h :
  commutative op = true →
  is_constant a = true → is_constant b = true → a ≠ b →
  r < List.length h → deref h r = ∅ →
  let pattern := Operation op [fixed_var x; fixed_var x] None in
  (∃ r', (match_ call expr_lt (S fuel) [Operation op [a; a] cs] pattern r h).1 = ([r'], None)
         ∧ deref (match_ call expr_lt (S fuel) [Operation op [a; a] cs] pattern r h).2 r'
           = {[x := VExpr a]})
  ∧ match_ call expr_lt (S fuel) [Operation op [a; b] cs] pattern r h = (([], None), h).
Proof.
  intros Hcomm Ha Hb Hab Hlt Hr pattern. unfold pattern.
  rewrite !match_xx_finisher by done.
  rewrite ms_of_list_twice, ms_of_list_two by done. simpl ms_sub.
  destruct (associative op) eqn:Hassoc.
  - split.
    + erewrite gen_for_single; [|by apply mfm_twice_assoc].
      eexists. split; [done|]. simpl. unfold deref.
      rewrite lookup_app_r by lia.
      replace (S (List.length h) - List.length h) with 1 by lia. done.
    + erewrite gen_for_none; [done|]. by apply mfm_distinct_assoc.
  - split.
    + erewrite gen_for_single; [|by apply mfm_twice_nonassoc].
      eexists. split; [done|]. simpl. unfold deref.
      rewrite lookup_app_r by lia.
      replace (S (S (List.length h)) - List.length h) with 2 by lia. done.
    + erewrite gen_for_none; [done|]. by apply mfm_distinct_nonassoc.
Qed.

(** A witness for C8: the operator [f], the symbols [a] and [b] and the empty
    substitution. *)
Lemma match_repeated_fixed_variable_witness :
  (∃ r', (match_ call_true lt_none 1 [op_ f_op [a_; a_]] (op_ f_op [x_; x_]) 0 [∅]).1
         = ([r'], None)
         ∧ deref (match_ call_true lt_none 1 [op_ f_op [a_; a_]] (op_ f_op [x_; x_]) 0 [∅]).2 r'
           = {["x" := VExpr a_]})
  ∧ match_ call_true lt_none 1 [op_ f_op [a_; b_]] (op_ f_op [x_; x_]) 0 [∅]
    = (([], None), [∅]).
Proof.
  apply (match_repeated_fixed_variable call_true lt_none 0 f_op "x" a_ b_ None 0 [∅]).
  - reflexivity.
  - reflexivity.
  - reflexivity.
  - discriminate.
  - simpl. lia.
  - reflexivity.
Defined.

(** *** Soundness *)

(** C1 (the code at a failing input): the pattern [f(x_2, x_2)], where [f] is
    commutative and the fixed-size variable [x] of [min_count] 2 occurs twice,
    matched against [f(a, a, b, b)] with an empty substitution, yields one
    substitution, which binds [x] to the list [a, a, b, b]; the instance of the
    pattern under it is [f(a, a, b, b, a, a, b, b)], whose operands are not
    those of the subject in any order. *)
Theorem match_unsound_repeated_fixed_variable call expr_lt fuel :
  let subject := op_ f_op [a_; a_; b_; b_] in
  let pattern := op_ f_op [x2_; x2_] in
  let run := match_ call expr_lt (S fuel) [subject] pattern 0 [∅] in
  run.1 = ([3], None)
  ∧ deref run.2 3 = {["x" := VList [a_; a_; b_; b_]]}
  ∧ substitute (deref run.2 3) pattern = [op_ f_op [a_; a_; b_; b_; a_; a_; b_; b_]]
  ∧ ¬ [a_; a_; b_; b_; a_; a_; b_; b_] ≡ₚ [a_; a_; b_; b_].
Proof.
  intros subject pattern run.
  assert (run = (([3], None),
                 [∅; {["x" := VList [a_; a_; b_; b_]]}; ∅;
                  {["x" := VList [a_; a_; b_; b_]]}])) as ->.
  { unfold run, subject, pattern. vm_compute. reflexivity. }
  split_and!; try reflexivity.
  intros Hperm%Permutation_length. discriminate.
Qed.

(** The other way in which the commutative matcher departs from soundness: a
    fixed variable that is bound already is taken from the subjects without
    its constraint being called, whereas the non-commutative matcher, through
    [match_variable], calls it.  The constraint 0 rejects every substitution
    here. *)
Lemma match_skips_constraint_of_bound_fixed_variable expr_lt fuel :
  (match_ call_false expr_lt (S fuel) [op_ f_op [a_]] (op_ f_op [x_constrained]) 0
     [{["x" := VExpr a_]}]).1 = ([2], None)
  ∧ holds call_false (CustomConstraint 0) {["x" := VExpr a_]} = false
  ∧ (match_ call_false expr_lt (S (S fuel)) [op_ g_op [a_]] (op_ g_op [x_constrained]) 0
       [{["x" := VExpr a_]}]).1 = ([], None).
Proof. split_and!; vm_compute; reflexivity. Qed.

(** *** The end-to-end scenarios of the specification *)

(** [f(a, x_)] against [f(a, b)] and against [f(b, a)], [f] commutative. *)
Example scenario_commutative_constant call expr_lt fuel :
  yielded (match_ call expr_lt (S fuel) [op_ f_op [a_; b_]] (op_ f_op [a_; x_]) 0) [∅]
  = [{["x" := VExpr b_]}]
  ∧ yielded (match_ call expr_lt (S fuel) [op_ f_op [b_; a_]] (op_ f_op [a_; x_]) 0) [∅]
    = [{["x" := VExpr b_]}].
Proof. split; vm_compute; reflexivity. Qed.

(** [f(x__)] against [f(a, b, c)]: one match, the sorted operands. *)
Example scenario_sequence_variable call fuel :
  yielded (match_ call lt_none (S fuel) [op_ f_op [a_; b_; c_]] (op_ f_op [x__]) 0) [∅]
  = [{["x" := VList [a_; b_; c_]]}].
Proof. vm_compute. reflexivity. Qed.

(** [g(a, x_, b)] against [g(a, c, d, b)], [g] associative: [x] is bound to
    the re-wrapped [g(c, d)]. *)
Example scenario_associative_rewrap call expr_lt fuel :
  yielded (match_ call expr_lt (S (S (S fuel))) [op_ g_op [a_; c_; d_; b_]]
             (op_ g_op [a_; x_; b_]) 0) [∅]
  = [{["x" := VExpr (op_ g_op [c_; d_])]}].
Proof. vm_compute. reflexivity. Qed.

(** *** Enough fuel *)

Lemma gen_seq_no_overflow {A} (g1 g2 : Gen A) :
  gen_no_overflow g1 → gen_no_overflow g2 → gen_no_overflow (gen_seq g1 g2).
Proof.
  intros H1 H2 h. unfold gen_seq. specialize (H1 h).
  destruct (g1 h) as [[xs [e|]] h1]; [done|]. specialize (H2 h1).
  by destruct (g2 h1) as [[ys e] h2].
Qed.

Lemma gen_each_no_overflow {A B} (xs : list A) (body : A → Gen B) :
  (∀ x, x ∈ xs → gen_no_overflow (body x)) → gen_no_overflow (gen_each xs body).
Proof.
  induction xs as [|x xs IH]; intros Hbody; simpl; [by intros h|].
  apply gen_seq_no_overflow; [apply Hbody; by left|].
  apply IH. intros y Hy. apply Hbody. by right.
Qed.

Lemma gen_for_no_overflow {A B} (g : Gen A) (body : A → Gen B) :
  gen_no_overflow g → (∀ x, gen_no_overflow (body x)) → gen_no_overflow (gen_for g body).
Proof.
  intros Hg Hbody h. unfold gen_for. specialize (Hg h).
  destruct (g h) as [[xs e] h1].
  pose proof (gen_each_no_overflow xs body (λ x _, Hbody x) h1) as He.
  by destruct (gen_each xs body h1) as [[ys [e'|]] h2].
Qed.

Lemma gen_do_no_overflow {A B} (c : Comp A) (k : A → Gen B) :
  (∀ h, (c h).1 ≠ Raise RecursionError) → (∀ a, gen_no_overflow (k a)) →
  gen_no_overflow (gen_do c k).
Proof.
  intros Hc Hk h. unfold gen_do. specialize (Hc h).
  destruct (c h) as [[a|e] h1]; simpl in *; [apply Hk|congruence].
Qed.

Lemma gen_except_ValueError_no_overflow {A} (g : Gen A) :
  gen_no_overflow g → gen_no_overflow (gen_except_ValueError g).
Proof.
  intros Hg h. unfold gen_except_ValueError. specialize (Hg h).
  by destruct (g h) as [[xs [[]|]] h1].
Qed.

Lemma iterator_chain_no_overflow {A} (factories : list (A → Gen A)) : ∀ initial,
  (∀ f s, f ∈ factories → gen_no_overflow (f s)) →
  gen_no_overflow (iterator_chain initial factories).
Proof.
  induction factories as [|f fs IH]; intros initial Hf; simpl; [by intros h|].
  apply gen_for_no_overflow; [apply Hf; by left|].
  intros s. apply IH. intros f' s' Hf'. apply Hf. by right.
Qed.

Lemma gen_total_no_overflow {A} (g : Gen A) : gen_total g → gen_no_overflow g.
Proof. intros Hg h. by rewrite Hg. Qed.

Lemma match_wildcard_no_overflow call expressions wildcard subst :
  gen_no_overflow (match_wildcard call expressions wildcard subst).
Proof.
  intros h. unfold match_wildcard, yield_if_accepted, gen_do, accepts.
  by repeat case_match.
Qed.

Lemma match_variable_no_overflow call expressions name inner c subst matcher :
  (∀ es r, gen_no_overflow (matcher es inner r)) →
  gen_no_overflow (match_variable call expressions (Variable_ name inner c) subst matcher).
Proof.
  intros Hm. unfold match_variable.
  apply gen_do_no_overflow; [done|]. intros s.
  destruct (s !! name).
  - case_bool_decide; [|by intros h].
    apply gen_total_no_overflow, yield_if_accepted_total.
  - apply gen_for_no_overflow; [apply Hm|]. intros r.
    apply gen_total_no_overflow.
    apply gen_do_total; [apply Substitution_copy_total|]. intros r'.
    apply gen_do_total; [apply setitem_total|]. intros _. apply yield_if_accepted_total.
Qed.

Lemma count_seq_vars_loop_raises assoc operands : ∀ state e,
  _count_seq_vars_loop assoc operands state = Raise e → e = ValueError.
Proof.
  induction operands as [|o operands IH]; intros [rem cnt] e; simpl; [done|].
  destruct (unwrap_variable o) as [| mc fs st wc | |].
  1,3,4: destruct (rem <? 1); [by intros [= <-]|apply IH].
  destruct (rem <? mc); [by intros [= <-]|apply IH].
Qed.

Lemma build_full_partition_loop_raises part expressions op operands : ∀ i vi e,
  _build_full_partition_loop part expressions op operands i vi = Raise e → e = IndexError.
Proof.
  induction operands as [|o operands IH]; intros i vi e; simpl; [done|].
  unfold slot_count.
  destruct (unwrap_variable o) as [| mc fs st wc | |].
  1,3,4: destruct (_build_full_partition_loop _ _ _ _ _ _) eqn:Hl;
    [done|intros [= <-]; by eapply IH].
  destruct (negb fs || associative op).
  - destruct (part !! vi); [|by intros [= <-]].
    destruct (_build_full_partition_loop _ _ _ _ _ _) eqn:Hl;
      [done|intros [= <-]; by eapply IH].
  - destruct (_build_full_partition_loop _ _ _ _ _ _) eqn:Hl;
      [done|intros [= <-]; by eapply IH].
Qed.

Lemma _non_commutative_match_no_overflow expressions op operands c subst matcher :
  (∀ o es r, o ∈ operands → gen_no_overflow (matcher es o r)) →
  gen_no_overflow (_non_commutative_match expressions (Operation op operands c) subst matcher).
Proof.
  intros Hm. unfold _non_commutative_match.
  destruct (_count_seq_vars _ _) as [[remaining n]|e] eqn:Hc.
  - apply gen_each_no_overflow. intros part _.
    destruct (_build_full_partition _ _ _) as [partition|e] eqn:Hb.
    + apply gen_for_no_overflow; [|by intros x h].
      apply iterator_chain_no_overflow. intros f s Hf.
      apply list_elem_of_lookup in Hf as [i Hf].
      apply lookup_zip_with_Some in Hf as (es & o & -> & _ & Ho).
      apply gen_for_no_overflow; [|by intros x h].
      apply Hm. by eapply list_elem_of_lookup_2.
    + apply build_full_partition_loop_raises in Hb as ->. by intros h.
  - apply count_seq_vars_loop_raises in Hc as ->. by intros h.
Qed.

Lemma ms_elements_union {K} `{EqDecision K} (a b : Multiset K) :
  ms_elements (ms_union a b) ≡ₚ ms_elements a ++ ms_elements b.
Proof.
  unfold ms_union. revert a. induction b as [|[k n] b IH]; intros a; simpl.
  - by rewrite app_nil_r.
  - rewrite IH, ms_elements_add_count. unfold ms_elements at 4. simpl.
    fold (ms_elements b). rewrite !(assoc (++)). f_equiv. apply Permutation_app_comm.
Qed.

Lemma _fixed_expr_factory_no_overflow call expression matcher state :
  (∀ es r, gen_no_overflow (matcher es expression r)) →
  gen_no_overflow (_fixed_expr_factory call expression matcher state).
Proof.
  intros Hm. destruct state as [expressions substitution]. simpl.
  apply gen_each_no_overflow. intros expr _.
  case_bool_decide; [|by intros h].
  apply gen_for_no_overflow; [apply Hm|]. intros r.
  apply gen_total_no_overflow, yield_if_accepted_total.
Qed.

Lemma _fixed_var_iter_factory_no_overflow call variable count length constraint state :
  gen_no_overflow (_fixed_var_iter_factory call variable count length constraint state).
Proof.
  destruct state as [expressions substitution]. unfold _fixed_var_iter_factory.
  apply gen_do_no_overflow; [done|]. intros s.
  destruct (lookup_name s variable).
  - case_match; [by intros h|]. apply gen_total_no_overflow, yield_if_accepted_total.
  - case_bool_decide.
    + apply gen_each_no_overflow. intros [expr expr_count] _.
      case_match; [|by intros h]. apply gen_total_no_overflow, bind_fixed_total.
    + case_match; [by intros h|].
      apply gen_each_no_overflow. intros subset _.
      apply gen_total_no_overflow, bind_fixed_total.
Qed.

Lemma fixed_var_factories_no_overflow (call : nat → Substitution → bool)
    (infos : gmap (option string) VarInfo)
    (items : Multiset string) :
  match fixed_var_factories call infos items with
  | Ok fs => ∀ f s, f ∈ fs → gen_no_overflow (f s)
  | Raise e => e = KeyError
  end.
Proof.
  induction items as [|[name count] items IH]; simpl.
  - intros f s Hf. by apply elem_of_nil in Hf.
  - destruct (infos !! Some name) as [info|]; [|done].
    destruct (fixed_var_factories call infos items) as [fs|e]; simpl; [|done].
    intros f s [->|Hf]%elem_of_cons; [|by apply IH].
    apply _fixed_var_iter_factory_no_overflow.
Qed.

Lemma _variables_with_counts_raises (variables : Multiset string)
    (infos : gmap (option string) VarInfo) e :
  _variables_with_counts variables infos = Raise e → e = KeyError.
Proof.
  induction variables as [|[name count] variables IH]; simpl; [done|].
  destruct (infos !! Some name); [|by intros [= <-]].
  destruct (_variables_with_counts variables infos); [done|]. intros [= <-]. by apply IH.
Qed.

Lemma constraints_of_raises (names : list string) (infos : gmap (option string) VarInfo) e :
  constraints_of names infos = Raise e → e = KeyError.
Proof.
  induction names as [|name names IH]; simpl; [done|].
  destruct (infos !! Some name); [|by intros [= <-]].
  destruct (constraints_of names infos); [done|]. intros [= <-]. by apply IH.
Qed.

Lemma sequence_slots_raises pattern fixed_vars e :
  sequence_slots pattern fixed_vars = Raise e → e = KeyError.
Proof.
  unfold sequence_slots.
  destruct (_variables_with_counts (sequence_variables pattern) _) eqn:H1; simpl;
    [|intros [= <-]; by eapply _variables_with_counts_raises].
  destruct (constraints_of (ms_elements (sequence_variables pattern)) _) eqn:H2; simpl;
    [|intros [= <-]; by eapply constraints_of_raises].
  destruct (associative (operation pattern)); simpl; [|done].
  destruct (_variables_with_counts fixed_vars _) eqn:H3; simpl;
    [|intros [= <-]; by eapply _variables_with_counts_raises].
  destruct (constraints_of (ms_elements fixed_vars) _) eqn:H4; simpl;
    [done|intros [= <-]; by eapply constraints_of_raises].
Qed.

Lemma rewrap_fixed_no_overflow (op : OpClass) (infos : gmap (option string) VarInfo)
    (s : nat) (names : list string) : ∀ h : Store,
  (rewrap_fixed op infos s names h).1 ≠ Raise RecursionError.
Proof.
  induction names as [|v names IH]; intros h; simpl; [done|].
  destruct (infos !! Some v) as [info|]; [|done].
  unfold comp_bind at 1. unfold load.
  destruct (deref h s !! v) as [[e|value|value]|]; try done.
  all: unfold comp_bind; repeat case_match; simplify_eq; try done;
    unfold setitem, comp_ret, comp_raise in *; simplify_eq; try done; apply IH.
Qed.

Lemma _matches_from_matching_no_overflow call expr_lt subst remaining pattern matcher
    include_syntactic :
  (∀ e es r, e ∈ ms_elements (rest pattern) ∨ e ∈ ms_elements (syntactic pattern) →
             gen_no_overflow (matcher es e r)) →
  gen_no_overflow (_matches_from_matching call expr_lt subst remaining pattern matcher
                     include_syntactic).
Proof.
  intros Hm. unfold _matches_from_matching.
  case_match; [by intros h|].
  apply gen_do_no_overflow; [done|]. intros s0.
  destruct (consume_bound _ _ _ _ _) as [[remaining' fixed_vars]|]; [|by intros h].
  assert (∀ f s,
            f ∈ (λ e, _fixed_expr_factory call e matcher)
                  <$> ms_elements (if include_syntactic
                                   then ms_union (rest pattern) (syntactic pattern)
                                   else rest pattern) →
            gen_no_overflow (f s)) as Hfe.
  { intros f s (e & -> & He)%list_elem_of_fmap.
    apply _fixed_expr_factory_no_overflow. intros es r. apply Hm.
    destruct include_syntactic; [|by left].
    rewrite ms_elements_union in He. by apply elem_of_app in He. }
  pose proof (fixed_var_factories_no_overflow call (fixed_variable_infos pattern) fixed_vars)
    as Hfs.
  match goal with
  | |- gen_no_overflow (match ?r with _ => _ end) => destruct r as [factories|e] eqn:Hf
  end.
  - apply gen_for_no_overflow.
    + apply iterator_chain_no_overflow. intros f s Hin.
      destruct (negb (associative (operation pattern))).
      * destruct (fixed_var_factories _ _ _) as [fs|]; [|done]. simpl in Hf.
        injection Hf as <-.
        apply elem_of_app in Hin as [Hin|[Hin|Hin]%elem_of_app];
          [by apply Hfe|by apply Hfs|].
        case_bool_decide; [|by apply elem_of_nil in Hin].
        apply list_elem_of_singleton in Hin as ->.
        apply _fixed_var_iter_factory_no_overflow.
      * injection Hf as <-. by apply Hfe.
    + intros [rem_expr subst'].
      destruct (sequence_slots pattern fixed_vars) as [[sequence_vars combined]|e] eqn:Hs;
        [|apply sequence_slots_raises in Hs as ->; by intros h].
      apply gen_each_no_overflow. intros sequence_subst _.
      apply gen_do_no_overflow; [done|]. intros s.
      apply gen_do_no_overflow.
      { intros h. destruct (associative (operation pattern)); [|done].
        apply rewrap_fixed_no_overflow. }
      intros _. apply gen_total_no_overflow, union_yield_total.
  - destruct (negb (associative (operation pattern))); [|done].
    destruct (fixed_var_factories _ _ _) as [fs|]; [done|]. simpl in Hf.
    injection Hf as <-. subst. by intros h.
Qed.

Lemma _update_var_info_raises (infos : gmap (option string) VarInfo) name count c e :
  CommutativePatternsParts._update_var_info infos name count c = Raise e →
  e = AssertionError.
Proof.
  unfold CommutativePatternsParts._update_var_info.
  destruct (infos !! name) as [[emc ec]|]; [|done].
  destruct (negb (bool_decide (emc = count))); [by intros [= <-]|].
  destruct c; [|done].
  destruct (negb (bool_decide (is_Some name))); [by intros [= <-]|done].
Qed.

Lemma classify_raises self x e :
  classify self x = Raise e → e = AssertionError ∨ e = AttributeError.
Proof.
  unfold classify. destruct self.
  destruct (is_constant x); [done|].
  destruct (bool_decide (head x = None)); [|by destruct (is_syntactic x)].
  destruct x as [| | name inner c|]; try done; try (intros [= <-]; by right).
  destruct inner as [|mc fs st wc| |]; try (intros [= <-]; by right).
  destruct fs;
    destruct (CommutativePatternsParts._update_var_info _ _ _ _) eqn:Hu; try done;
    intros [= <-]; left; by eapply _update_var_info_raises.
Qed.

Lemma init_raises op expressions e :
  CommutativePatternsParts.__init__ op expressions = Raise e →
  e = AssertionError ∨ e = AttributeError.
Proof.
  unfold CommutativePatternsParts.__init__.
  generalize (CommutativePatternsParts.empty op (List.length expressions)).
  induction expressions as [|x xs IH]; intros self; simpl; [done|].
  destruct (classify self x) as [self'|e'] eqn:Hc; [apply IH|].
  intros [= <-]. by eapply classify_raises.
Qed.

(** X12: the constructor of [CommutativePatternsParts] raises nothing but
    the [AssertionError] of [_update_var_info] and the [AttributeError] of
    reading [fixed_size] off an operand without a head that is a variable
    around something other than a wildcard. *)
Theorem init_raises_only op expressions e :
  CommutativePatternsParts.__init__ op expressions = Raise e →
  e = AssertionError ∨ e = AttributeError.
Proof. apply init_raises. Qed.

(** A witness for X12: the name [x] with the [min_count]s 1 and 2. *)
Lemma init_raises_only_witness :
  CommutativePatternsParts.__init__ f_op [x_; x2_] = Raise AssertionError
  ∧ (AssertionError = AssertionError ∨ AssertionError = AttributeError).
Proof.
  split; [reflexivity|].
  exact (init_raises_only f_op [x_; x2_] AssertionError eq_refl).
Defined.

(** The operands in [rest] and [syntactic] are operands of the pattern. *)
Lemma init_rest_operands op expressions p e :
  CommutativePatternsParts.__init__ op expressions = Ok p →
  e ∈ ms_elements (rest p) ∨ e ∈ ms_elements (syntactic p) → e ∈ expressions.
Proof.
  intros Hinit He.
  destruct (classify_all_classified _ _ _ [] Hinit) as [(_ & Hs & Hr & _) _];
    [by repeat split|].
  simpl in Hs, Hr.
  destruct He as [He|He]; [rewrite Hr in He|rewrite Hs in He];
    by apply list_elem_of_filter in He as [_ ?].
Qed.

Lemma depth_operand op operands c o :
  o ∈ operands → depth o < depth (Operation op operands c).
Proof.
  simpl. induction operands as [|o' operands IH]; [by intros ?%elem_of_nil|].
  intros [->|Hin]%elem_of_cons; simpl; [lia|]. specialize (IH Hin). lia.
Qed.

Lemma match_operation_no_overflow call expr_lt expressions op operands c subst matcher :
  (∀ o es r, o ∈ operands → gen_no_overflow (matcher es o r)) →
  gen_no_overflow (match_operation call expr_lt expressions (Operation op operands c) subst
                     matcher).
Proof.
  intros Hm. unfold match_operation.
  case_bool_decide; [case_bool_decide; by intros h|].
  destruct (negb (commutative op)); [by apply _non_commutative_match_no_overflow|].
  destruct (CommutativePatternsParts.__init__ op operands) as [parts|e] eqn:Hinit.
  - unfold match_commutative_operation.
    case_match; [by intros h|]. case_match; [by intros h|].
    apply _matches_from_matching_no_overflow. intros e es r He. apply Hm.
    by eapply init_rest_operands.
  - apply init_raises in Hinit as [->| ->]; by intros h.
Qed.

(** X4: the recursion of [match] through its [matcher] argument is never
    deeper than the pattern: with more fuel than the depth of the pattern no
    call runs out of it, so that the enumeration does not end in
    [RecursionError], whatever the subjects and the substitution are. *)
Theorem match_no_overflow call expr_lt fuel : ∀ expressions pattern subst,
  depth pattern < fuel →
  gen_no_overflow (match_ call expr_lt fuel expressions pattern subst).
Proof.
  induction fuel as [|fuel IH]; intros expressions pattern subst Hd; [lia|].
  destruct pattern as [cls name c|mc fs st c|name inner c|op operands c];
    cbn [match_].
  - repeat case_match; try (by intros h);
      apply gen_total_no_overflow, yield_if_accepted_total.
  - apply match_wildcard_no_overflow.
  - apply match_variable_no_overflow. intros es r. apply IH. simpl in Hd. lia.
  - destruct expressions as [|e [|e' es]]; try (by intros h); [|by destruct e; intros h].
    destruct e as [| | |op' operands' c']; try (by intros h).
    case_match; [by intros h|].
    apply gen_for_no_overflow.
    + apply match_operation_no_overflow. intros o es r Ho. apply IH.
      pose proof (depth_operand op operands c o Ho). lia.
    + intros r. apply gen_total_no_overflow, yield_if_accepted_total.
Qed.

(** A witness for X4: the pattern [g(a, x_, b)], of depth 2, with fuel 3. *)
Lemma match_no_overflow_witness :
  gen_no_overflow (match_ call_true lt_none 3 [op_ g_op [a_; c_; b_]] (op_ g_op [a_; x_; b_]) 0).
Proof. apply match_no_overflow. simpl. lia. Defined.

(** *** The non-commutative matchers never raise *)

Lemma match_wildcard_total call expressions min_count fixed_size symbol_type c subst :
  non_commutative (Wildcard min_count fixed_size symbol_type c) = true →
  gen_total (match_wildcard call expressions (Wildcard min_count fixed_size symbol_type c)
               subst).
Proof.
  simpl. intros Hnc. unfold match_wildcard.
  destruct fixed_size; [|case_match; [apply yield_if_accepted_total|apply gen_stop_total]].
  destruct (bool_decide (List.length expressions = min_count)) eqn:Hlen;
    [|apply gen_stop_total].
  apply bool_decide_eq_true in Hlen.
  destruct symbol_type as [ty|]; [|apply yield_if_accepted_total].
  destruct expressions as [|e es].
  - simpl in Hlen. subst min_count. simpl in Hnc. done.
  - case_match; [apply gen_stop_total|apply yield_if_accepted_total].
Qed.

Lemma match_variable_total call expressions name inner c subst matcher :
  (∀ es r, gen_total (matcher es inner r)) →
  gen_total (match_variable call expressions (Variable_ name inner c) subst matcher).
Proof.
  intros Hm. unfold match_variable.
  apply gen_do_total; [apply load_total|]. intros s.
  destruct (s !! name).
  - case_bool_decide; [apply yield_if_accepted_total|apply gen_stop_total].
  - apply gen_for_total; [apply Hm|]. intros r.
    apply gen_do_total; [apply Substitution_copy_total|]. intros r'.
    apply gen_do_total; [apply setitem_total|]. intros _. apply yield_if_accepted_total.
Qed.

Lemma _non_commutative_match_total expressions op operands c subst matcher :
  (∀ o es r, o ∈ operands → gen_total (matcher es o r)) →
  gen_total (_non_commutative_match expressions (Operation op operands c) subst matcher).
Proof.
  intros Hm. unfold _non_commutative_match.
  destruct (_count_seq_vars _ _) as [[remaining n]|e] eqn:Hc.
  - apply gen_each_total. intros part Hpart%integer_partition_vector_iter_length.
    simpl in Hc.
    destruct (build_full_partition_loop_total part expressions op _ _ _ 0 0 Hc)
      as [partition Hb]; [simpl; lia|].
    simpl. rewrite Hb.
    apply gen_for_total; [|intros; apply gen_yield_total].
    apply iterator_chain_total. intros f s Hf.
    apply list_elem_of_lookup in Hf as [i Hf].
    apply lookup_zip_with_Some in Hf as (es & o & -> & _ & Ho).
    apply gen_for_total; [|intros; apply gen_yield_total].
    apply Hm. by eapply list_elem_of_lookup_2.
  - apply count_seq_vars_loop_raises in Hc as ->. apply gen_stop_total.
Qed.

Lemma match_non_commutative_total call expr_lt fuel : ∀ expressions pattern subst,
  non_commutative pattern = true →
  depth pattern < fuel →
  gen_total (match_ call expr_lt fuel expressions pattern subst).
Proof.
  induction fuel as [|fuel IH]; intros expressions pattern subst Hnc Hd; [lia|].
  destruct pattern as [cls name c|mc fs st c|name inner c|op operands c];
    cbn [match_].
  - repeat case_match; try apply gen_stop_total; apply yield_if_accepted_total.
  - by apply match_wildcard_total.
  - apply match_variable_total. intros es r. apply IH; [done|]. simpl in Hd. lia.
  - destruct expressions as [|e [|e' es]]; try apply gen_stop_total;
      [|destruct e; apply gen_stop_total].
    destruct e as [| | |op' operands' c']; try apply gen_stop_total.
    case_match; [apply gen_stop_total|].
    apply gen_for_total; [|intros r; apply yield_if_accepted_total].
    simpl in Hnc. apply andb_prop in Hnc as [Hcomm Hall].
    unfold match_operation.
    destruct (bool_decide (List.length operands = 0)) eqn:Hempty.
    { destruct (bool_decide (List.length operands' = 0));
        [apply gen_yield_total|apply gen_stop_total]. }
    apply bool_decide_eq_false in Hempty.
    destruct (commutative op).
    { simpl in Hcomm. apply bool_decide_eq_true in Hcomm. by subst operands. }
    simpl. apply _non_commutative_match_total. intros o es r Ho.
    apply IH.
    + rewrite forallb_forall in Hall. apply Hall. by apply list_elem_of_In.
    + pose proof (depth_operand op operands c o Ho). lia.
Qed.

(** X5: on a pattern without a commutative operator that has operands, and
    without a fixed-size symbol wildcard of [min_count] 0, [match] never
    raises, given fuel beyond the depth of the pattern: the absence of a
    match shows as an empty enumeration. *)
Theorem match_non_commutative_never_raises call expr_lt fuel expressions pattern subst :
  non_commutative pattern = true →
  depth pattern < fuel →
  gen_total (match_ call expr_lt fuel expressions pattern subst).
Proof. apply match_non_commutative_total. Qed.

(** A witness for X5: the pattern [g(a, x_, b)] with [g] associative. *)
Lemma match_non_commutative_never_raises_witness :
  gen_total (match_ call_true lt_none 3 [op_ g_op [a_; c_; b_]] (op_ g_op [a_; x_; b_]) 0).
Proof. apply match_non_commutative_never_raises; [reflexivity|simpl; lia]. Defined.

(** *** The exceptions of the commutative matcher *)


Lemma gen_raises_only_total {A} (g : Gen A) : gen_raises_only (λ _, False) g → gen_total g.
Proof. intros Hg h. destruct ((g h).1.2) as [e|] eqn:He; [|done]. by destruct (Hg h e). Qed.











(** *** What the yielded substitutions satisfy *)

Lemma holds_at_stable φ r : stable (holds_at φ r).
Proof.
  intros h h' [k ->] [Hr Hφ]. split; [rewrite length_app; lia|]. by rewrite deref_old.
Qed.

Lemma gen_post_extends {A} P Q (g : Gen A) : gen_post P Q g → ∀ h, P h → h `prefix_of` (g h).2.
Proof. intros Hg h HP. by apply Hg. Qed.

Lemma gen_stop_post {A} P (Q : A → Store → Prop) : gen_post P Q gen_stop.
Proof. intros h _. split; [done|]. by intros x ?%elem_of_nil. Qed.

Lemma gen_raise_post {A} P (Q : A → Store → Prop) e : gen_post P Q (gen_raise e).
Proof. intros h _. split; [done|]. by intros x ?%elem_of_nil. Qed.

Lemma gen_yield_post {A} (P : Store → Prop) (Q : A → Store → Prop) x :
  (∀ h, P h → Q x h) → gen_post P Q (gen_yield x).
Proof. intros HPQ h HP. split; [done|]. intros y ->%list_elem_of_singleton. by apply HPQ. Qed.

Lemma gen_post_weaken {A} (P P' : Store → Prop) (Q Q' : A → Store → Prop) g :
  gen_post P Q g → (∀ h, P' h → P h) → (∀ x h, Q x h → Q' x h) → gen_post P' Q' g.
Proof. intros Hg HP HQ h HP'. destruct (Hg h (HP h HP')) as [? ?]. split; auto. Qed.

Lemma gen_post_pre {A} (P P' : Store → Prop) (Q : A → Store → Prop) g :
  (∀ h, P' h → P h) → gen_post P Q g → gen_post P' Q g.
Proof. intros HP Hg. by eapply gen_post_weaken. Qed.

Lemma gen_seq_post {A} P (Q : A → Store → Prop) (g1 g2 : Gen A) :
  stable P → (∀ x, stable (Q x)) →
  gen_post P Q g1 → gen_post P Q g2 → gen_post P Q (gen_seq g1 g2).
Proof.
  intros HsP HsQ H1 H2 h HP. unfold gen_seq. destruct (H1 h HP) as [He1 Hy1].
  destruct (g1 h) as [[xs [e|]] h1]; [done|]. simpl in *.
  destruct (H2 h1 (HsP _ _ He1 HP)) as [He2 Hy2].
  destruct (g2 h1) as [[ys e] h2]. simpl in *. split; [by etrans|].
  intros x [Hx|Hx]%elem_of_app; [|by apply Hy2]. eapply HsQ; [done|]. by apply Hy1.
Qed.

Lemma gen_each_cons {A B} (x : A) xs (body : A → Gen B) :
  gen_each (x :: xs) body = gen_seq (body x) (gen_each xs body).
Proof. done. Qed.

Lemma gen_each_nil {A B} (body : A → Gen B) : gen_each [] body = gen_stop.
Proof. done. Qed.

Lemma gen_each_post {A B} P (Q : B → Store → Prop) (xs : list A) (body : A → Gen B) :
  stable P → (∀ y, stable (Q y)) →
  (∀ x, x ∈ xs → gen_post P Q (body x)) → gen_post P Q (gen_each xs body).
Proof.
  intros HsP HsQ. induction xs as [|x xs IH]; intros Hbody;
    [rewrite gen_each_nil; apply gen_stop_post|rewrite gen_each_cons].
  apply gen_seq_post; [done..|apply Hbody; by left|].
  apply IH. intros y Hy. apply Hbody. by right.
Qed.

(** The loop over a generator: the body runs on each yielded value in a store
    in which that value still satisfies what the generator gave it. *)
Lemma gen_for_post {A B} P (Q : A → Store → Prop) (R : B → Store → Prop)
    (g : Gen A) (body : A → Gen B) :
  (∀ x, stable (Q x)) → (∀ y, stable (R y)) →
  gen_post P Q g → (∀ x, gen_post (Q x) R (body x)) → gen_post P R (gen_for g body).
Proof.
  intros HsQ HsR Hg Hbody h HP. unfold gen_for. destruct (Hg h HP) as [He Hy].
  destruct (g h) as [[xs e] h1]. simpl in *.
  assert (∀ h1, (∀ x, x ∈ xs → Q x h1) →
            h1 `prefix_of` (gen_each xs body h1).2
            ∧ ∀ y, y ∈ (gen_each xs body h1).1.1 → R y (gen_each xs body h1).2) as Heach.
  { clear -HsQ HsR Hbody. induction xs as [|x xs IH]; intros h1 Hxs.
    - split; [done|]. by intros y ?%elem_of_nil.
    - rewrite gen_each_cons.
      unfold gen_seq. destruct (Hbody x h1) as [He Hy]; [apply Hxs; by left|].
      destruct (body x h1) as [[ys [e|]] h2]; [by split|]. simpl in *.
      destruct (IH h2) as [He' Hy'].
      { intros x' Hx'. eapply HsQ; [done|]. apply Hxs. by right. }
      destruct (gen_each xs body h2) as [[zs e] h3]. simpl in *.
      split; [by etrans|].
      intros y [Hin|Hin]%elem_of_app; [|by apply Hy']. eapply HsR; [done|]. by apply Hy. }
  destruct (Heach h1 Hy) as [He' Hy'].
  destruct (gen_each xs body h1) as [[ys [e'|]] h2]; simpl in *; (split; [by etrans|done]).
Qed.

(** A computation that reads the store only. *)
Lemma gen_do_read_post {A B} P (Q : B → Store → Prop) (c : Comp A) (k : A → Gen B) :
  (∀ h, (c h).2 = h) →
  (∀ h a, P h → (c h).1 = Ok a → gen_post (λ h', h' = h) Q (k a)) →
  gen_post P Q (gen_do c k).
Proof.
  intros Hc Hk h HP. unfold gen_do. specialize (Hc h). specialize (Hk h).
  destruct (c h) as [[a|e] h1]; simpl in *; subst h1.
  - by apply (Hk a).
  - split; [done|]. by intros x ?%elem_of_nil.
Qed.

Lemma yield_if_accepted_post {A} call c r (x : A) P (Q : A → Store → Prop) :
  (∀ h, P h → Q x h) → gen_post P Q (yield_if_accepted call c r x).
Proof.
  intros HPQ h HP. unfold yield_if_accepted, gen_do, accepts.
  destruct (from_option _ _ _); simpl; (split; [done|]).
  - intros y ->%list_elem_of_singleton. by apply HPQ.
  - by intros y ?%elem_of_nil.
Qed.

Lemma gen_except_ValueError_post {A} P (Q : A → Store → Prop) (g : Gen A) :
  gen_post P Q g → gen_post P Q (gen_except_ValueError g).
Proof.
  intros Hg h HP. unfold gen_except_ValueError. specialize (Hg h HP).
  by destruct (g h) as [[xs [[]|]] h1].
Qed.

Lemma iterator_chain_post {A} (Q : A → Store → Prop) (factories : list (A → Gen A)) :
  (∀ x, stable (Q x)) →
  (∀ f s, f ∈ factories → gen_post (Q s) Q (f s)) →
  ∀ initial, gen_post (Q initial) Q (iterator_chain initial factories).
Proof.
  intros HsQ. induction factories as [|f fs IH]; intros Hf initial.
  - by apply gen_yield_post.
  - apply (gen_for_post _ Q); [done..|apply Hf; by left|].
    intros s. apply IH. intros f' s' Hf'. apply Hf. by right.
Qed.

Lemma copy_setitem_post {A} P (Q : A → Store → Prop) r name v (k : ref → Gen A) :
  (∀ h, P h →
     gen_post (λ h', h' = h ++ [<[name := v]> (deref h r)]) Q (k (List.length h))) →
  gen_post P Q (gen_do (Substitution_copy r)
                  (fun r' => gen_do (setitem r' name v) (fun _ => k r'))).
Proof.
  intros Hk h HP. unfold gen_do at 1. unfold Substitution_copy.
  unfold gen_do. rewrite setitem_last.
  destruct (Hk h HP _ eq_refl) as [He Hy]. split; [|done].
  etrans; [|done]. by apply prefix_app_r.
Qed.

Lemma holds_at_last φ h s : φ s → holds_at φ (List.length h) (h ++ [s]).
Proof.
  intros Hs. split; [rewrite length_app; simpl; lia|]. by rewrite deref_last.
Qed.

Lemma map_agree_union_subseteq_r (a b : Substitution) : map_agree a b → b ⊆ a ∪ b.
Proof.
  intros Hab. apply map_subseteq_spec. intros i x Hb.
  apply lookup_union_Some_raw. destruct (a !! i) as [y|] eqn:Ha; [|by right].
  left. f_equal. by eapply (proj1 (map_agree_spec a b) Hab).
Qed.

Lemma match_wildcard_post call φ expressions wildcard subst :
  gen_post (holds_at φ subst) (holds_at φ) (match_wildcard call expressions wildcard subst).
Proof.
  intros h HP. destruct (match_wildcard_store call expressions wildcard subst h) as [-> Hy].
  split; [done|]. by intros r ->%Hy.
Qed.

Lemma match_variable_keeps call σ0 expressions variable subst matcher :
  matcher_keeps σ0 matcher →
  gen_post (holds_at (λ σ, σ0 ⊆ σ) subst) (holds_at (λ σ, σ0 ⊆ σ))
    (match_variable call expressions variable subst matcher).
Proof.
  intros Hm. unfold match_variable.
  destruct variable as [| | name inner c|]; try apply gen_raise_post.
  apply gen_do_read_post; [done|]. intros h s HP [= <-].
  destruct (deref h subst !! name) eqn:Hname.
  - case_bool_decide; [|apply gen_stop_post].
    apply yield_if_accepted_post. by intros ? ->.
  - apply (gen_for_post _ (holds_at (λ σ, σ0 ⊆ σ))); try (intros; apply holds_at_stable).
    { eapply gen_post_weaken; [apply Hm| |done]. by intros ? ->. }
    intros r. apply copy_setitem_post. intros h1 [Hr Hσ].
    apply yield_if_accepted_post. intros ? ->. apply holds_at_last.
    apply insert_subseteq_r; [|done].
    destruct HP as [_ HP]. by eapply lookup_weaken_None.
Qed.

Lemma _non_commutative_match_keeps σ0 expressions operation subst matcher :
  matcher_keeps σ0 matcher →
  gen_post (holds_at (λ σ, σ0 ⊆ σ) subst) (holds_at (λ σ, σ0 ⊆ σ))
    (_non_commutative_match expressions operation subst matcher).
Proof.
  intros Hm. unfold _non_commutative_match.
  destruct (_count_seq_vars expressions operation) as [[remaining n]|[]];
    try apply gen_raise_post; try apply gen_stop_post.
  apply gen_each_post; try (intros; apply holds_at_stable). intros part _.
  destruct (_build_full_partition part expressions operation); [|apply gen_raise_post].
  apply (gen_for_post _ (holds_at (λ σ, σ0 ⊆ σ))); try (intros; apply holds_at_stable);
    [|intros r; by apply gen_yield_post].
  apply iterator_chain_post; [intros; apply holds_at_stable|]. intros f s Hf.
  apply list_elem_of_lookup in Hf as [i Hf].
  apply lookup_zip_with_Some in Hf as (es & o & -> & _ & _).
  apply (gen_for_post _ (holds_at (λ σ, σ0 ⊆ σ))); try (intros; apply holds_at_stable);
    [apply Hm|intros r; by apply gen_yield_post].
Qed.

Lemma state_stable σ0 (st : Multiset Expression * ref) :
  stable (holds_at (λ σ, σ0 ⊆ σ) st.2).
Proof. apply holds_at_stable. Qed.

Lemma _fixed_expr_factory_keeps call σ0 expression matcher state :
  matcher_keeps σ0 matcher →
  gen_post (holds_at (λ σ, σ0 ⊆ σ) state.2) (λ st, holds_at (λ σ, σ0 ⊆ σ) st.2)
    (_fixed_expr_factory call expression matcher state).
Proof.
  intros Hm. destruct state as [expressions substitution]. simpl.
  apply gen_each_post; try (intros; apply holds_at_stable). intros expr _.
  case_bool_decide; [|apply gen_stop_post].
  apply (gen_for_post _ (holds_at (λ σ, σ0 ⊆ σ))); try (intros; apply holds_at_stable);
    [apply Hm|].
  intros r. by apply yield_if_accepted_post.
Qed.

Lemma bind_fixed_keeps call σ0 variable constraint substitution value rest :
  gen_post (λ h, holds_at (λ σ, σ0 ⊆ σ) substitution h
                 ∧ lookup_name (deref h substitution) variable = None)
    (λ st, holds_at (λ σ, σ0 ⊆ σ) st.2)
    (bind_fixed call variable constraint substitution value rest).
Proof.
  unfold bind_fixed. destruct variable as [name|]; [|apply gen_yield_post; by intros h [? _]].
  apply (copy_setitem_post _ _ substitution name value
           (λ r', yield_if_accepted call constraint r' (rest, r'))).
  intros h [[Hr Hσ] Hname]. apply yield_if_accepted_post. intros ? ->. apply holds_at_last.
  apply insert_subseteq_r; [|done]. by eapply lookup_weaken_None.
Qed.

Lemma unbound_stable φ substitution variable :
  stable (λ h, holds_at φ substitution h
               ∧ lookup_name (deref h substitution) variable = None).
Proof.
  intros h h' Hh [Hr Hname]. split; [by eapply holds_at_stable|].
  destruct Hh as [k ->]. rewrite deref_old; [done|apply Hr].
Qed.

Lemma _fixed_var_iter_factory_keeps call σ0 variable count length constraint state :
  gen_post (holds_at (λ σ, σ0 ⊆ σ) state.2) (λ st, holds_at (λ σ, σ0 ⊆ σ) st.2)
    (_fixed_var_iter_factory call variable count length constraint state).
Proof.
  destruct state as [expressions substitution]. unfold _fixed_var_iter_factory.
  apply gen_do_read_post; [done|]. intros h s HP [= <-].
  destruct (lookup_name (deref h substitution) variable) eqn:Hname.
  - case_match; [apply gen_stop_post|]. apply yield_if_accepted_post. by intros ? ->.
  - apply (gen_post_pre
             (λ h, holds_at (λ σ, σ0 ⊆ σ) substitution h
                   ∧ lookup_name (deref h substitution) variable = None));
      [by intros ? ->|].
    case_bool_decide.
    + apply gen_each_post; [apply unbound_stable|intros; apply holds_at_stable|].
      intros [expr expr_count] _.
      case_match; [apply bind_fixed_keeps|apply gen_stop_post].
    + case_match; [apply gen_raise_post|].
      apply gen_each_post; [apply unbound_stable|intros; apply holds_at_stable|].
      intros subset _. apply bind_fixed_keeps.
Qed.

Lemma fixed_var_factories_keeps call σ0 infos items : ∀ fs,
  fixed_var_factories call infos items = Ok fs →
  ∀ f s, f ∈ fs →
    gen_post (holds_at (λ σ, σ0 ⊆ σ) s.2) (λ st, holds_at (λ σ, σ0 ⊆ σ) st.2) (f s).
Proof.
  induction items as [|[name count] items IH]; intros fs; simpl.
  - intros [= <-] f s Hf. by apply elem_of_nil in Hf.
  - destruct (infos !! Some name) as [info|]; [|done].
    destruct (fixed_var_factories call infos items) as [fs'|]; [|done]. simpl.
    intros [= <-] f s [->|Hf]%elem_of_cons; [|by eapply IH].
    apply _fixed_var_iter_factory_keeps.
Qed.

(** An object that is allocated and then updated in place by a loop that
    writes to it only leaves what holds of the older objects as it is. *)
Lemma new_update_post {A} P (Q : A → Store → Prop) s0 (update : ref → Comp unit)
    (k : ref → Gen A) :
  stable P →
  (∀ h s, ∃ res s', update (List.length h) (h ++ [s]) = (res, h ++ [s'])) →
  (∀ r, gen_post P Q (k r)) →
  gen_post P Q (gen_do (Substitution_new s0) (fun r => gen_do (update r) (fun _ => k r))).
Proof.
  intros HsP Hu Hk h HP. unfold gen_do at 1. unfold Substitution_new.
  unfold gen_do. destruct (Hu h s0) as (res & s' & ->).
  destruct res; simpl.
  - destruct (Hk (List.length h) (h ++ [s'])) as [He Hy].
    { eapply HsP; [|done]. by apply prefix_app_r. }
    split; [|done]. etrans; [|done]. by apply prefix_app_r.
  - split; [by apply prefix_app_r|]. by intros x ?%elem_of_nil.
Qed.

Lemma union_yield_keeps call σ0 c r subst :
  gen_post (holds_at (λ σ, σ0 ⊆ σ) subst) (holds_at (λ σ, σ0 ⊆ σ))
    (gen_do (union r subst) (λ result, yield_if_accepted call c result result)).
Proof.
  intros h [Hr Hσ]. unfold gen_do, union. case_bool_decide as Hagree.
  - destruct (yield_if_accepted_post call c (List.length h) (List.length h)
                (λ h', h' = h ++ [deref h r ∪ deref h subst]) (holds_at (λ σ, σ0 ⊆ σ)))
      with (h := h ++ [deref h r ∪ deref h subst]) as [He Hy]; [|done|].
    { intros ? ->. apply holds_at_last. etrans; [done|].
      by apply map_agree_union_subseteq_r. }
    split; [|done]. etrans; [|done]. by apply prefix_app_r.
  - split; [done|]. by intros x ?%elem_of_nil.
Qed.

Lemma _matches_from_matching_keeps call expr_lt σ0 subst remaining pattern matcher
    include_syntactic :
  matcher_keeps σ0 matcher →
  gen_post (holds_at (λ σ, σ0 ⊆ σ) subst) (holds_at (λ σ, σ0 ⊆ σ))
    (_matches_from_matching call expr_lt subst remaining pattern matcher include_syntactic).
Proof.
  intros Hm. unfold _matches_from_matching.
  case_match; [apply gen_stop_post|].
  apply gen_do_read_post; [done|]. intros h s0 HP [= <-].
  apply (gen_post_pre (holds_at (λ σ, σ0 ⊆ σ) subst)); [by intros ? ->|].
  destruct (consume_bound _ _ _ _ _) as [[remaining' fixed_vars]|]; [|apply gen_stop_post].
  match goal with |- gen_post _ _ (match ?r with _ => _ end) => destruct r as [factories|] eqn:Hf end;
    [|apply gen_raise_post].
  apply (gen_for_post _ (λ st, holds_at (λ σ, σ0 ⊆ σ) st.2));
    try (intros; apply holds_at_stable).
  - refine (iterator_chain_post
              (λ st : Multiset Expression * ref, holds_at (λ σ, σ0 ⊆ σ) st.2) _ _ _
              (remaining', subst)); [intros; apply holds_at_stable|].
    intros f s Hin.
    assert (∀ e, gen_post (holds_at (λ σ, σ0 ⊆ σ) s.2) (λ st, holds_at (λ σ, σ0 ⊆ σ) st.2)
                   (_fixed_expr_factory call e matcher s)) as Hfe
      by (intros; by apply _fixed_expr_factory_keeps).
    destruct (negb (associative (operation pattern))).
    + destruct (fixed_var_factories _ _ _) as [fs|] eqn:Hfs; [|done]. simpl in Hf.
      injection Hf as <-.
      apply elem_of_app in Hin as [Hin|Hin].
      { apply list_elem_of_fmap in Hin as (e & -> & _). apply Hfe. }
      apply elem_of_app in Hin as [Hin|Hin].
      { by eapply fixed_var_factories_keeps. }
      case_bool_decide; [|by apply elem_of_nil in Hin].
      apply list_elem_of_singleton in Hin as ->. apply _fixed_var_iter_factory_keeps.
    + injection Hf as <-. apply list_elem_of_fmap in Hin as (e & -> & _). apply Hfe.
  - intros [rem_expr subst'].
    destruct (sequence_slots pattern fixed_vars) as [[sequence_vars combined]|];
      [|apply gen_raise_post].
    apply gen_each_post; try (intros; apply holds_at_stable). intros sequence_subst _.
    apply (new_update_post _ _ _
             (λ r, if associative (operation pattern)
                   then rewrap_fixed (operation pattern) (fixed_variable_infos pattern) r
                          (ms_keys fixed_vars)
                   else comp_ret ())
             (λ r, gen_except_ValueError
                     (gen_do (union r subst')
                        (λ result, yield_if_accepted call combined result result)))).
    + apply holds_at_stable.
    + intros h' s. destruct (associative (operation pattern)); [apply rewrap_fixed_last|].
      by eexists _, _.
    + intros r. apply gen_except_ValueError_post. apply union_yield_keeps.
Qed.

Lemma match_operation_keeps call expr_lt σ0 expressions operation subst matcher :
  matcher_keeps σ0 matcher →
  gen_post (holds_at (λ σ, σ0 ⊆ σ) subst) (holds_at (λ σ, σ0 ⊆ σ))
    (match_operation call expr_lt expressions operation subst matcher).
Proof.
  intros Hm. unfold match_operation.
  destruct operation as [| | |op operands c]; try apply gen_raise_post.
  case_bool_decide.
  { case_bool_decide; [by apply gen_yield_post|apply gen_stop_post]. }
  destruct (negb (commutative op)); [by apply _non_commutative_match_keeps|].
  destruct (CommutativePatternsParts.__init__ op operands); [|apply gen_raise_post].
  unfold match_commutative_operation.
  case_match; [apply gen_raise_post|].
  case_match; [apply gen_stop_post|].
  by apply _matches_from_matching_keeps.
Qed.

Lemma match_keeps call expr_lt σ0 fuel : matcher_keeps σ0 (match_ call expr_lt fuel).
Proof.
  induction fuel as [|fuel IH]; intros expressions pattern subst; simpl.
  - apply gen_raise_post.
  - destruct pattern as [cls name c|mc fs st c|name inner c|op operands c].
    + repeat case_match; try apply gen_stop_post; by apply yield_if_accepted_post.
    + apply match_wildcard_post.
    + by apply match_variable_keeps.
    + repeat case_match; try apply gen_stop_post.
      apply (gen_for_post _ (holds_at (λ σ, σ0 ⊆ σ))); try (intros; apply holds_at_stable);
        [by apply match_operation_keeps|].
      intros r. by apply yield_if_accepted_post.
Qed.

(** X1: every substitution that [match] yields is an object of the store the
    enumeration leaves, and it extends the substitution [match] was given:
    it binds every name the incoming substitution binds, to the same value. *)
Theorem match_yields_extensions call expr_lt fuel expressions pattern subst h r :
  subst < List.length h →
  r ∈ (match_ call expr_lt fuel expressions pattern subst h).1.1 →
  r < List.length (match_ call expr_lt fuel expressions pattern subst h).2
  ∧ deref h subst ⊆ deref (match_ call expr_lt fuel expressions pattern subst h).2 r.
Proof.
  intros Hsubst Hr.
  destruct (match_keeps call expr_lt (deref h subst) fuel expressions pattern subst h)
    as [_ Hy]; [by split|].
  by apply Hy.
Qed.

(** A witness for X1: [x_] matched against [a] under a substitution that
    binds [y]. *)
Lemma match_yields_extensions_witness :
  1 < List.length (match_ call_true lt_none 2 [a_] x_ 0 [{["y" := VExpr b_]}]).2
  ∧ deref [{["y" := VExpr b_]}] 0
    ⊆ deref (match_ call_true lt_none 2 [a_] x_ 0 [{["y" := VExpr b_]}]).2 1.
Proof.
  apply (match_yields_extensions call_true lt_none 2 [a_] x_ 0 [{["y" := VExpr b_]}] 1).
  - simpl. lia.
  - vm_compute. left.
Defined.

(** *** The binding and the constraint of the yielded substitutions *)

Lemma yield_if_accepted_checked {A} call c r (x : A) P (Q : A → Store → Prop) :
  (∀ h, P h → from_option (λ c', holds call c' (deref h r)) true c = true → Q x h) →
  gen_post P Q (yield_if_accepted call c r x).
Proof.
  intros HPQ h HP. unfold yield_if_accepted, gen_do, accepts.
  destruct (from_option _ _ _) eqn:Hc; simpl; (split; [done|]).
  - intros y ->%list_elem_of_singleton. by apply HPQ.
  - by intros y ?%elem_of_nil.
Qed.

Lemma matcher_extends_post (matcher : Matcher) expressions pattern subst P :
  matcher_extends matcher →
  gen_post P (λ _ _, True) (matcher expressions pattern subst).
Proof. intros Hm h _. split; [apply Hm|done]. Qed.

Lemma match_variable_binds_post call expressions name inner c subst matcher :
  matcher_extends matcher →
  gen_post (λ h, subst < List.length h)
    (holds_at (λ σ, σ !! name = Some (bound_value expressions inner)))
    (match_variable call expressions (Variable_ name inner c) subst matcher).
Proof.
  intros Hm. unfold match_variable.
  apply gen_do_read_post; [done|]. intros h s HP [= <-].
  destruct (deref h subst !! name) as [v|] eqn:Hname.
  - case_bool_decide as Hv; [|apply gen_stop_post].
    apply yield_if_accepted_post. intros ? ->. split; [done|].
    rewrite Hname. f_equal. symmetry. exact Hv.
  - apply (gen_for_post _ (λ _ _, True)); try done.
    { intros; apply holds_at_stable. }
    { by apply matcher_extends_post. }
    intros r. apply copy_setitem_post. intros h1 _.
    apply yield_if_accepted_post. intros ? ->. apply holds_at_last.
    apply lookup_insert_eq.
Qed.

(** X2: every substitution that [match] yields for a variable pattern binds the
    name of the variable, and binds it to the subject: to the single
    expression when there is one and the variable does not wrap a sequence
    wildcard, to the tuple of the expressions otherwise. *)
Theorem match_binds_variable call expr_lt fuel expressions name inner c subst h r :
  subst < List.length h →
  r ∈ (match_ call expr_lt fuel expressions (Variable_ name inner c) subst h).1.1 →
  deref (match_ call expr_lt fuel expressions (Variable_ name inner c) subst h).2 r !! name
  = Some (bound_value expressions inner).
Proof.
  intros Hsubst Hr. destruct fuel as [|fuel]; [by apply elem_of_nil in Hr|].
  simpl in Hr |- *.
  destruct (match_variable_binds_post call expressions name inner c subst
              (match_ call expr_lt fuel) (match_extends call expr_lt fuel) h Hsubst)
    as [_ Hy].
  by apply Hy.
Qed.

(** A witness for X2: [x_] matched against [a] binds [x] to [a]. *)
Lemma match_binds_variable_witness :
  deref (match_ call_true lt_none 2 [a_] x_ 0 [∅]).2 1 !! "x" = Some (VExpr a_).
Proof.
  apply (match_binds_variable call_true lt_none 2 [a_] "x" (Wildcard 1 true None None) None
           0 [∅] 1).
  - simpl. lia.
  - vm_compute. left.
Defined.

Lemma match_checks_constraint call expr_lt fuel expressions pattern subst c :
  constraint_of pattern = Some c →
  gen_post (λ h, subst < List.length h)
    (holds_at (λ σ, holds call c σ = true))
    (match_ call expr_lt fuel expressions pattern subst).
Proof.
  intros Hc. destruct fuel as [|fuel]; simpl; [apply gen_raise_post|].
  destruct pattern as [cls name c'|mc fs st c'|name inner c'|op operands c'];
    simpl in Hc; subst c'.
  - repeat case_match; try apply gen_stop_post;
      apply yield_if_accepted_checked; by intros h Hh Hok.
  - unfold match_wildcard. repeat case_match; try apply gen_stop_post;
      try apply gen_raise_post; apply yield_if_accepted_checked; by intros h Hh Hok.
  - unfold match_variable.
    apply gen_do_read_post; [done|]. intros h s HP [= <-].
    destruct (deref h subst !! name) as [v|] eqn:Hname.
    + case_bool_decide as Hv; [|apply gen_stop_post].
      apply yield_if_accepted_checked. by intros ? -> Hok.
    + apply (gen_for_post _ (λ _ _, True)); try done.
      { intros; apply holds_at_stable. }
      { apply matcher_extends_post, match_extends. }
      intros r. apply copy_setitem_post. intros h1 _.
      apply yield_if_accepted_checked. intros ? -> Hok.
      rewrite deref_last in Hok. by apply holds_at_last.
  - repeat case_match; try apply gen_stop_post.
    apply (gen_for_post _ (holds_at (λ σ, ∅ ⊆ σ))); try (intros; apply holds_at_stable).
    + apply (gen_post_pre (holds_at (λ σ, ∅ ⊆ σ) subst)).
      { intros h Hh. split; [done|apply map_empty_subseteq]. }
      apply match_operation_keeps, match_keeps.
    + intros r. apply yield_if_accepted_checked. by intros h [Hr _] Hok.
Qed.

(** X3: every substitution that [match] yields satisfies the constraint of the
    pattern it was called on. *)
Theorem match_yields_satisfy_constraint call expr_lt fuel expressions pattern subst c h r :
  subst < List.length h →
  constraint_of pattern = Some c →
  r ∈ (match_ call expr_lt fuel expressions pattern subst h).1.1 →
  holds call c (deref (match_ call expr_lt fuel expressions pattern subst h).2 r) = true.
Proof.
  intros Hsubst Hc Hr.
  destruct (match_checks_constraint call expr_lt fuel expressions pattern subst c Hc h Hsubst)
    as [_ Hy].
  by apply Hy.
Qed.

(** A witness for X3: the variable [x] with the custom constraint 0. *)
Lemma match_yields_satisfy_constraint_witness :
  holds call_true (CustomConstraint 0)
    (deref (match_ call_true lt_none 2 [a_] x_constrained 0 [∅]).2 1) = true.
Proof.
  apply (match_yields_satisfy_constraint call_true lt_none 2 [a_] x_constrained 0
           (CustomConstraint 0) [∅] 1).
  - simpl. lia.
  - reflexivity.
  - vm_compute. left.
Defined.

(** *** The distribution of the subjects in the non-commutative matcher *)

Lemma count_seq_vars_step_closed_form assoc operand remaining count :
  _count_seq_vars_step assoc operand (remaining, count)
  = if remaining <? slot_min operand then Raise ValueError
    else Ok (remaining - slot_min operand,
             if is_sequence_slot assoc operand then S count else count).
Proof.
  unfold _count_seq_vars_step, slot_min, is_sequence_slot.
  by destruct (unwrap_variable operand).
Qed.

Lemma count_seq_vars_loop_closed_form assoc operands : ∀ remaining count,
  _count_seq_vars_loop assoc operands (remaining, count)
  = if remaining <? sum_list (slot_min <$> operands) then Raise ValueError
    else Ok (remaining - sum_list (slot_min <$> operands),
             count + List.length (filter (is_sequence_slot assoc) operands)).
Proof.
  induction operands as [|o operands IH]; intros remaining count.
  - simpl. f_equal. f_equal; lia.
  - rewrite fmap_cons. cbn [_count_seq_vars_loop sum_list_with].
    rewrite count_seq_vars_step_closed_form.
    set (total := sum_list (slot_min <$> operands)) in *.
    change (id (slot_min o)) with (slot_min o).
    destruct (Nat.ltb_spec remaining (slot_min o));
      [by rewrite (proj2 (Nat.ltb_lt remaining (slot_min o + total))) by lia|].
    rewrite IH.
    destruct (Nat.ltb_spec (remaining - slot_min o) total);
      [by rewrite (proj2 (Nat.ltb_lt remaining (slot_min o + total))) by lia|].
    rewrite (proj2 (Nat.ltb_ge remaining (slot_min o + total))) by lia.
    destruct (is_sequence_slot assoc o) eqn:Hslot.
    + rewrite filter_cons_True by (apply Is_true_true; exact Hslot). simpl. f_equal. f_equal; lia.
    + rewrite filter_cons_False by (intros ?%Is_true_true; congruence). f_equal. f_equal; lia.
Qed.

Lemma _count_seq_vars_closed_form expressions op operands c :
  _count_seq_vars expressions (Operation op operands c)
  = if List.length expressions <? sum_list (slot_min <$> operands) then Raise ValueError
    else Ok (List.length expressions - sum_list (slot_min <$> operands),
             List.length (filter (is_sequence_slot (associative op)) operands)).
Proof. simpl. by rewrite count_seq_vars_loop_closed_form. Qed.

(** X8: [_count_seq_vars] in closed form: it raises [ValueError] exactly when
    there are fewer subjects than the operands take at least; otherwise it
    returns the number of surplus subjects and the number of operands that
    are sequence wildcards (or, under an associative operator, any
    wildcards). *)
Theorem count_seq_vars_closed_form expressions op operands c :
  _count_seq_vars expressions (Operation op operands c)
  = if List.length expressions <? sum_list (slot_min <$> operands) then Raise ValueError
    else Ok (List.length expressions - sum_list (slot_min <$> operands),
             List.length (filter (is_sequence_slot (associative op)) operands)).
Proof. apply _count_seq_vars_closed_form. Qed.

Lemma slot_count_closed_form part assoc operand var_index :
  slot_count part assoc operand var_index
  = if is_sequence_slot assoc operand then
      match part !! var_index with
      | Some extra => Ok (slot_min operand + extra, S var_index, wrap_of assoc operand)
      | None => Raise IndexError
      end
    else Ok (slot_min operand, var_index, wrap_of assoc operand).
Proof.
  unfold slot_count, slot_min, is_sequence_slot, wrap_of.
  destruct (unwrap_variable operand) as [| mc fs st wc | |]; try done.
  destruct fs, assoc; simpl; try done; by destruct (part !! var_index).
Qed.

Lemma integer_partition_vector_iter_sum parts : ∀ total part,
  part ∈ integer_partition_vector_iter total parts → sum_list part = total.
Proof.
  induction parts as [|parts IH]; intros total part; cbn [integer_partition_vector_iter].
  - case_decide; [|by intros ?%elem_of_nil]. by intros ->%list_elem_of_singleton.
  - rewrite list_elem_of_In, in_flat_map.
    intros (i & Hi & Hin). apply list_elem_of_In, list_elem_of_fmap in Hin as (p & -> & Hp).
    apply in_seq in Hi. apply IH in Hp. simpl. lia.
Qed.

(** The slots of [_build_full_partition] before the re-wrapping are
    consecutive segments of the subjects. *)
Lemma build_full_partition_loop_segments part expressions op operands : ∀ i var_index result,
  _build_full_partition_loop part expressions op operands i var_index = Ok result →
  ∃ slots,
    result = zip_with (wrap_operands op) (wrap_of (associative op) <$> operands) slots
    ∧ List.length slots = List.length operands
    ∧ concat slots
      = take (sum_list (slot_min <$> operands)
              + sum_list (take (List.length (filter (is_sequence_slot (associative op))
                                               operands))
                            (drop var_index part)))
          (drop i expressions).
Proof.
  induction operands as [|o operands IH]; intros i var_index result.
  - intros [= <-]. exists []. by rewrite take_0.
  - cbn [_build_full_partition_loop]. rewrite slot_count_closed_form, fmap_cons.
    cbn [sum_list_with]. change (id (slot_min o)) with (slot_min o).
    destruct (is_sequence_slot (associative op) o) eqn:Hslot.
    + rewrite filter_cons_True by (apply Is_true_true; exact Hslot).
      destruct (part !! var_index) as [extra|] eqn:Hextra; [|done].
      destruct (_build_full_partition_loop _ _ _ _ _ _) as [result'|] eqn:Hloop; [|done].
      intros [= <-]. destruct (IH _ _ _ Hloop) as (slots & -> & Hlen & Hcat).
      exists (take (slot_min o + extra) (drop i expressions) :: slots).
      split_and!; [done|simpl; by rewrite Hlen|].
      simpl. rewrite Hcat, (drop_S _ _ _ Hextra). simpl.
      rewrite <-drop_drop, take_take_drop. f_equal.
      change (list_fmap _ _ slot_min operands) with (slot_min <$> operands). lia.
    + rewrite filter_cons_False by (intros ?%Is_true_true; congruence).
      destruct (_build_full_partition_loop _ _ _ _ _ _) as [result'|] eqn:Hloop; [|done].
      intros [= <-]. destruct (IH _ _ _ Hloop) as (slots & -> & Hlen & Hcat).
      exists (take (slot_min o) (drop i expressions) :: slots).
      split_and!; [done|simpl; by rewrite Hlen|].
      simpl. rewrite Hcat. rewrite <-drop_drop, take_take_drop. f_equal.
      change (list_fmap _ _ slot_min operands) with (slot_min <$> operands). lia.
Qed.

Lemma wrap_operands_0 op operand_expressions :
  wrap_operands op 0 operand_expressions = operand_expressions.
Proof. done. Qed.

Lemma zip_with_wrap_non_associative op operands : ∀ slots,
  associative op = false →
  List.length slots = List.length operands →
  zip_with (wrap_operands op) (wrap_of (associative op) <$> operands) slots = slots.
Proof.
  intros slots Hassoc. revert slots.
  induction operands as [|o operands IH]; intros [|slot slots]; simpl; try done.
  intros [= Hlen]. rewrite IH by done. f_equal.
  unfold wrap_of. rewrite Hassoc. by destruct (unwrap_variable o).
Qed.

(** X9: every distribution that [_non_commutative_match] tries hands all the
    subjects to the operands, in order: [_build_full_partition] succeeds, and
    its result is one list per operand; before the re-wrapping of an
    associative operator these lists are consecutive segments whose
    concatenation is the list of subjects, and without associativity they are
    the result itself. *)
Theorem build_full_partition_covers part expressions op operands c remaining
    sequence_var_count :
  _count_seq_vars expressions (Operation op operands c) = Ok (remaining, sequence_var_count) →
  part ∈ integer_partition_vector_iter remaining sequence_var_count →
  ∃ result slots,
    _build_full_partition part expressions (Operation op operands c) = Ok result
    ∧ result = zip_with (wrap_operands op) (wrap_of (associative op) <$> operands) slots
    ∧ List.length result = List.length operands
    ∧ List.length slots = List.length operands
    ∧ concat slots = expressions
    ∧ (associative op = false → result = slots).
Proof.
  intros Hcount Hpart.
  pose proof (integer_partition_vector_iter_length _ _ _ Hpart) as Hlen.
  pose proof (integer_partition_vector_iter_sum _ _ _ Hpart) as Hsum.
  destruct (build_full_partition_loop_total part expressions op operands
              (List.length expressions, 0) (remaining, sequence_var_count) 0 0)
    as [result Hres]; [exact Hcount|simpl; lia|].
  destruct (build_full_partition_loop_segments _ _ _ _ _ _ _ Hres)
    as (slots & Hzip & Hslots & Hcat).
  rewrite _count_seq_vars_closed_form in Hcount.
  destruct (Nat.ltb_spec (List.length expressions) (sum_list (slot_min <$> operands)));
    [done|].
  injection Hcount as <- <-.
  exists result, slots. split_and!; try done.
  - rewrite Hzip, length_zip_with, length_fmap. lia.
  - rewrite Hcat. rewrite drop_0, <-Hlen, firstn_all, Hsum.
    apply take_ge. lia.
  - intros Hassoc. rewrite Hzip. by apply zip_with_wrap_non_associative.
Qed.

(** A witness for X9: the pattern [g(a, x_, b)] and the subjects
    [a, c, d, b]. *)
Lemma build_full_partition_covers_witness :
  ∃ result slots,
    _build_full_partition [1] [a_; c_; d_; b_] (op_ g_op [a_; x_; b_]) = Ok result
    ∧ result = zip_with (wrap_operands g_op) (wrap_of true <$> [a_; x_; b_]) slots
    ∧ List.length result = 3
    ∧ List.length slots = 3
    ∧ concat slots = [a_; c_; d_; b_]
    ∧ (associative g_op = false → result = slots).
Proof.
  apply (build_full_partition_covers [1] [a_; c_; d_; b_] g_op [a_; x_; b_] None 1 1).
  - reflexivity.
  - vm_compute. left.
Defined.

(** X10: a non-commutative pattern matches no list of subjects that is shorter
    than its operands take at least, nor, when none of its operands is a
    sequence slot, one of another length: [_non_commutative_match] yields
    nothing then, without raising and without touching the store. *)
Theorem non_commutative_match_wrong_length expressions op operands c subst
    (matcher : Matcher) h :
  List.length expressions < sum_list (slot_min <$> operands)
  ∨ (filter (is_sequence_slot (associative op)) operands = []
     ∧ List.length expressions ≠ sum_list (slot_min <$> operands)) →
  _non_commutative_match expressions (Operation op operands c) subst matcher h
  = (([], None), h).
Proof.
  intros Hlen. unfold _non_commutative_match. rewrite _count_seq_vars_closed_form.
  destruct (Nat.ltb_spec (List.length expressions) (sum_list (slot_min <$> operands)));
    [done|].
  destruct Hlen as [?|[-> Hne]]; [lia|]. simpl.
  destruct (List.length expressions - sum_list (slot_min <$> operands)) eqn:Hrem; [lia|].
  done.
Qed.

(** A witness for X10: the pattern [g(a, b)] and the one subject [a]. *)
Lemma non_commutative_match_wrong_length_witness :
  _non_commutative_match [a_] (op_ g_op [a_; b_]) 0 (match_ call_true lt_none 1) [∅]
  = (([], None), [∅]).
Proof. apply non_commutative_match_wrong_length. left. simpl. lia. Defined.

(** *** The dictionaries of variable infos *)

Lemma named_snoc name occurrences e :
  named name (occurrences ++ [e])
  = named name occurrences ++ (if decide (variable_name e = Some name) then [e] else []).
Proof. unfold named. rewrite filter_app, filter_cons, filter_nil. by case_decide. Qed.

Lemma _update_var_info_agree (infos infos' : gmap (option string) VarInfo) occurrences e name :
  variable_name e = Some name →
  CommutativePatternsParts._update_var_info infos (Some name) (slot_min e) (constraint_of e)
  = Ok infos' →
  infos_agree infos occurrences → infos_agree infos' (occurrences ++ [e]).
Proof.
  intros Hname Hupd [Hnone Hinv]. unfold CommutativePatternsParts._update_var_info in Hupd.
  assert (infos' = infos
          ∨ ∃ info, infos' = <[Some name := info]> infos) as Hshape.
  { destruct (infos !! Some name) as [[emc ec]|]; [|(injection Hupd as <-); eauto].
    destruct (negb _); [done|]. destruct (constraint_of e); [|(injection Hupd as <-); eauto].
    destruct (negb _); [done|]. (injection Hupd as <-); eauto. }
  split.
  { destruct Hshape as [->|[info ->]]; [done|]. by rewrite lookup_insert_ne. }
  intros name'. rewrite named_snoc. destruct (decide (name' = name)) as [->|Hne].
  - rewrite decide_True by done. specialize (Hinv name).
    destruct (infos !! Some name) as [[emc ec]|] eqn:Hlook.
    + destruct Hinv as (Hocc & Hmin & Hcon). simpl in Hmin, Hcon.
      case_bool_decide as Hmc; [|done]. simpl in Hupd. subst emc.
      assert (∀ e', e' ∈ named name occurrences ++ [e] → slot_min e' = slot_min e) as Hmin'.
      { intros e' [He'|He']%elem_of_app; [by apply Hmin|].
        by apply list_elem_of_singleton in He' as ->. }
      destruct (constraint_of e) as [c1|] eqn:Hc.
      * simpl in Hupd. injection Hupd as <-.
        rewrite lookup_insert_eq. split_and!; [by intros [? ?]%app_eq_nil|done|].
        intros call s. simpl. rewrite forallb_app, <-Hcon. simpl. rewrite Hc. simpl.
        rewrite andb_true_r. destruct ec as [c0|]; [|done].
        apply (MultiConstraint_create_conjunction call (Some c0) c1 s).
      * injection Hupd as <-. rewrite Hlook.
        split_and!; [by intros [? ?]%app_eq_nil|done|].
        intros call s. simpl. rewrite forallb_app, <-Hcon. simpl. rewrite Hc. simpl.
        by rewrite andb_true_r.
    + injection Hupd as <-. rewrite lookup_insert_eq, Hinv. simpl.
      split_and!; [done|intros e' He'; by apply list_elem_of_singleton in He' as ->|].
      intros call s. by rewrite andb_true_r.
  - rewrite decide_False by congruence. rewrite app_nil_r.
    destruct Hshape as [->|[info ->]]; [apply Hinv|].
    rewrite lookup_insert_ne by congruence. apply Hinv.
Qed.

Lemma classify_infos self e p es :
  classify self e = Ok p →
  infos_agree (fixed_variable_infos self) (filter (in_bucket BFixedVariable) es)
  ∧ infos_agree (sequence_variable_infos self) (filter (in_bucket BSequenceVariable) es) →
  infos_agree (fixed_variable_infos p) (filter (in_bucket BFixedVariable) (es ++ [e]))
  ∧ infos_agree (sequence_variable_infos p)
      (filter (in_bucket BSequenceVariable) (es ++ [e])).
Proof.
  intros Hc [Hf Hs]. rewrite !filter_in_bucket_snoc.
  unfold classify in Hc. unfold in_bucket, bucket_of. destruct self. simpl in *.
  destruct (is_constant e) eqn:Hconst.
  { injection Hc as <-. simpl. by rewrite !app_nil_r. }
  case_bool_decide as Hhead.
  - destruct e as [| mc fs st wc | name inner c |]; try done.
    + injection Hc as <-. simpl. by rewrite !app_nil_r.
    + destruct inner as [| mc fs st wc | |]; try done.
      destruct fs; destruct (_update_var_info _ _ _ _) as [infos'|] eqn:Hupd; try done;
        injection Hc as <-; simpl; rewrite app_nil_r;
        split; first [done | by eapply _update_var_info_agree].
  - destruct (is_syntactic e); injection Hc as <-; simpl; by rewrite !app_nil_r.
Qed.

Lemma classify_all_infos es : ∀ self p es0,
  classify_all self es = Ok p →
  infos_agree (fixed_variable_infos self) (filter (in_bucket BFixedVariable) es0)
  ∧ infos_agree (sequence_variable_infos self) (filter (in_bucket BSequenceVariable) es0) →
  infos_agree (fixed_variable_infos p) (filter (in_bucket BFixedVariable) (es0 ++ es))
  ∧ infos_agree (sequence_variable_infos p)
      (filter (in_bucket BSequenceVariable) (es0 ++ es)).
Proof.
  induction es as [|e es IH]; intros self p es0; simpl.
  - intros [= <-]. by rewrite app_nil_r.
  - destruct (classify self e) as [self'|] eqn:Hc; [|done].
    intros Hall Hs. rewrite (assoc_L (++) es0 [e] es : es0 ++ e :: es = (es0 ++ [e]) ++ es).
    eapply IH; [done|]. by eapply classify_infos.
Qed.

(** X11: the two dictionaries of variable infos that [__init__] builds agree with
    the operands: a name has an entry in [fixed_variable_infos] (in
    [sequence_variable_infos]) exactly when an operand is a fixed (a
    sequence) variable of that name; the [min_count] of the entry is the
    [min_count] of every such operand, and its constraint holds of a
    substitution exactly when the constraints of all these operands hold. *)
Theorem init_variable_infos op expressions p :
  CommutativePatternsParts.__init__ op expressions = Ok p →
  infos_agree (fixed_variable_infos p) (filter (in_bucket BFixedVariable) expressions)
  ∧ infos_agree (sequence_variable_infos p)
      (filter (in_bucket BSequenceVariable) expressions).
Proof.
  intros Hinit. apply (classify_all_infos expressions _ p [] Hinit).
  split; (split; [done|]); intros name; simpl; by rewrite lookup_empty.
Qed.

(** A witness for X11: the fixed variable [x] twice, once with a constraint,
    and the sequence variable [x]. *)
Lemma init_variable_infos_witness :
  ∃ p,
    CommutativePatternsParts.__init__ f_op [x_; x_constrained; x__] = Ok p
    ∧ infos_agree (fixed_variable_infos p)
        (filter (in_bucket BFixedVariable) [x_; x_constrained; x__])
    ∧ infos_agree (sequence_variable_infos p)
        (filter (in_bucket BSequenceVariable) [x_; x_constrained; x__]).
Proof.
  eexists. split; [reflexivity|].
  exact (init_variable_infos f_op [x_; x_constrained; x__] _ eq_refl).
Defined.

(** *** Splitting the subjects of a commutative pattern *)

Lemma ms_get_add_count {K} `{EqDecision K} (k : K) n (m : Multiset K) e :
  ms_get (ms_add_count k n m) e = ms_get m e + (if decide (k = e) then n else 0).
Proof.
  destruct n as [|n]; [destruct m; cbn [ms_add_count]; destruct (decide (k = e)); lia|].
  induction m as [|[k' n'] m IH]; cbn [ms_add_count ms_get].
  - destruct (decide (k = e)); lia.
  - destruct (decide (k' = k)) as [->|Hk]; cbn [ms_get].
    + destruct (decide (k = e)); lia.
    + destruct (decide (k' = e)) as [->|]; [|done].
      rewrite decide_False by congruence. lia.
Qed.

Lemma ms_get_not_key {K} `{EqDecision K} (m : Multiset K) e :
  e ∉ ms_keys m → ms_get m e = 0.
Proof.
  induction m as [|[k n] m IH]; [done|]. simpl.
  intros [Hne Hin]%not_elem_of_cons. rewrite decide_False by congruence. by apply IH.
Qed.

Lemma _split_expressions_get expressions : ∀ constants syntactics e,
  NoDup (ms_keys expressions) →
  let result :=
    foldl (fun '(constants, syntactics) '(expression, count) =>
             if is_syntactic expression
                || negb (match expression with
                         | Operation op _ _ => associative op || commutative op
                         | _ => false
                         end)
             then (constants, ms_add_count expression count syntactics)
             else (ms_add_count expression count constants, syntactics))
      (constants, syntactics) expressions in
  ms_get result.1 e
  = ms_get constants e + (if is_ac_operation e then ms_get expressions e else 0)
  ∧ ms_get result.2 e
    = ms_get syntactics e + (if is_ac_operation e then 0 else ms_get expressions e).
Proof.
  induction expressions as [|[k n] expressions IH]; intros constants syntactics e Hnd.
  - simpl. destruct (is_ac_operation e); lia.
  - change (ms_keys ((k, n) :: expressions)) with (k :: ms_keys expressions) in Hnd.
    apply NoDup_cons in Hnd as [Hk Hnd]. cbn [foldl].
    assert (is_syntactic k
            || negb (match k with
                     | Operation op _ _ => associative op || commutative op
                     | _ => false
                     end) = negb (is_ac_operation k)) as ->.
    { destruct k as [| | |op operands c]; cbn [is_ac_operation negb];
        try apply orb_true_r.
      cbn [is_syntactic]. destruct (associative op), (commutative op); simpl; try done.
      apply orb_true_r. }
    cbv zeta.
    destruct (is_ac_operation k) eqn:Hac; cbn [negb].
    + destruct (IH (ms_add_count k n constants) syntactics e Hnd) as [-> ->].
      rewrite ms_get_add_count. cbn [ms_get].
      destruct (decide (k = e)) as [->|Hne]; [|destruct (is_ac_operation e); lia].
      rewrite Hac, (ms_get_not_key expressions e) by done. lia.
    + destruct (IH constants (ms_add_count k n syntactics) e Hnd) as [-> ->].
      rewrite ms_get_add_count. cbn [ms_get].
      destruct (decide (k = e)) as [->|Hne]; [|destruct (is_ac_operation e); lia].
      rewrite Hac, (ms_get_not_key expressions e) by done. lia.
Qed.

(** X13: [_split_expressions] splits a multiset of subjects by the operator at the
    top alone: the operations whose operator is associative or commutative
    go to the first multiset and every other subject to the second, with the
    multiplicity it had; an operation with such an operator further down,
    which is not syntactic, is among the second. *)
Theorem split_expressions_by_operator expressions e :
  NoDup (ms_keys expressions) →
  ms_get (_split_expressions expressions).1 e
  = (if is_ac_operation e then ms_get expressions e else 0)
  ∧ ms_get (_split_expressions expressions).2 e
    = (if is_ac_operation e then 0 else ms_get expressions e).
Proof.
  intros Hnd. destruct (_split_expressions_get expressions [] [] e Hnd) as [H1 H2].
  split; [exact H1|exact H2].
Qed.

(** A witness for X13: [h(f(a))], with [f] commutative and [h] neither
    associative nor commutative, is not syntactic and goes to the second
    multiset. *)
Lemma split_expressions_by_operator_witness :
  ms_get (_split_expressions [(op_ f_op [a_], 2); (op_ (MkOp (MkClass "h" []) false false)
                                                     [op_ f_op [a_]], 1)]).2
    (op_ (MkOp (MkClass "h" []) false false) [op_ f_op [a_]]) = 1.
Proof.
  refine (proj2 (split_expressions_by_operator
                   [(op_ f_op [a_], 2);
                    (op_ (MkOp (MkClass "h" []) false false) [op_ f_op [a_]], 1)]
                   (op_ (MkOp (MkClass "h" []) false false) [op_ f_op [a_]]) _)).
  apply (bool_decide_unpack _). vm_compute. exact I.
Defined.

(** *** The fixed variables that are bound already *)

Lemma filter_ext_elem {A} (P1 P2 : A → Prop) `{!∀ x, Decision (P1 x)}
    `{!∀ x, Decision (P2 x)} (l : list A) :
  (∀ x, x ∈ l → P1 x ↔ P2 x) → filter P1 l = filter P2 l.
Proof.
  induction l as [|x l IH]; intros Hl; [done|].
  rewrite !filter_cons. rewrite IH by (intros y Hy; apply Hl; by right).
  destruct (decide (P1 x)) as [H1|H1], (decide (P2 x)) as [H2|H2]; try done.
  - by apply Hl in H1; [|by left].
  - by apply Hl in H2; [|by left].
Qed.

Lemma filter_filter_elem {A} (P Q R : A → Prop) `{!∀ x, Decision (P x)}
    `{!∀ x, Decision (Q x)} `{!∀ x, Decision (R x)} (l : list A) :
  (∀ x, x ∈ l → P x ∧ Q x ↔ R x) → filter P (filter Q l) = filter R l.
Proof.
  induction l as [|x l IH]; intros Hl; [done|].
  rewrite !(filter_cons _ x l).
  assert (filter P (filter Q l) = filter R l) as IH'
    by (apply IH; intros y Hy; apply Hl; by right).
  destruct (decide (Q x)) as [HQ|HQ], (decide (R x)) as [HR|HR].
  - rewrite filter_cons, decide_True, IH'; [done|]. apply Hl in HR; [tauto|by left].
  - rewrite filter_cons, decide_False, IH'; [done|]. intros HP. apply HR, Hl; [by left|done].
  - apply Hl in HR; [tauto|by left].
  - done.
Qed.

Lemma filter_all {A} (P : A → Prop) `{!∀ x, Decision (P x)} (l : list A) :
  (∀ x, x ∈ l → P x) → filter P l = l.
Proof.
  induction l as [|x l IH]; intros Hl; [done|].
  rewrite filter_cons, decide_True by (apply Hl; by left).
  f_equal. apply IH. intros y Hy. apply Hl. by right.
Qed.

Lemma consume_bound_fixed_vars op s items : ∀ remaining fixed_vars remaining' fixed_vars',
  consume_bound op s items remaining fixed_vars = Some (remaining', fixed_vars') →
  fixed_vars'
  = filter (λ kn, ¬ (kn.1 ∈ ms_keys items ∧ is_Some (s !! kn.1))) fixed_vars.
Proof.
  induction items as [|[name count] items IH];
    intros remaining fixed_vars remaining' fixed_vars'; simpl.
  - intros [= <- <-]. symmetry. apply filter_all.
    intros kn _ [Hin _]. by apply elem_of_nil in Hin.
  - destruct (s !! name) as [v|] eqn:Hname.
    + destruct (negb _); [done|]. intros ->%IH. unfold ms_del.
      apply filter_filter_elem.
      intros [k n] _. simpl. split.
      * intros [Hk Hne] [[->|Hin]%elem_of_cons Hs]; [done|]. apply Hk. done.
      * intros Hk. split.
        -- intros [Hin Hs]. apply Hk. split; [by right|done].
        -- intros ->. apply Hk. split; [by left|]. by rewrite Hname.
    + intros ->%IH. apply list_filter_iff. intros [k n]. simpl. split.
      * intros Hk [[->|Hin]%elem_of_cons Hs]; [|by apply Hk].
        rewrite Hname in Hs. by destruct Hs.
      * intros Hk [Hin Hs]. apply Hk. split; [by right|done].
Qed.

(** X14: the first loop of [_matches_from_matching] removes from the fixed
    variables exactly those that the incoming substitution binds already:
    when it does not give up, the variables that are left, for which
    factories are made, are the fixed variables of the pattern that the
    substitution does not bind, with their multiplicities. *)
Theorem consume_bound_leaves_unbound op s fixed_variables remaining remaining' fixed_vars' :
  consume_bound op s fixed_variables remaining fixed_variables
  = Some (remaining', fixed_vars') →
  fixed_vars' = filter (λ kn, s !! kn.1 = None) fixed_variables.
Proof.
  intros ->%consume_bound_fixed_vars. apply filter_ext_elem.
  intros [k n] Hin. simpl. split.
  - intros Hk. destruct (s !! k) eqn:Hs; [|done]. exfalso. apply Hk.
    split; [|done]. apply list_elem_of_fmap. by exists (k, n).
  - intros -> [_ Hs]. by destruct Hs.
Qed.

(** A witness for X14: the fixed variables [x] and [y], of which [x] is
    bound. *)
Lemma consume_bound_leaves_unbound_witness :
  ∃ remaining' fixed_vars',
    consume_bound f_op {["x" := VExpr a_]} [("x", 1); ("y", 1)] [(a_, 1); (b_, 1)]
      [("x", 1); ("y", 1)] = Some (remaining', fixed_vars')
    ∧ fixed_vars'
      = filter (λ kn, ({["x" := VExpr a_]} : Substitution) !! kn.1 = None)
          [("x", 1); ("y", 1)].
Proof.
  eexists _, _. split; [reflexivity|].
  exact (consume_bound_leaves_unbound f_op {["x" := VExpr a_]} [("x", 1); ("y", 1)]
           [(a_, 1); (b_, 1)] _ _ eq_refl).
Defined.

(** *** Exceptions at the edges *)

(** X15: the factory of a fixed variable raises in one case only: the variable is
    not bound, its length is not 1, it is asked for with a count of 0 and
    there are expressions left; dividing their multiplicities by the count
    raises [ZeroDivisionError] then.  In every other case the generator ends
    without an exception. *)
Theorem fixed_var_iter_factory_raises call variable count length constraint expressions
    substitution h :
  (_fixed_var_iter_factory call variable count length constraint
     (expressions, substitution) h).1.2
  = if bool_decide (lookup_name (deref h substitution) variable = None)
       && negb (bool_decide (length = 1))
       && bool_decide (count = 0) && negb (bool_decide (expressions = []))
    then Some ZeroDivisionError else None.
Proof.
  unfold _fixed_var_iter_factory, gen_do, load. cbn [fst snd].
  destruct (lookup_name (deref h substitution) variable) eqn:Hname.
  - rewrite bool_decide_eq_false_2 by done. simpl.
    case_match; [done|apply yield_if_accepted_total].
  - rewrite (bool_decide_eq_true_2 (None = None)) by done. cbn [andb].
    destruct (bool_decide (length = 1)); cbn [negb andb].
    + apply gen_each_total. intros [expr expr_count] _.
      case_match; [apply bind_fixed_total|apply gen_stop_total].
    + destruct (bool_decide (count = 0) && negb (bool_decide (expressions = []))); [done|].
      apply gen_each_total. intros subset _. apply bind_fixed_total.
Qed.

(** X6: on a pattern with a commutative operator, [match] insists that the
    operands of the subject are constant: when one of them has a variable or a
    wildcard, the call raises [ValueError] and yields nothing, whatever the
    pattern would otherwise match; it leaves the store as it is. *)
Theorem match_commutative_subject_not_constant call expr_lt fuel op operands c op' operands'
    c' parts subst h :
  operands ≠ [] →
  commutative op = true →
  isinstance_Operation (Operation op' operands' c') op = true →
  CommutativePatternsParts.__init__ op operands = Ok parts →
  existsb (λ e, negb (is_constant e)) operands' = true →
  match_ call expr_lt (S fuel) [Operation op' operands' c'] (Operation op operands c) subst h
  = (([], Some ValueError), h).
Proof.
  intros Hoperands Hcomm Hinst Hinit Hconst. cbn [match_]. rewrite Hinst. cbn [negb].
  unfold gen_for, match_operation.
  rewrite bool_decide_eq_false_2 by (by destruct operands).
  rewrite Hcomm, Hinit. cbn [negb]. unfold match_commutative_operation.
  by rewrite Hconst.
Qed.

(** A witness for X6: the pattern [f(a, x_)] and the subject [f(a, x_)]. *)
Lemma match_commutative_subject_not_constant_witness :
  match_ call_true lt_none 1 [op_ f_op [a_; x_]] (op_ f_op [a_; x_]) 0 [∅]
  = (([], Some ValueError), [∅]).
Proof.
  eapply (match_commutative_subject_not_constant call_true lt_none 0 f_op [a_; x_] None
            f_op [a_; x_] None);
    [done|reflexivity|reflexivity|reflexivity|reflexivity].
Defined.

(** *** A ground pattern matches itself *)

Lemma issubclass_refl c : issubclass c c = true.
Proof. unfold issubclass. by rewrite bool_decide_eq_true_2. Qed.

Lemma ground_slot_min operands :
  forallb ground operands = true → slot_min <$> operands = replicate (List.length operands) 1.
Proof.
  induction operands as [|o operands IH]; [done|].
  intros [Ho Hall]%andb_prop. rewrite fmap_cons, IH by done. simpl. f_equal. by destruct o.
Qed.

Lemma ground_no_sequence_slot assoc operands :
  forallb ground operands = true → filter (is_sequence_slot assoc) operands = [].
Proof.
  induction operands as [|o operands IH]; [done|].
  intros [Ho Hall]%andb_prop. rewrite filter_cons_False; [by apply IH|].
  destruct o; try done; by intros [].
Qed.

Lemma sum_list_replicate_1 n : sum_list (replicate n 1) = n.
Proof. induction n; simpl; lia. Qed.

Lemma ground_build_full_partition op operands : ∀ pre,
  forallb ground operands = true →
  _build_full_partition_loop [] (pre ++ operands) op operands (List.length pre) 0
  = Ok ((λ o, [o]) <$> operands).
Proof.
  induction operands as [|o operands IH]; intros pre; [done|]. simpl.
  intros [Ho Hall]%andb_prop.
  assert (slot_count [] (associative op) o 0 = Ok (1, 0, 0)) as ->
    by (by destruct o).
  specialize (IH (pre ++ [o]) Hall).
  rewrite <-(assoc_L (++)), length_app in IH. simpl in IH. rewrite IH.
  rewrite drop_app_length. simpl. by rewrite take_0.
Qed.

Lemma iterator_chain_fixed {A} (x : A) (factories : list (A → Gen A)) h :
  (∀ f, f ∈ factories → f x h = (([x], None), h)) →
  iterator_chain x factories h = (([x], None), h).
Proof.
  induction factories as [|f fs IH]; intros Hf; [done|].
  change (iterator_chain x (f :: fs)) with (gen_for (f x) (λ s, iterator_chain s fs)).
  rewrite (gen_for_single _ _ x h h) by (apply Hf; by left).
  apply IH. intros f' Hf'. apply Hf. by right.
Qed.

Lemma _non_commutative_match_ground op operands c subst (matcher : Matcher) h :
  forallb ground operands = true →
  (∀ o, o ∈ operands → matcher [o] o subst h = (([subst], None), h)) →
  _non_commutative_match operands (Operation op operands c) subst matcher h
  = (([subst], None), h).
Proof.
  intros Hall Hm. unfold _non_commutative_match.
  rewrite _count_seq_vars_closed_form, ground_slot_min, ground_no_sequence_slot,
    sum_list_replicate_1, Nat.ltb_irrefl, Nat.sub_diag by done.
  cbn [List.length integer_partition_vector_iter]. rewrite decide_True by done.
  rewrite gen_each_single. unfold _build_full_partition.
  pose proof (ground_build_full_partition op operands [] Hall) as Hb.
  cbn [app List.length] in Hb. rewrite Hb.
  rewrite (gen_for_single _ _ subst h h); [done|]. apply iterator_chain_fixed.
  intros f Hf. apply list_elem_of_lookup in Hf as [i Hf].
  apply lookup_zip_with_Some in Hf as (es & o & -> & Hes & Ho).
  rewrite list_lookup_fmap in Hes. simpl in Ho. rewrite Ho in Hes. injection Hes as <-.
  unfold _match_factory. rewrite (gen_for_single _ _ subst h h); [done|].
  apply Hm. by eapply list_elem_of_lookup_2.
Qed.

Lemma match_ground call expr_lt fuel : ∀ e subst h,
  ground e = true → depth e < fuel →
  match_ call expr_lt fuel [e] e subst h = (([subst], None), h).
Proof.
  induction fuel as [|fuel IH]; intros e subst h Hg Hd; [lia|].
  destruct e as [cls name c| | |op operands c]; try done; cbn [match_].
  - simpl in Hg. apply bool_decide_eq_true in Hg as ->.
    cbn [isinstance_Symbol]. rewrite issubclass_refl, bool_decide_eq_true_2 by done.
    done.
  - simpl in Hg. apply andb_prop in Hg as [[Hc Hcomm]%andb_prop Hall].
    apply bool_decide_eq_true in Hc as ->.
    cbn [isinstance_Operation]. rewrite issubclass_refl. cbn [negb].
    rewrite (gen_for_single _ _ subst h h); [done|]. unfold match_operation.
    destruct operands as [|o operands]; [done|].
    rewrite bool_decide_eq_false_2 by done.
    rewrite orb_false_r in Hcomm. rewrite Hcomm.
    apply _non_commutative_match_ground; [done|].
    intros o' Ho'. apply IH.
    + rewrite forallb_forall in Hall. apply Hall. by apply list_elem_of_In.
    + pose proof (depth_operand op (o :: operands) None o' Ho'). lia.
Qed.

(** X7: a pattern without variables, wildcards and constraints, in which no
    commutative operator has operands, matches itself: [match] yields the
    substitution it was given, once, raises nothing and leaves the store as
    it is. *)
Theorem match_ground_reflexive call expr_lt fuel e subst h :
  ground e = true → depth e < fuel →
  match_ call expr_lt fuel [e] e subst h = (([subst], None), h).
Proof. apply match_ground. Qed.

(** A witness for X7: [g(a, b)] matched against itself. *)
Lemma match_ground_reflexive_witness :
  match_ call_true lt_none 2 [op_ g_op [a_; b_]] (op_ g_op [a_; b_]) 0 [∅]
  = (([0], None), [∅]).
Proof. apply match_ground_reflexive; [reflexivity|simpl; lia]. Defined.
